(** * Review-queue engine of the flashcard web application

    A shallow embedding of [web/src/lib/db.ts] (the review functions and the
    functions that create, list, edit, move and delete cards and notes), of
    the route handlers of [/api/review], [/api/cards] and [/api/notes], of
    the field handling of the card browser and of the text cleaning of
    [web/src/lib/embeddings.ts], with the properties the specification
    states about them and further properties of the code.

    Conventions of the embedding:
    - SQLite tables with an [integer PRIMARY KEY] are finite maps from the key
      to the remaining columns ([gmap Z _]); only the columns the functions
      read back are kept.
    - JavaScript numbers and SQLite integers that hold ids, timestamps, day
      numbers and counters are [Z]: these values stay far from 2^53 and 2^63.
      [Math.floor(a / b)] on such numbers is [Z.div] (floor division).
    - [Date.now()] and [Math.random()] are effects: the world carries the
      stream of future clock readings and the entropy stream, and a counter
      of how many of each have been consumed.
    - Functions run in a state-and-exception monad [Js]: a call either
      returns normally or throws, and threads the world.  The store is taken
      to be available and its limits on the length of strings and patterns
      not to be reached: the only throws are a request body that is not
      JSON and an [INSERT] under a primary key that is taken. *)

From Stdlib Require Import QArith Qround Ascii.
From stdpp Require Import gmap strings list fin_maps sorting.

Close Scope Q_scope.
Open Scope Z_scope.

(** ** Data model *)

(** Columns of [cards] besides the primary key [id]. *)
Record CardRow := mkCardRow {
  c_nid : Z;
  c_did : Z;
  c_ord : Z;
  c_mod : Z;
  c_type : Z;
  c_queue : Z;
  c_due : Z;
  c_ivl : Z;
  c_factor : Z;
  c_reps : Z;
  c_lapses : Z
}.

(** Columns of [notes] and [decks] that the queries project. *)
Record NoteRow := mkNoteRow { n_flds : string; n_tags : string }.
Record DeckRow := mkDeckRow { d_name : string }.

(** [interface CardWithNote extends Card]: one row of the three-way join. *)
Record CardWithNote := mkCardWithNote {
  id : Z;
  nid : Z;
  did : Z;
  ord : Z;
  type : Z;
  queue : Z;
  due : Z;
  ivl : Z;
  factor : Z;
  reps : Z;
  lapses : Z;
  note_flds : string;
  note_tags : string;
  deck_name : string
}.

(** The SQLite file. [col] is the first row of [SELECT crt FROM col], if any. *)
Record Db := mkDb {
  cards : gmap Z CardRow;
  notes : gmap Z NoteRow;
  decks : gmap Z DeckRow;
  col : option Z
}.

Record World := mkWorld {
  db : Db;
  clock : nat → Z;          (* successive results of Date.now(), milliseconds *)
  clock_reads : nat;
  entropy : nat → Q;        (* raw stream behind Math.random() *)
  random_draws : nat
}.

(** ** The monad of JavaScript computations *)

Inductive Completion (A : Type) : Type :=
  | Normal (a : A)
  | Throw (e : string).
Arguments Normal {A} a.
Arguments Throw {A} e.

Definition Js (A : Type) : Type := World → Completion A * World.

#[global] Instance Js_ret : MRet Js := λ A a w, (Normal a, w).
#[global] Instance Js_bind : MBind Js := λ A B f m w,
  match m w with
  | (Normal a, w') => f a w'
  | (Throw e, w') => (Throw e, w')
  end.

(** [try { body } catch (error) { handler }] *)
Definition try_catch {A} (body : Js A) (handler : string → Js A) : Js A := λ w,
  match body w with
  | (Normal a, w') => (Normal a, w')
  | (Throw e, w') => handler e w'
  end.

Definition throw {A} (e : string) : Js A := λ w, (Throw e, w).

Definition getDb : Js Db := λ w, (Normal (db w), w).

(** [UPDATE cards SET ... WHERE id = ?]: [set] is the [SET] list; a key that
    matches no row changes nothing and is not an error. *)
Definition update_cards_where_id (set : CardRow → CardRow) (cardId : Z) : Js () := λ w,
  (Normal (),
   mkWorld (mkDb (alter set cardId (cards (db w)))
                 (notes (db w)) (decks (db w)) (col (db w)))
           (clock w) (clock_reads w) (entropy w) (random_draws w)).

(** [Date.now()] *)
Definition Date_now : Js Z := λ w,
  (Normal (clock w (clock_reads w)),
   mkWorld (db w) (clock w) (S (clock_reads w)) (entropy w) (random_draws w)).

(** [Math.random()]: ECMAScript fixes the range to [0, 1); the raw entropy is
    arbitrary and its fractional part is the value returned. *)
Definition unit_interval (q : Q) : Q := (q - inject_Z (Qfloor q))%Q.

Definition Math_random : Js Q := λ w,
  (Normal (unit_interval (entropy w (random_draws w))),
   mkWorld (db w) (clock w) (clock_reads w) (entropy w) (S (random_draws w))).

(** [Math.floor(Math.random() * n)] as an array index.  The product is taken
    exactly, where JavaScript rounds it to a double: the index drawn can
    differ from the one of a run, and the properties below are about what
    holds for every index below [n], never about the order of a result. *)
Definition random_index (n : nat) : Js nat :=
  x ← Math_random;
  mret (Z.to_nat (Qfloor (x * inject_Z (Z.of_nat n))%Q)).

(** ** db.ts: clock helpers *)

Definition URGENT_DECK_ID : Z := 1740140533109.

(** [Math.floor(Date.now() / 1000)] *)
Definition now_seconds : Js Z :=
  ms ← Date_now;
  mret (ms / 1000).

(** [col?.crt || Math.floor(Date.now() / 1000)]: a missing row and a zero
    [crt] are both falsy, and only then is the clock read. *)
Definition getCollectionCreation : Js Z :=
  d ← getDb;
  match col d with
  | Some crt => if crt =? 0 then now_seconds else mret crt
  | None => now_seconds
  end.

Definition getTodayDayNumber : Js Z :=
  crt ← getCollectionCreation;
  now ← now_seconds;
  mret ((now - crt) / 86400).

(** ** db.ts: shuffleArray

    Arrays are lists here; [shuffleArray] works on a copy ([...array]), so at
    the level of values it is a function from the argument's contents to the
    result's contents.  The version with explicit array objects is
    [shuffleArray_ref] below. *)

(** [[result[i], result[j]] = [result[j], result[i]]]: the right-hand side is
    read first, then [result[i]] and [result[j]] are written in that order.
    Both indices are inside the array whenever the loop runs
    ([random_index_lt]); outside it JavaScript would write [undefined] and
    grow the array, which a list of [T] cannot hold, and the list is left
    as it is. *)
Definition swap {T} (i j : nat) (result : list T) : list T :=
  match result !! j, result !! i with
  | Some rj, Some ri => <[j := ri]> (<[i := rj]> result)
  | _, _ => result
  end.

(** [for (let i = n; i > 0; i--) { const j = ...; swap }] *)
Fixpoint shuffle_loop {T} (i : nat) (result : list T) : Js (list T) :=
  match i with
  | O => mret result
  | S i' =>
      j ← random_index (i + 1);
      shuffle_loop i' (swap i j result)
  end.

Definition shuffleArray {T} (array : list T) : Js (list T) :=
  let result := array in
  shuffle_loop (length result - 1) result.

(** ** db.ts: the due-card queries *)

(** The [WHERE] clause shared by every due query:
    [c.queue >= 0 AND ((c.queue = 2 AND c.due <= ?) OR
     (c.queue IN (1, 3) AND c.due <= ?) OR (c.queue = 0))]. *)
Definition due_where (todayDayNum nowTimestamp : Z) (c : CardRow) : bool :=
  (0 <=? c_queue c) &&
  (((c_queue c =? 2) && (c_due c <=? todayDayNum)) ||
   (((c_queue c =? 1) || (c_queue c =? 3)) && (c_due c <=? nowTimestamp)) ||
   (c_queue c =? 0)).

(** [FROM cards c JOIN notes n ON c.nid = n.id JOIN decks d ON c.did = d.id]:
    the joined tables are keyed by their [id], so each card meets at most one
    note and one deck, and a card without either yields no row.  The queries
    have no [ORDER BY]: the order of the rows here (that of the keys) is one
    of those SQLite may produce, and no property below depends on it. *)
Definition cards_join_notes_decks (d : Db) : list (Z * CardRow * NoteRow * DeckRow) :=
  omap (λ '(i, c),
          n ← notes d !! c_nid c;
          k ← decks d !! c_did c;
          Some (i, c, n, k))
       (map_to_list (cards d)).

(** The [SELECT] list. *)
Definition select_columns (r : Z * CardRow * NoteRow * DeckRow) : CardWithNote :=
  let '(i, c, n, k) := r in
  {| id := i; nid := c_nid c; did := c_did c; ord := c_ord c; type := c_type c;
     queue := c_queue c; due := c_due c; ivl := c_ivl c; factor := c_factor c;
     reps := c_reps c; lapses := c_lapses c;
     note_flds := n_flds n; note_tags := n_tags n; deck_name := d_name k |}.

(** [c.did = ?]: the bound parameter is a JavaScript number; [None] is [NaN],
    which SQLite receives as [NULL] and which equals no value. *)
Definition did_is (deckId : option Z) (c : CardRow) : bool :=
  match deckId with
  | Some v => c_did c =? v
  | None => false
  end.

(** [... WHERE c.did = ? AND <due_where>] *)
Definition select_due_in_deck (deckId : option Z) (todayDayNum nowTimestamp : Z) (d : Db)
  : list CardWithNote :=
  select_columns <$>
    filter (λ r, Is_true (did_is deckId r.1.1.2 && due_where todayDayNum nowTimestamp r.1.1.2))
           (cards_join_notes_decks d).

(** [... WHERE <due_where>] *)
Definition select_due_all (todayDayNum nowTimestamp : Z) (d : Db)
  : list CardWithNote :=
  select_columns <$>
    filter (λ r, Is_true (due_where todayDayNum nowTimestamp r.1.1.2))
           (cards_join_notes_decks d).

(** [SELECT COUNT( * ) FROM cards WHERE did = ? AND <due_where>] (no join). *)
Definition count_due_in_deck (deckId : option Z) (todayDayNum nowTimestamp : Z) (d : Db) : nat :=
  length (filter (λ r : Z * CardRow,
                    Is_true (did_is deckId r.2 && due_where todayDayNum nowTimestamp r.2))
                 (map_to_list (cards d))).

Definition getReviewQueue (includeNonUrgent : bool) : Js (list CardWithNote) :=
  d ← getDb;
  todayDayNum ← getTodayDayNumber;
  nowTimestamp ← now_seconds;
  let urgentCards := select_due_in_deck (Some URGENT_DECK_ID) todayDayNum nowTimestamp d in
  shuffledUrgent ← shuffleArray urgentCards;
  if (0 <? length shuffledUrgent)%nat && negb includeNonUrgent
  then mret shuffledUrgent
  else
    let allDueCards := select_due_all todayDayNum nowTimestamp d in
    shuffleArray allDueCards.

Definition getUrgentCount : Js nat :=
  d ← getDb;
  todayDayNum ← getTodayDayNumber;
  nowTimestamp ← now_seconds;
  mret (count_due_in_deck (Some URGENT_DECK_ID) todayDayNum nowTimestamp d).

Definition getReviewQueueByDeck (deckId : option Z) : Js (list CardWithNote) :=
  d ← getDb;
  todayDayNum ← getTodayDayNumber;
  nowTimestamp ← now_seconds;
  let cards := select_due_in_deck deckId todayDayNum nowTimestamp d in
  shuffleArray cards.

(** ** db.ts: updateCardSchedule *)

(** The [SET] lists of the four [UPDATE] statements. *)
Definition set_repeat (now : Z) (c : CardRow) : CardRow :=
  {| c_nid := c_nid c; c_did := c_did c; c_ord := c_ord c; c_factor := c_factor c;
     c_lapses := c_lapses c;
     c_due := now; c_ivl := 0; c_mod := now; c_reps := c_reps c + 1;
     c_type := 1; c_queue := 1 |}.

Definition set_review (dueDay interval now : Z) (c : CardRow) : CardRow :=
  {| c_nid := c_nid c; c_did := c_did c; c_ord := c_ord c; c_factor := c_factor c;
     c_lapses := c_lapses c;
     c_due := dueDay; c_ivl := interval; c_mod := now; c_reps := c_reps c + 1;
     c_type := 2; c_queue := 2 |}.

Definition set_complete (now : Z) (c : CardRow) : CardRow :=
  {| c_nid := c_nid c; c_did := c_did c; c_ord := c_ord c; c_factor := c_factor c;
     c_lapses := c_lapses c; c_due := c_due c; c_ivl := c_ivl c; c_type := c_type c;
     c_queue := -1; c_mod := now; c_reps := c_reps c + 1 |}.

(** [action] is typed [ReviewAction] in the source and the only caller, the
    [POST] handler, passes one of the four literals; the [switch] has no
    [default], which is the last branch here. *)
Definition updateCardSchedule (cardId : Z) (action : string) : Js () :=
  now ← now_seconds;
  todayDayNum ← getTodayDayNumber;
  if String.eqb action "repeat" then
    update_cards_where_id (set_repeat now) cardId
  else if String.eqb action "soon" then
    update_cards_where_id (set_review (todayDayNum + 1) 1 now) cardId
  else if String.eqb action "later" then
    update_cards_where_id (set_review (todayDayNum + 7) 7 now) cardId
  else if String.eqb action "complete" then
    update_cards_where_id (set_complete now) cardId
  else mret ().

(** ** db.ts: moveCardToDeck *)

(** The [SET] list of [UPDATE cards SET did = ?, mod = ? WHERE id = ?]. *)
Definition set_deck (deckId now : Z) (c : CardRow) : CardRow :=
  {| c_nid := c_nid c; c_did := deckId; c_ord := c_ord c; c_mod := now;
     c_type := c_type c; c_queue := c_queue c; c_due := c_due c; c_ivl := c_ivl c;
     c_factor := c_factor c; c_reps := c_reps c; c_lapses := c_lapses c |}.

(** Neither the card id nor the deck id is looked up before the update. *)
Definition moveCardToDeck (cardId deckId : Z) : Js () :=
  now ← now_seconds;
  update_cards_where_id (set_deck deckId now) cardId.

(** ** db.ts: getDecksWithDueCounts *)

(** [getDecksWithDueCounts]: the aggregate deck listing.  Its rows are not
    part of the review-queue engine; only its two clock reads are kept. *)
Definition getDecksWithDueCounts : Js () :=
  todayDayNum ← getTodayDayNumber;
  nowTimestamp ← now_seconds;
  mret ().

(** ** The /api/review route *)

(** [parseInt(s, 10)]: leading white space, an optional sign, then the
    longest run of decimal digits; [None] is [NaN].  The white space skipped
    is the ASCII one (JavaScript also skips U+00A0 and other Unicode spaces)
    and the value is exact (JavaScript rounds it to a double from 2^53 on):
    the function is the one of the source on ASCII strings that denote
    numbers below 2^53, as ids are. *)
Definition is_space (a : ascii) : bool :=
  bool_decide (nat_of_ascii a ∈ [9; 10; 11; 12; 13; 32]%nat).

Fixpoint skip_spaces (s : string) : string :=
  match s with
  | String a s' => if is_space a then skip_spaces s' else s
  | EmptyString => s
  end.

Definition digit (a : ascii) : option Z :=
  let n := nat_of_ascii a in
  if ((48 <=? n) && (n <=? 57))%nat then Some (Z.of_nat n - 48) else None.

Fixpoint digits (acc : option Z) (s : string) : option Z :=
  match s with
  | String a s' =>
      match digit a with
      | Some v => digits (Some (10 * default 0 acc + v)) s'
      | None => acc
      end
  | EmptyString => acc
  end.

Definition parseInt (s : string) : option Z :=
  match skip_spaces s with
  | String "-"%char s' => Z.opp <$> digits None s'
  | String "+"%char s' => digits None s'
  | s' => digits None s'
  end.

(** The search parameters the handler reads; [None] is [null]. *)
Record ReviewQuery := mkReviewQuery {
  q_all : option string;
  q_deckId : option string;
  q_listDecks : option string
}.

(** The request body after [request.json()], with the field types of the
    handler's cast ([cardId] a number, [action] a string); [None] is a
    missing field. *)
Record ReviewBody := mkReviewBody {
  b_cardId : option Z;
  b_action : option string
}.

Inductive Response : Type :=
  | DecksJson (urgentDeckId : Z)
  | QueueJson (cards : list CardWithNote) (urgentCount : nat)
              (isBlocking : bool) (urgentDeckId : Z)
  | SuccessJson (remainingCards : nat) (urgentCount : nat) (isBlocking : bool)
  | ErrorJson (error : string) (status : Z).

(** [searchParams.get(k) === 'true'] *)
Definition is_true_param (p : option string) : bool :=
  match p with
  | Some s => String.eqb s "true"
  | None => false
  end.

Definition GET (q : ReviewQuery) : Js Response :=
  try_catch
    (let includeAll := is_true_param (q_all q) in
     let deckId := q_deckId q in
     let listDecks := is_true_param (q_listDecks q) in
     if listDecks then
       _ ← getDecksWithDueCounts;
       mret (DecksJson URGENT_DECK_ID)
     else
       match deckId with
       | Some (String a s as deckId) =>
           cards ← getReviewQueueByDeck (parseInt deckId);
           urgentCount ← getUrgentCount;
           mret (QueueJson cards urgentCount false URGENT_DECK_ID)
       | _ =>
           cards ← getReviewQueue (negb includeAll);
           urgentCount ← getUrgentCount;
           let isBlocking := (0 <? urgentCount)%nat in
           mret (QueueJson cards urgentCount isBlocking URGENT_DECK_ID)
       end)
    (λ error, mret (ErrorJson "Failed to fetch review queue" 500)).

Definition ReviewActions : list string := ["repeat"; "soon"; "later"; "complete"].

(** [body] is what [await request.json()] yields; [None] when it rejects. *)
Definition POST (body : option ReviewBody) : Js Response :=
  try_catch
    (body ← from_option mret (throw "SyntaxError") body;
     match b_cardId body, b_action body with
     | Some cardId, Some action =>
         if (cardId =? 0) || String.eqb action "" then
           mret (ErrorJson "Missing cardId or action" 400)
         else if negb (bool_decide (action ∈ ReviewActions)) then
           mret (ErrorJson "Invalid action" 400)
         else
           _ ← updateCardSchedule cardId action;
           cards ← getReviewQueue false;
           urgentCount ← getUrgentCount;
           mret (SuccessJson (length cards) urgentCount (0 <? urgentCount)%nat)
     | _, _ => mret (ErrorJson "Missing cardId or action" 400)
     end)
    (λ error, mret (ErrorJson "Failed to update card schedule" 500)).

(** ** shuffleArray on array objects

    The same function with the arrays as objects in a store, to tell the
    caller's array from the copy that is permuted.  An array value is a
    reference; [[...array]] allocates a new object with the same elements,
    and every write of the loop goes to that object. *)
Module Store.
Section Arrays.
Context {T : Type}.

Definition ref := nat.

Definition read (array : ref) (h : gmap ref (list T)) : option (list T) := h !! array.

(** A new array object holding [xs]. *)
Definition alloc (xs : list T) (h : gmap ref (list T)) : ref * gmap ref (list T) :=
  let r := fresh (dom h) in (r, <[r := xs]> h).

(** [[result[i], result[j]] = [result[j], result[i]]] on the object [result]. *)
Definition swap_in_place (result : ref) (i j : nat) (h : gmap ref (list T))
  : gmap ref (list T) :=
  alter (swap i j) result h.

Fixpoint shuffle_loop_ref (i : nat) (result : ref) (h : gmap ref (list T))
  : Js (gmap ref (list T)) :=
  match i with
  | O => mret h
  | S i' =>
      j ← random_index (i + 1);
      shuffle_loop_ref i' result (swap_in_place result i j h)
  end.

(** [None] only for a reference to no object, which JavaScript rules out. *)
Definition shuffleArray_ref (array : ref) (h : gmap ref (list T))
  : Js (option (ref * gmap ref (list T))) :=
  match read array h with
  | None => mret None
  | Some xs =>
      let '(result, h1) := alloc xs h in
      h2 ← shuffle_loop_ref (length xs - 1) result h1;
      mret (Some (result, h2))
  end.
End Arrays.
End Store.

(** ** Definitions used to state the properties *)

(** The first two statements of every due query: [todayDayNum] from
    [getTodayDayNumber()], then [nowTimestamp] from a further [Date.now()]. *)
Definition due_clock : Js (Z * Z) :=
  todayDayNum ← getTodayDayNumber;
  nowTimestamp ← now_seconds;
  mret (todayDayNum, nowTimestamp).

Definition clock_advanced (n : nat) (w : World) : World :=
  mkWorld (db w) (clock w) (n + clock_reads w) (entropy w) (random_draws w).

(** The creation time [getCollectionCreation] yields, and how many clock
    reads it costs. *)
Definition stored_crt (d : Db) : option Z :=
  match col d with
  | Some crt => if crt =? 0 then None else Some crt
  | None => None
  end.

(** The first two statements of [updateCardSchedule]: [now], then
    [todayDayNum]. *)
Definition schedule_clock : Js (Z * Z) :=
  now ← now_seconds;
  todayDayNum ← getTodayDayNumber;
  mret (now, todayDayNum).

(** The table the schedule is written to, after an [UPDATE] of [cardId]. *)
Definition with_cards (cs : gmap Z CardRow) (w : World) : World :=
  mkWorld (mkDb cs (notes (db w)) (decks (db w)) (col (db w)))
          (clock w) (clock_reads w) (entropy w) (random_draws w).

(** What [updateCardSchedule] writes for [action], if anything. *)
Definition set_for (action : string) (now todayDayNum : Z) : option (CardRow → CardRow) :=
  if String.eqb action "repeat" then Some (set_repeat now)
  else if String.eqb action "soon" then Some (set_review (todayDayNum + 1) 1 now)
  else if String.eqb action "later" then Some (set_review (todayDayNum + 7) 7 now)
  else if String.eqb action "complete" then Some (set_complete now)
  else None.

(** The eligibility rule in the specification's words. *)
Definition eligible (dayNumber now : Z) (r : CardWithNote) : Prop :=
  queue r ≠ -1 ∧
  ((queue r = 2 ∧ due r ≤ dayNumber) ∨
   ((queue r = 1 ∨ queue r = 3) ∧ due r ≤ now) ∨
   queue r = 0).

(** The same rule on a stored item: [queueStatus] is the column [queue],
    [dueValue] the column [due]. *)
Definition item_eligible (dayNumber now : Z) (c : CardRow) : Prop :=
  c_queue c ≠ -1 ∧
  ((c_queue c = 2 ∧ c_due c ≤ dayNumber) ∨
   ((c_queue c = 1 ∨ c_queue c = 3) ∧ c_due c ≤ now) ∨
   c_queue c = 0).

(** The stored item has the note row and the deck row it refers to. *)
Definition has_note_and_deck (d : Db) (c : CardRow) : Prop :=
  is_Some (notes d !! c_nid c) ∧ is_Some (decks d !! c_did c).

(** [r] is the row of the stored item [c]: the columns of [c] with those of
    its note and of its deck. *)
Definition row_of_item (d : Db) (r : CardWithNote) (c : CardRow) : Prop :=
  cards d !! id r = Some c
  ∧ ∃ n k, notes d !! c_nid c = Some n ∧ decks d !! c_did c = Some k
           ∧ r = select_columns (id r, c, n, k).

(** The eligible set at [dayNumber] and [now]: the rows of the stored items
    that have their note and deck rows and satisfy the eligibility rule.
    The blocking set is the part of it in the urgent deck. *)
Definition in_eligible_set (d : Db) (dayNumber now : Z) (r : CardWithNote) : Prop :=
  ∃ c, row_of_item d r c ∧ item_eligible dayNumber now c.

Definition in_blocking_set (d : Db) (dayNumber now : Z) (r : CardWithNote) : Prop :=
  in_eligible_set d dayNumber now r ∧ did r = URGENT_DECK_ID.

(** A call signals a failure to its caller when it throws. *)
Definition signals_failure {A} (r : Completion A * World) : Prop :=
  ∃ e, r.1 = Throw e.

(** The [cards] field of a response, when it has one. *)
Definition response_cards (resp : Response) : option (list CardWithNote) :=
  match resp with
  | QueueJson cards _ _ _ => Some cards
  | _ => None
  end.

(** ** Example worlds *)

Definition example_card (deck q d : Z) : CardRow :=
  {| c_nid := 10; c_did := deck; c_ord := 0; c_mod := 0; c_type := Z.max 0 q; c_queue := q;
     c_due := d; c_ivl := 3; c_factor := 2500; c_reps := 3; c_lapses := 0 |}.

(** A collection created at second 1000, with an urgent deck and deck 5. *)
Definition example_db : Db :=
  {| cards := list_to_map
       [(1, example_card 5 2 100); (2, example_card URGENT_DECK_ID 1 50);
        (3, example_card 5 0 0); (4, example_card 5 (-1) 0);
        (5, example_card URGENT_DECK_ID 2 101); (6, example_card 5 3 8641001);
        (7, example_card 5 2 101)];
     notes := {[ 10 := mkNoteRow "front" "tag" ]};
     decks := {[ 5 := mkDeckRow "Tasks"; URGENT_DECK_ID := mkDeckRow "Urgent" ]};
     col := Some 1000 |}.

(** Day 100 of that collection; the clock gains a millisecond per reading. *)
Definition example_world : World :=
  {| db := example_db;
     clock := λ k, (1000 + 86400 * 100) * 1000 + 5 + Z.of_nat k;
     clock_reads := 0;
     entropy := λ k, ((Z.of_nat k * 7 + 3) # 10)%Q;
     random_draws := 0 |}.

(** A collection created at second 1000 whose clock passes the first
    midnight (second 87400) between two consecutive readings.  Card 1 is a
    review card due on day 1, card 2 a learning card due at second 87400. *)
Definition midnight_world : World :=
  {| db := {| cards := list_to_map [(1, example_card 5 2 1); (2, example_card 5 1 87400)];
              notes := {[ 10 := mkNoteRow "front" "tag" ]};
              decks := {[ 5 := mkDeckRow "Tasks" ]};
              col := Some 1000 |};
     clock := λ k, match k with O => 87399999 | _ => 87400000 end;
     clock_reads := 0;
     entropy := λ _, 0%Q;
     random_draws := 0 |}.

(** A collection whose only deck row is deck 5, with three new cards in
    that deck. *)
Definition single_deck_world : World :=
  {| db := {| cards := list_to_map [(1, example_card 5 0 0); (2, example_card 5 0 0);
                                    (3, example_card 5 0 0)];
              notes := {[ 10 := mkNoteRow "front" "tag" ]};
              decks := {[ 5 := mkDeckRow "Tasks" ]};
              col := Some 1000 |};
     clock := clock example_world;
     clock_reads := 0;
     entropy := entropy example_world;
     random_draws := 0 |}.

(** The same collection after card 1 was moved to deck 6 and card 3 to the
    urgent deck, at second 8641000: neither deck has a row.  All three cards
    are new. *)
Definition dangling_world : World :=
  {| db := {| cards := list_to_map [(1, set_deck 6 8641000 (example_card 5 0 0));
                                    (2, example_card 5 0 0);
                                    (3, set_deck URGENT_DECK_ID 8641000 (example_card 5 0 0))];
              notes := {[ 10 := mkNoteRow "front" "tag" ]};
              decks := {[ 5 := mkDeckRow "Tasks" ]};
              col := Some 1000 |};
     clock := clock example_world;
     clock_reads := 0;
     entropy := entropy example_world;
     random_draws := 0 |}.

(** The row of card 2 of these collections, the only card of theirs that
    has a deck row. *)
Definition row_of_card_2 : CardWithNote :=
  select_columns (2, example_card 5 0 0, mkNoteRow "front" "tag", mkDeckRow "Tasks").

(** ** db.ts: guid, sort field and checksum of a new note

    Strings: a [string] holds a JavaScript string of ASCII characters, one
    character per UTF-16 code unit; [charCodeAt] is [nat_of_ascii].  The
    checksum is defined on code units as integers, so that it covers every
    JavaScript string. *)

(** The characters of a string, as a list. *)
Abbreviation chars := String.list_ascii_of_string (only parsing).

(** [ToInt32]: the value modulo 2^32, read as a signed 32-bit integer. *)
Definition ToInt32 (x : Z) : Z :=
  let m := x mod 2 ^ 32 in
  if m <? 2 ^ 31 then m else m - 2 ^ 32.

(** [x << n] for [0 <= n < 32]. *)
Definition shift_left32 (x n : Z) : Z := ToInt32 (Z.shiftl (ToInt32 x) n).

(** [x & y] *)
Definition bit_and32 (x y : Z) : Z := Z.land (ToInt32 x) (ToInt32 y).

(** The body of the loop of [checksumFirstField]:
    [hash = ((hash << 5) - hash) + char; hash = hash & hash]. *)
Definition checksum_step (hash char : Z) : Z :=
  let hash := (shift_left32 hash 5 - hash) + char in
  bit_and32 hash hash.

(** [checksumFirstField] on the code units of [field]. *)
Definition checksum_units (units : list Z) : Z :=
  Z.abs (fold_left checksum_step units 0).

Definition charCodes (s : string) : list Z :=
  (λ a, Z.of_nat (nat_of_ascii a)) <$> chars s.

Definition checksumFirstField (field : string) : Z :=
  checksum_units (charCodes field).

(** [s.charAt(k)]: the character at [k], the empty string out of range. *)
Definition charAt (s : string) (k : nat) : string :=
  match String.get k s with
  | Some c => String c EmptyString
  | None => EmptyString
  end.

Definition guid_chars : string :=
  "abcdefghijklmnopqrstuvwxyzABCDEFGHIJKLMNOPQRSTUVWXYZ0123456789".

(** [for (let i = 0; i < 10; i++) result += chars.charAt(...)], counted down
    by the number of iterations left. *)
Fixpoint generateGuid_loop (left : nat) (result : string) : Js string :=
  match left with
  | O => mret result
  | S left' =>
      k ← random_index (String.length guid_chars);
      generateGuid_loop left' (result +:+ charAt guid_chars k)
  end.

Definition generateGuid : Js string := generateGuid_loop 10 "".

(** [s.replace(re, rep)] for a global regular expression that never matches
    the empty string: [matcher s] is the length of the match of [re] that
    starts at the head of [s], if there is one.  The scan tries every
    position from the left; a match is replaced by [rep] and the scan
    resumes behind it ([skip] counts the characters of the match still to
    be passed). *)
Fixpoint replace_scan (matcher : string → option nat) (rep : string)
    (skip : nat) (s : string) : string :=
  match s with
  | EmptyString => EmptyString
  | String c s' =>
      match skip with
      | S skip' => replace_scan matcher rep skip' s'
      | O =>
          match matcher s with
          | Some n => rep +:+ replace_scan matcher rep (n - 1) s'
          | None => String c (replace_scan matcher rep 0 s')
          end
      end
  end.

Definition replace_global (matcher : string → option nat) (rep : string) (s : string)
  : string :=
  replace_scan matcher rep 0 s.

(** Position of the first [c] in [s]. *)
Fixpoint index_of (c : ascii) (s : string) : option nat :=
  match s with
  | EmptyString => None
  | String a s' => if Ascii.eqb a c then Some O else S <$> index_of c s'
  end.

(** [/<[^>]*>/]: a ["<"], then everything up to the first [">"] behind it;
    no match when no [">"] follows. *)
Definition match_tag (s : string) : option nat :=
  match s with
  | String "<"%char s' => (λ k, S (S k)) <$> index_of ">"%char s'
  | _ => None
  end.

(** [s.split(sep)] for a one-character separator. *)
Fixpoint split (sep : ascii) (s : string) : list string :=
  match s with
  | EmptyString => [EmptyString]
  | String c s' =>
      if Ascii.eqb c sep then EmptyString :: split sep s'
      else match split sep s' with
           | field :: fields => String c field :: fields
           | [] => [String c EmptyString]
           end
  end.

(** The field separator of [notes.flds], [\x1f]. *)
Definition unit_separator : ascii := ascii_of_nat 31.

(** [s.substring(0, n)] *)
Definition substring0 (n : nat) (s : string) : string := String.substring 0 n s.

(** [flds.split('\x1f')[0].replace(/<[^>]*>/g, '').substring(0, 60)] *)
Definition sort_field (flds : string) : string :=
  substring0 60 (replace_global match_tag "" (default EmptyString (head (split unit_separator flds)))).

(** No complete tag: no ["<"] with a [">"] anywhere behind it. *)
Definition tag_free (l : list ascii) : Prop :=
  ∀ a b, l = a ++ "<"%char :: b → ">"%char ∉ b.

(** ** db.ts: creating, deleting, moving and listing cards *)

(** The table model keeps [flds] and [tags] of a note; these are all the
    values of the [INSERT INTO notes] of [createNote]. *)
Record NoteValues := mkNoteValues {
  v_id : Z;
  v_guid : string;
  v_mid : Z;
  v_mod : Z;
  v_tags : string;
  v_flds : string;
  v_sfld : string;
  v_csum : Z
}.

Definition with_notes (ns : gmap Z NoteRow) (w : World) : World :=
  mkWorld (mkDb (cards (db w)) ns (decks (db w)) (col (db w)))
          (clock w) (clock_reads w) (entropy w) (random_draws w).

(** [INSERT INTO notes (id, ...) VALUES (?, ...)]: an [id] that is already a
    key violates the primary key, and better-sqlite3 throws. *)
Definition insert_note (v : NoteValues) : Js () := λ w,
  match notes (db w) !! v_id v with
  | Some _ => (Throw "UNIQUE constraint failed: notes.id", w)
  | None =>
      (Normal (), with_notes (<[v_id v := mkNoteRow (v_flds v) (v_tags v)]> (notes (db w))) w)
  end.

(** [INSERT INTO cards (id, ...) VALUES (?, ...)] *)
Definition insert_card (i : Z) (c : CardRow) : Js () := λ w,
  match cards (db w) !! i with
  | Some _ => (Throw "UNIQUE constraint failed: cards.id", w)
  | None => (Normal (), with_cards (<[i := c]> (cards (db w))) w)
  end.

(** The statements of [createNote] before its [INSERT]. *)
Definition createNote_values (mid : Z) (flds tags : string) : Js NoteValues :=
  now ← now_seconds;
  guid ← generateGuid;
  let sfld := sort_field flds in
  let csum := checksumFirstField sfld in
  mret {| v_id := now * 1000; v_guid := guid; v_mid := mid; v_mod := now;
          v_tags := tags; v_flds := flds; v_sfld := sfld; v_csum := csum |}.

(** Returns [Number(result.lastInsertRowid)], the [id] just inserted. *)
Definition createNote (mid : Z) (flds tags : string) : Js Z :=
  v ← createNote_values mid flds tags;
  _ ← insert_note v;
  mret (v_id v).

Definition createCard (noteId deckId : Z) : Js Z :=
  now ← now_seconds;
  _ ← insert_card (now * 1000)
        {| c_nid := noteId; c_did := deckId; c_ord := 0; c_mod := now; c_type := 0;
           c_queue := 0; c_due := 0; c_ivl := 0; c_factor := 0; c_reps := 0;
           c_lapses := 0 |};
  mret (now * 1000).

(** [SELECT COUNT( * ) FROM cards WHERE nid = ?] *)
Definition count_cards_of_note (noteId : Z) (cs : gmap Z CardRow) : nat :=
  length (filter (λ r : Z * CardRow, c_nid r.2 = noteId) (map_to_list cs)).

(** [DELETE FROM cards WHERE id = ?] and [DELETE FROM notes WHERE id = ?] *)
Definition delete_cards_where_id (i : Z) : Js () := λ w,
  (Normal (), with_cards (delete i (cards (db w))) w).

Definition delete_notes_where_id (i : Z) : Js () := λ w,
  (Normal (), with_notes (delete i (notes (db w))) w).

(** [cardId] is a JavaScript number; [None] is [NaN], which selects no row. *)
Definition deleteCard (cardId : option Z) : Js () :=
  d ← getDb;
  match cardId ≫= (λ i, (λ c, (i, c_nid c)) <$> cards d !! i) with
  | Some (i, card_nid) =>
      _ ← delete_cards_where_id i;
      d' ← getDb;
      let otherCards := count_cards_of_note card_nid (cards d') in
      if bool_decide (otherCards = 0%nat)
      then delete_notes_where_id card_nid
      else mret ()
  | None => mret ()
  end.

(** [ORDER BY c.id] *)
Definition id_le (r1 r2 : CardWithNote) : Prop := id r1 ≤ id r2.

#[global] Instance id_le_dec : RelDecision id_le := λ r1 r2, Z_le_dec (id r1) (id r2).

Definition order_by_id (rows : list CardWithNote) : list CardWithNote :=
  merge_sort id_le rows.

Definition getAllCards : Js (list CardWithNote) :=
  d ← getDb;
  mret (order_by_id (select_columns <$> cards_join_notes_decks d)).

Definition getCardsByDeck (deckId : option Z) : Js (list CardWithNote) :=
  d ← getDb;
  mret (order_by_id
          (select_columns <$>
             filter (λ r, Is_true (did_is deckId r.1.1.2)) (cards_join_notes_decks d))).

(** ASCII lower case, as SQLite's [LIKE] and [LOWER()] fold it. *)
Definition lower (a : ascii) : ascii :=
  let n := nat_of_ascii a in
  if ((65 <=? n) && (n <=? 90))%nat then ascii_of_nat (n + 32) else a.

(** [text LIKE pattern]: [%] stands for any run of characters, [_] for any
    one character, every other character for itself without regard to
    ASCII case. *)
Fixpoint like (pattern : string) : string → bool :=
  match pattern with
  | EmptyString => λ text, match text with EmptyString => true | _ => false end
  | String "%"%char pattern' =>
      fix any_run (text : string) : bool :=
        like pattern' text ||
        match text with
        | EmptyString => false
        | String _ text' => any_run text'
        end
  | String "_"%char pattern' =>
      λ text, match text with
              | EmptyString => false
              | String _ text' => like pattern' text'
              end
  | String c pattern' =>
      λ text, match text with
              | EmptyString => false
              | String d text' => Ascii.eqb (lower c) (lower d) && like pattern' text'
              end
  end.

Definition searchCards (query : string) : Js (list CardWithNote) :=
  d ← getDb;
  let searchTerm := "%" +:+ query +:+ "%" in
  mret (order_by_id
          (select_columns <$>
             filter (λ r, Is_true (like searchTerm (n_flds r.1.2) ||
                                   like searchTerm (n_tags r.1.2) ||
                                   like searchTerm (d_name r.2)))
                    (cards_join_notes_decks d))).

(** [SELECT * FROM notes WHERE id = ?], with the columns the table model
    keeps; [None] is [undefined]. *)
Definition getNote (noteId : option Z) : Js (option NoteRow) :=
  d ← getDb;
  mret (noteId ≫= (λ i, notes d !! i)).

(** [UPDATE notes SET flds = ?, tags = ?, mod = ? WHERE id = ?] ([mod] is not
    kept by the table model; the clock is read for it all the same). *)
Definition update_notes_where_id (set : NoteRow → NoteRow) (noteId : Z) : Js () := λ w,
  (Normal (), with_notes (alter set noteId (notes (db w))) w).

Definition updateNote (noteId : Z) (flds tags : string) : Js () :=
  now ← now_seconds;
  update_notes_where_id (λ _, mkNoteRow flds tags) noteId.

(** ** The /api/cards and /api/notes routes *)

(** [parseInt(s)] without a radix: as [parseInt(s, 10)], except that after
    the sign a prefix [0x] or [0X] selects radix 16.  The result is exact
    below [2 ^ 53]. *)
Definition hex_digit (a : ascii) : option Z :=
  let n := nat_of_ascii a in
  if ((48 <=? n) && (n <=? 57))%nat then Some (Z.of_nat n - 48)
  else if ((97 <=? n) && (n <=? 102))%nat then Some (Z.of_nat n - 87)
  else if ((65 <=? n) && (n <=? 70))%nat then Some (Z.of_nat n - 55)
  else None.

Fixpoint hex_digits (acc : option Z) (s : string) : option Z :=
  match s with
  | String a s' =>
      match hex_digit a with
      | Some v => hex_digits (Some (16 * default 0 acc + v)) s'
      | None => acc
      end
  | EmptyString => acc
  end.

Definition digits_any_radix (s : string) : option Z :=
  match s with
  | String a (String b s') =>
      if Ascii.eqb a "0" && (Ascii.eqb b "x" || Ascii.eqb b "X")
      then hex_digits None s'
      else digits None s
  | _ => digits None s
  end.

Definition parseInt_no_radix (s : string) : option Z :=
  match skip_spaces s with
  | String "-"%char s' => Z.opp <$> digits_any_radix s'
  | String "+"%char s' => digits_any_radix s'
  | s' => digits_any_radix s'
  end.

Module CardsRoute.

Inductive Response : Type :=
  | CardsJson (cards : list CardWithNote)
  | CreatedJson (cardId noteId : Z)
  | SuccessJson
  | ErrorJson (error : string) (status : Z).

(** [deckId] and [query] are [searchParams.get('deckId')] and
    [searchParams.get('q')]; [None] is [null], and the empty string is falsy
    like [null]. *)
Definition GET (deckId query : option string) : Js Response :=
  try_catch
    (cards ← match query with
             | Some (String _ _ as query) => searchCards query
             | _ =>
                 match deckId with
                 | Some (String _ _ as deckId) => getCardsByDeck (parseInt_no_radix deckId)
                 | _ => getAllCards
                 end
             end;
     mret (CardsJson cards))
    (λ error, mret (ErrorJson "Failed to fetch cards" 500)).

(** The body of a creation request with the field types the handler passes
    on ([deckId] a number, the others strings); [b_tags] is [None] when the
    field is missing, and then defaults to the empty string. *)
Record CardBody := mkCardBody {
  b_deckId : Z;
  b_front : string;
  b_back : string;
  b_tags : option string
}.

(** [noteTypes] is the list of ids that [getNoteTypes()] reads from the
    table [notetypes], which no function of the program writes. *)
Definition POST (noteTypes : list Z) (body : option CardBody) : Js Response :=
  try_catch
    (body ← from_option mret (throw "SyntaxError") body;
     match noteTypes with
     | [] => mret (ErrorJson "No note types found" 400)
     | mid :: _ =>
         let flds := b_front body +:+ String unit_separator (b_back body) in
         noteId ← createNote mid flds (default "" (b_tags body));
         cardId ← createCard noteId (b_deckId body);
         mret (CreatedJson cardId noteId)
     end)
    (λ error, mret (ErrorJson "Failed to create card" 500)).

Definition DELETE (id : option string) : Js Response :=
  try_catch
    (match id with
     | Some (String _ _ as cardId) =>
         _ ← deleteCard (parseInt_no_radix cardId);
         mret SuccessJson
     | _ => mret (ErrorJson "Card ID required" 400)
     end)
    (λ error, mret (ErrorJson "Failed to delete card" 500)).

(** The body of a move request, both fields numbers; [None] is a missing
    field, and [0] is falsy like a missing field. *)
Record MoveBody := mkMoveBody {
  m_cardId : option Z;
  m_deckId : option Z
}.

Definition PATCH (body : option MoveBody) : Js Response :=
  try_catch
    (body ← from_option mret (throw "SyntaxError") body;
     match m_cardId body, m_deckId body with
     | Some cardId, Some deckId =>
         if (cardId =? 0) || (deckId =? 0) then
           mret (ErrorJson "Card ID and Deck ID required" 400)
         else
           _ ← moveCardToDeck cardId deckId;
           mret SuccessJson
     | _, _ => mret (ErrorJson "Card ID and Deck ID required" 400)
     end)
    (λ error, mret (ErrorJson "Failed to move card" 500)).

End CardsRoute.

Module NotesRoute.

Inductive Response : Type :=
  | NoteJson (note : NoteRow)
  | SuccessJson
  | ErrorJson (error : string) (status : Z).

Definition GET (id : option string) : Js Response :=
  try_catch
    (match id with
     | Some (String _ _ as noteId) =>
         note ← getNote (parseInt_no_radix noteId);
         match note with
         | Some note => mret (NoteJson note)
         | None => mret (ErrorJson "Note not found" 404)
         end
     | _ => mret (ErrorJson "Note ID required" 400)
     end)
    (λ error, mret (ErrorJson "Failed to fetch note" 500)).

(** The body of an update request: [noteId] a number, [flds] and [tags]
    strings; [None] is a missing field. *)
Record NoteBody := mkNoteBody {
  b_noteId : option Z;
  b_flds : option string;
  b_tags : option string
}.

Definition PUT (body : option NoteBody) : Js Response :=
  try_catch
    (body ← from_option mret (throw "SyntaxError") body;
     match b_noteId body, b_flds body with
     | Some noteId, Some flds =>
         if noteId =? 0 then
           mret (ErrorJson "Note ID and fields required" 400)
         else
           let tags := match b_tags body with
                       | Some (String _ _ as tags) => tags
                       | _ => EmptyString
                       end in
           _ ← updateNote noteId flds tags;
           mret SuccessJson
     | _, _ => mret (ErrorJson "Note ID and fields required" 400)
     end)
    (λ error, mret (ErrorJson "Failed to update note" 500)).

End NotesRoute.

(** ** The card browser: fields of a note in the edit form *)

Definition parseFields (flds : string) : list string := split unit_separator flds.

Definition stripHtml (html : string) : string := replace_global match_tag "" html.

(** [handleCardSelect]: the values [fields[0] || ''] and [fields[1] || '']
    that the edit form is given for a card. *)
Definition handleCardSelect_fields (note_flds : string) : string * string :=
  let fields := parseFields note_flds in
  (default EmptyString (fields !! 0%nat), default EmptyString (fields !! 1%nat)).

(** [handleSaveEdit]: the field list sent to [PUT /api/notes]. *)
Definition handleSaveEdit_flds (editFront editBack : string) : string :=
  editFront +:+ String unit_separator editBack.

(** ** Definitions used to state the properties of the listings *)




(** [fields.join(sep)] *)
Fixpoint join (sep : ascii) (fields : list string) : string :=
  match fields with
  | [] => EmptyString
  | [field] => field
  | field :: fields' => field +:+ String sep (join sep fields')
  end.

(** The strings and numbers on which [parseInt_no_radix] is the [parseInt]
    of JavaScript: ASCII characters only, and a value below 2^53. *)
Definition ascii_string (s : string) : Prop :=
  Forall (λ a, (nat_of_ascii a < 128)%nat) (chars s).

Definition safe_integer (n : option Z) : Prop :=
  ∀ i, n = Some i → - 2 ^ 53 < i < 2 ^ 53.

(** The world after a first creation request served across a change of
    second: the note was created in second 87399, the card in second
    87400. *)
Definition after_first_creation : World :=
  (CardsRoute.POST [1] (Some (CardsRoute.mkCardBody 5 "f" "b" None)) midnight_world).2.


(** ** embeddings.ts: cleanTextForEmbedding *)

(** [s.startsWith(lit)] *)
Fixpoint starts_with (lit s : string) : bool :=
  match lit, s with
  | EmptyString, _ => true
  | String a lit', String b s' => Ascii.eqb a b && starts_with lit' s'
  | String _ _, EmptyString => false
  end.

(** [s] without its first [n] characters. *)
Fixpoint string_drop (n : nat) (s : string) : string :=
  match n, s with
  | O, _ => s
  | S n', String _ s' => string_drop n' s'
  | S _, EmptyString => EmptyString
  end.

(** The number of leading characters of [s] that satisfy [p]. *)
Fixpoint run_length (p : ascii → bool) (s : string) : nat :=
  match s with
  | String a s' => if p a then S (run_length p s') else O
  | EmptyString => O
  end.

(** [\d] *)
Definition is_digit (a : ascii) : bool :=
  let n := nat_of_ascii a in ((48 <=? n) && (n <=? 57))%nat.

(** A pattern that is the literal [lit]. *)
Definition match_literal (lit s : string) : option nat :=
  if starts_with lit s then Some (String.length lit) else None.

(** [/\{\{c\d+::/]: the digits are taken greedily, and the two colons must
    follow the last of them. *)
Definition match_cloze (s : string) : option nat :=
  if starts_with "{{c" s then
    let k := run_length is_digit (string_drop 3 s) in
    if (0 <? k)%nat && starts_with "::" (string_drop (3 + k) s)
    then Some (3 + k + 2)%nat
    else None
  else None.

(** [/\s+/], on strings of ASCII characters: the longest run of white space. *)
Definition match_spaces (s : string) : option nat :=
  let k := run_length is_space s in
  if (0 <? k)%nat then Some k else None.

(** [s.trim()], on strings of ASCII characters: [skip_spaces] at the start,
    [trim_end] at the end. *)
Fixpoint trim_end (s : string) : string :=
  match s with
  | EmptyString => EmptyString
  | String a s' =>
      match trim_end s' with
      | EmptyString => if is_space a then EmptyString else String a EmptyString
      | t => String a t
      end
  end.

Definition trim (s : string) : string := trim_end (skip_spaces s).

Definition cleanTextForEmbedding (html : string) : string :=
  trim
    (replace_global match_spaces " "
    (replace_global (match_literal "&gt;") ">"
    (replace_global (match_literal "&lt;") "<"
    (replace_global (match_literal "&amp;") "&"
    (replace_global (match_literal "&nbsp;") " "
    (replace_global (match_literal "}}") ""
    (replace_global match_cloze ""
    (replace_global match_tag " " html)))))))).

(** White space in [l] is the space character, never twice in a row. *)
Definition single_spaced (l : list ascii) : Prop :=
  (∀ a, a ∈ l → is_space a = true → a = " "%char)
  ∧ (∀ l1 x y l2, l = l1 ++ x :: y :: l2 → is_space x = true → is_space y = false).

(** * Properties *)

(** ** The random source *)

Lemma unit_interval_range (q : Q) : (0 <= unit_interval q)%Q ∧ (unit_interval q < 1)%Q.
Proof.
  unfold unit_interval. split.
  - apply (Qplus_le_r _ _ (inject_Z (Qfloor q))). ring_simplify.
    apply Qfloor_le.
  - apply (Qplus_lt_r _ _ (inject_Z (Qfloor q))). ring_simplify.
    change 1%Q with (inject_Z 1). rewrite <- inject_Z_plus.
    apply Qlt_floor.
Qed.

Lemma floor_scaled_range (x : Q) (n : nat) :
  (0 <= x)%Q → (x < 1)%Q → (0 < n)%nat →
  0 ≤ Qfloor (x * inject_Z (Z.of_nat n)) < Z.of_nat n.
Proof.
  intros H0 H1 Hn.
  assert (Hpos : (0 < inject_Z (Z.of_nat n))%Q).
  { rewrite <- (Zlt_Qlt 0). lia. }
  split.
  - change 0 with (Qfloor 0). apply Qfloor_resp_le.
    apply Qmult_le_0_compat; [done | by apply Qlt_le_weak].
  - rewrite Zlt_Qlt.
    eapply Qle_lt_trans; [apply Qfloor_le |].
    rewrite <- (Qmult_1_l (inject_Z (Z.of_nat n))) at 2.
    by apply Qmult_lt_compat_r.
Qed.

Lemma Math_random_spec (w : World) :
  ∃ x, Math_random w =
         (Normal x, mkWorld (db w) (clock w) (clock_reads w) (entropy w) (S (random_draws w)))
       ∧ (0 <= x)%Q ∧ (x < 1)%Q.
Proof.
  eexists. split; [reflexivity |]. apply unit_interval_range.
Qed.

(** The index drawn for position [i] lies in [0 .. i]. *)
Lemma random_index_lt (n : nat) (w : World) :
  (0 < n)%nat →
  ∃ j, random_index n w =
         (Normal j, mkWorld (db w) (clock w) (clock_reads w) (entropy w) (S (random_draws w)))
       ∧ (j < n)%nat.
Proof.
  intros Hn. eexists. split; [reflexivity |].
  destruct (unit_interval_range (entropy w (random_draws w))) as [H0 H1].
  pose proof (floor_scaled_range _ n H0 H1 Hn). lia.
Qed.

(** Every index below [n] can be drawn: the entropy [j / n] yields [j]. *)
Lemma random_index_any (n j : nat) (w : World) :
  (j < n)%nat →
  entropy w (random_draws w) = (Z.of_nat j # Pos.of_nat n)%Q →
  (random_index n w).1 = Normal j.
Proof.
  intros Hj He. unfold random_index, mbind, Js_bind, Math_random.
  rewrite He. unfold mret, Js_ret. cbn [fst]. f_equal.
  assert (Hn : Z.pos (Pos.of_nat n) = Z.of_nat n).
  { destruct n; [lia |]. by rewrite <- Pos.of_nat_succ, Zpos_P_of_succ_nat, Nat2Z.inj_succ. }
  assert (Hfloor : Qfloor (Z.of_nat j # Pos.of_nat n) = 0).
  { unfold Qfloor. rewrite Hn. apply Z.div_small. lia. }
  match goal with |- Z.to_nat (Qfloor ?X) = _ =>
    assert (Qfloor X = Z.of_nat j) as ->; [| lia] end.
  transitivity (Qfloor (inject_Z (Z.of_nat j))); [| apply Qfloor_Z].
  apply Qfloor_comp.
  unfold unit_interval. rewrite Hfloor.
  unfold Qeq, Qminus, Qplus, Qopp, Qmult, inject_Z; simpl.
  rewrite !Pos.mul_1_r, Hn. ring.
Qed.

(** ** shuffleArray permutes *)

Section Shuffle.
Context {T : Type}.
Implicit Types (l result : list T) (i j : nat).

Lemma insert_Permutation l i x y :
  l !! i = Some y → <[i := x]> l ≡ₚ x :: delete i l.
Proof.
  revert i. induction l as [| a l IH]; intros [| i] Hi; simplify_eq/=.
  - done.
  - rewrite (IH i Hi). apply perm_swap.
Qed.

Lemma swap_write_Permutation l i j ri rj :
  l !! i = Some ri → l !! j = Some rj →
  <[j := ri]> (<[i := rj]> l) ≡ₚ l.
Proof.
  revert i j. induction l as [| a l IH]; intros [| i] [| j] Hi Hj; simplify_eq/=.
  - done.
  - rewrite (insert_Permutation l j ri rj Hj).
    rewrite (delete_Permutation l j rj Hj) at 2. apply perm_swap.
  - rewrite (insert_Permutation l i rj ri Hi).
    rewrite (delete_Permutation l i ri Hi) at 2. apply perm_swap.
  - f_equiv. by apply IH.
Qed.

Lemma swap_Permutation i j l : swap i j l ≡ₚ l.
Proof.
  unfold swap.
  destruct (l !! j) as [rj |] eqn:Hj; [| done].
  destruct (l !! i) as [ri |] eqn:Hi; [| done].
  by apply swap_write_Permutation.
Qed.

Lemma swap_length i j l : length (swap i j l) = length l.
Proof. apply Permutation_length, swap_Permutation. Qed.

(** Inside the array the swap is the JavaScript one: both reads succeed. *)
Lemma swap_in_range i j l :
  (j ≤ i)%nat → (i < length l)%nat →
  ∃ ri rj, l !! i = Some ri ∧ l !! j = Some rj ∧
           swap i j l = <[j := ri]> (<[i := rj]> l).
Proof.
  intros Hji Hi.
  destruct (lookup_lt_is_Some_2 l i Hi) as [ri Hri].
  destruct (lookup_lt_is_Some_2 l j ltac:(lia)) as [rj Hrj].
  exists ri, rj. unfold swap. by rewrite Hri, Hrj.
Qed.

(** The loop returns normally, draws [i] random numbers, reads no clock,
    leaves the database alone, and yields a permutation. *)
Lemma shuffle_loop_spec i result (w : World) :
  ∃ out, shuffle_loop i result w =
           (Normal out,
            mkWorld (db w) (clock w) (clock_reads w) (entropy w) (i + random_draws w))
         ∧ out ≡ₚ result.
Proof.
  revert result w. induction i as [| i IH]; intros result w.
  - exists result. by destruct w.
  - destruct (random_index_lt (S i + 1) w ltac:(lia)) as (j & Hj & _).
    destruct (IH (swap (S i) j result)
                (mkWorld (db w) (clock w) (clock_reads w) (entropy w) (S (random_draws w))))
      as (out & Hout & Hperm).
    exists out. split.
    + cbn [shuffle_loop]. unfold mbind, Js_bind at 1. rewrite Hj, Hout. simpl.
      do 2 f_equal. lia.
    + by rewrite Hperm, swap_Permutation.
Qed.

(** Every iteration the loop makes from inside the array ([i] below its
    length, as [shuffleArray] starts it) reads two elements that exist and
    writes them back swapped: the fall-back of [swap] is never taken, and
    the next iteration starts inside the array again. *)
Lemma shuffle_loop_step i result (w : World) :
  (S i < length result)%nat →
  ∃ j ri rj w',
    random_index (S i + 1) w = (Normal j, w')
    ∧ (j ≤ S i)%nat
    ∧ result !! S i = Some ri ∧ result !! j = Some rj
    ∧ shuffle_loop (S i) result w = shuffle_loop i (<[j := ri]> (<[S i := rj]> result)) w'
    ∧ (i < length (<[j := ri]> (<[S i := rj]> result)))%nat.
Proof.
  intros Hi.
  destruct (random_index_lt (S i + 1) w ltac:(lia)) as (j & Hj & Hlt).
  destruct (swap_in_range (S i) j result ltac:(lia) Hi) as (ri & rj & Hri & Hrj & Hswap).
  exists j, ri, rj. eexists. split; [exact Hj |].
  split; [lia |]. split; [done |]. split; [done |]. split.
  - cbn [shuffle_loop]. unfold mbind, Js_bind at 1. by rewrite Hj, Hswap.
  - rewrite !length_insert. lia.
Qed.

Lemma shuffleArray_spec (array : list T) (w : World) :
  ∃ out, shuffleArray array w =
           (Normal out,
            mkWorld (db w) (clock w) (clock_reads w) (entropy w)
                    (length array - 1 + random_draws w))
         ∧ out ≡ₚ array.
Proof. apply shuffle_loop_spec. Qed.
End Shuffle.

(** ** Clock readings of one call *)

Lemma clock_advanced_add n m w :
  clock_advanced n (clock_advanced m w) = clock_advanced (n + m) w.
Proof. unfold clock_advanced; simpl. f_equal. lia. Qed.

Lemma now_seconds_eq w :
  now_seconds w = (Normal (clock w (clock_reads w) / 1000), clock_advanced 1 w).
Proof. reflexivity. Qed.

Lemma getCollectionCreation_eq w :
  getCollectionCreation w =
    match stored_crt (db w) with
    | Some crt => (Normal crt, w)
    | None => (Normal (clock w (clock_reads w) / 1000), clock_advanced 1 w)
    end.
Proof.
  unfold getCollectionCreation, stored_crt, mbind, Js_bind, getDb.
  destruct (col (db w)) as [crt |]; [| done].
  by destruct (crt =? 0).
Qed.

Lemma getTodayDayNumber_eq w :
  getTodayDayNumber w =
    match stored_crt (db w) with
    | Some crt =>
        (Normal ((clock w (clock_reads w) / 1000 - crt) / 86400), clock_advanced 1 w)
    | None =>
        (Normal ((clock w (S (clock_reads w)) / 1000 - clock w (clock_reads w) / 1000) / 86400),
         clock_advanced 2 w)
    end.
Proof.
  unfold getTodayDayNumber, mbind, Js_bind at 1. rewrite getCollectionCreation_eq.
  destruct (stored_crt (db w)); reflexivity.
Qed.

Lemma due_clock_eq w :
  due_clock w =
    match stored_crt (db w) with
    | Some crt =>
        (Normal ((clock w (clock_reads w) / 1000 - crt) / 86400,
                 clock w (S (clock_reads w)) / 1000),
         clock_advanced 2 w)
    | None =>
        (Normal ((clock w (S (clock_reads w)) / 1000 - clock w (clock_reads w) / 1000) / 86400,
                 clock w (S (S (clock_reads w))) / 1000),
         clock_advanced 3 w)
    end.
Proof.
  unfold due_clock, mbind, Js_bind at 1. rewrite getTodayDayNumber_eq.
  destruct (stored_crt (db w)); reflexivity.
Qed.

Lemma due_clock_total w :
  ∃ todayDayNum nowTimestamp n,
    due_clock w = (Normal (todayDayNum, nowTimestamp), clock_advanced n w).
Proof. rewrite due_clock_eq. destruct (stored_crt (db w)); eauto. Qed.

(** Each due query is its clock readings followed by the query proper. *)
Lemma getReviewQueue_unfold includeNonUrgent w :
  getReviewQueue includeNonUrgent w =
    ('(todayDayNum, nowTimestamp) ← due_clock;
     d ← getDb;
     shuffledUrgent ← shuffleArray (select_due_in_deck (Some URGENT_DECK_ID) todayDayNum nowTimestamp d);
     if (0 <? length shuffledUrgent)%nat && negb includeNonUrgent
     then mret shuffledUrgent
     else shuffleArray (select_due_all todayDayNum nowTimestamp d)) w.
Proof.
  unfold getReviewQueue, due_clock, mbind, Js_bind, getDb.
  rewrite getTodayDayNumber_eq. destruct (stored_crt (db w)); reflexivity.
Qed.

Lemma getReviewQueueByDeck_unfold deckId w :
  getReviewQueueByDeck deckId w =
    ('(todayDayNum, nowTimestamp) ← due_clock;
     d ← getDb;
     shuffleArray (select_due_in_deck deckId todayDayNum nowTimestamp d)) w.
Proof.
  unfold getReviewQueueByDeck, due_clock, mbind, Js_bind, getDb.
  rewrite getTodayDayNumber_eq. destruct (stored_crt (db w)); reflexivity.
Qed.

Lemma getUrgentCount_unfold w :
  getUrgentCount w =
    ('(todayDayNum, nowTimestamp) ← due_clock;
     d ← getDb;
     mret (count_due_in_deck (Some URGENT_DECK_ID) todayDayNum nowTimestamp d)) w.
Proof.
  unfold getUrgentCount, due_clock, mbind, Js_bind, getDb.
  rewrite getTodayDayNumber_eq. destruct (stored_crt (db w)); reflexivity.
Qed.

(** ** The due queries *)

Lemma due_where_true day now c :
  due_where day now c = true ↔
  0 ≤ c_queue c ∧
  ((c_queue c = 2 ∧ c_due c ≤ day) ∨
   ((c_queue c = 1 ∨ c_queue c = 3) ∧ c_due c ≤ now) ∨
   c_queue c = 0).
Proof.
  unfold due_where.
  rewrite andb_true_iff, !orb_true_iff, !andb_true_iff, orb_true_iff.
  rewrite !Z.leb_le, !Z.eqb_eq. tauto.
Qed.

Lemma elem_of_cards_join d i c n k :
  (i, c, n, k) ∈ cards_join_notes_decks d ↔
  cards d !! i = Some c ∧ notes d !! c_nid c = Some n ∧ decks d !! c_did c = Some k.
Proof.
  unfold cards_join_notes_decks. rewrite list_elem_of_omap. split.
  - intros ([i' c'] & Hin & Hf). apply elem_of_map_to_list in Hin.
    destruct (notes d !! c_nid c') as [n' |] eqn:Hn; simplify_eq/=.
    destruct (decks d !! c_did c') as [k' |] eqn:Hk; simplify_eq/=.
    done.
  - intros (Hc & Hn & Hk). exists (i, c). split.
    + by apply elem_of_map_to_list.
    + by rewrite Hn; simpl; rewrite Hk.
Qed.

(** A card id occurs in at most one joined row. *)
Lemma cards_join_id_inj d r1 r2 :
  r1 ∈ cards_join_notes_decks d → r2 ∈ cards_join_notes_decks d →
  r1.1.1.1 = r2.1.1.1 → r1 = r2.
Proof.
  destruct r1 as [[[i1 c1] n1] k1], r2 as [[[i2 c2] n2] k2]; simpl.
  rewrite !elem_of_cards_join. intros (Hc1 & Hn1 & Hk1) (Hc2 & Hn2 & Hk2) ->.
  by simplify_eq.
Qed.

Lemma NoDup_cards_join d : NoDup (cards_join_notes_decks d).
Proof.
  unfold cards_join_notes_decks.
  pose proof (NoDup_fst_map_to_list (cards d)) as Hnd.
  induction (map_to_list (cards d)) as [| [i c] l IH]; [constructor |].
  simpl in *. apply NoDup_cons in Hnd as [Hi Hnd].
  destruct (notes d !! c_nid c) as [n |]; simpl; [| by apply IH].
  destruct (decks d !! c_did c) as [k |]; simpl; [| by apply IH].
  apply NoDup_cons. split; [| by apply IH].
  rewrite list_elem_of_omap. intros ([i' c'] & Hin & Hf). apply Hi.
  destruct (notes d !! c_nid c'); simplify_eq/=.
  destruct (decks d !! c_did c'); simplify_eq/=.
  apply list_elem_of_fmap. by exists (i, c).
Qed.

Lemma select_columns_id r : id (select_columns r) = r.1.1.1.
Proof. by destruct r as [[[??]?]?]. Qed.

(** Selected rows of the join, whatever the [WHERE] clause, are pairwise
    distinct and carry pairwise distinct ids. *)
Lemma NoDup_select (P : Z * CardRow * NoteRow * DeckRow → Prop) `{∀ r, Decision (P r)} d :
  NoDup (id <$> (select_columns <$> filter P (cards_join_notes_decks d))).
Proof.
  rewrite <- list_fmap_compose.
  apply NoDup_fmap_2_strong; [| apply NoDup_filter, NoDup_cards_join].
  intros r1 r2 [_ H1]%list_elem_of_filter [_ H2]%list_elem_of_filter Heq.
  simpl in Heq. rewrite !select_columns_id in Heq.
  by eapply cards_join_id_inj.
Qed.


Lemma filter_fmap_commute {A B} (f : A → B) (P : B → Prop) `{∀ y, Decision (P y)}
    (l : list A) :
  filter P (f <$> l) = f <$> filter (λ x, P (f x)) l.
Proof.
  induction l as [| a l IH]; [done |].
  rewrite fmap_cons, !filter_cons, IH. by destruct (decide (P (f a))).
Qed.

(** The per-deck query is the cross-deck query restricted to that deck. *)
Lemma select_due_in_deck_restrict deckId day now d :
  select_due_in_deck (Some deckId) day now d =
  filter (λ r, did r = deckId) (select_due_all day now d).
Proof.
  unfold select_due_in_deck, select_due_all.
  rewrite filter_fmap_commute, list_filter_filter. f_equal.
  apply list_filter_iff. intros [[[i c] n] k]; simpl.
  rewrite andb_True, Is_true_true, Z.eqb_eq. done.
Qed.

Lemma select_due_in_deck_NaN day now d : select_due_in_deck None day now d = [].
Proof.
  unfold select_due_in_deck.
  induction (cards_join_notes_decks d) as [| r l IH]; [done |].
  by rewrite filter_cons_False by (by intros []).
Qed.

(** ** The queue functions *)

Lemma due_clock_world w r w1 :
  due_clock w = (Normal r, w1) →
  db w1 = db w ∧ clock w1 = clock w ∧ entropy w1 = entropy w
  ∧ random_draws w1 = random_draws w ∧ (clock_reads w ≤ clock_reads w1)%nat.
Proof.
  destruct (due_clock_total w) as (day & now & n & ->). intros [= <- <-]. simpl.
  repeat split; lia.
Qed.

Lemma getReviewQueueByDeck_spec deckId w day now w1 :
  due_clock w = (Normal (day, now), w1) →
  ∃ out w', getReviewQueueByDeck deckId w = (Normal out, w')
            ∧ db w' = db w
            ∧ out ≡ₚ select_due_in_deck deckId day now (db w).
Proof.
  intros Hc. destruct (due_clock_world _ _ _ Hc) as (Hdb & _).
  rewrite getReviewQueueByDeck_unfold. unfold mbind, Js_bind at 1. rewrite Hc.
  unfold Js_bind, getDb. rewrite Hdb.
  destruct (shuffleArray_spec (select_due_in_deck deckId day now (db w)) w1)
    as (out & -> & Hperm).
  eauto.
Qed.

Lemma getReviewQueue_spec includeNonUrgent w day now w1 :
  due_clock w = (Normal (day, now), w1) →
  ∃ out w', getReviewQueue includeNonUrgent w = (Normal out, w')
            ∧ db w' = db w
            ∧ out ≡ₚ
                (if bool_decide (select_due_in_deck (Some URGENT_DECK_ID) day now (db w) ≠ [])
                    && negb includeNonUrgent
                 then select_due_in_deck (Some URGENT_DECK_ID) day now (db w)
                 else select_due_all day now (db w)).
Proof.
  intros Hc. destruct (due_clock_world _ _ _ Hc) as (Hdb & _).
  rewrite getReviewQueue_unfold. unfold mbind, Js_bind at 1. rewrite Hc.
  unfold Js_bind at 1, getDb. rewrite Hdb. unfold Js_bind at 1.
  destruct (shuffleArray_spec (select_due_in_deck (Some URGENT_DECK_ID) day now (db w)) w1)
    as (su & -> & Hsu).
  assert (Hlen : (0 <? length su)%nat =
                 bool_decide (select_due_in_deck (Some URGENT_DECK_ID) day now (db w) ≠ [])).
  { rewrite (Permutation_length Hsu).
    destruct (select_due_in_deck (Some URGENT_DECK_ID) day now (db w)); done. }
  rewrite Hlen.
  destruct (bool_decide _ && negb includeNonUrgent).
  - eexists _, _. split; [reflexivity |]. split; [done | done].
  - match goal with |- context [shuffleArray ?l ?w0] =>
      destruct (shuffleArray_spec l w0) as (out & -> & Hout) end.
    eexists _, _. split; [reflexivity |]. split; [done | done].
Qed.

Lemma getUrgentCount_spec w day now w1 :
  due_clock w = (Normal (day, now), w1) →
  getUrgentCount w =
    (Normal (count_due_in_deck (Some URGENT_DECK_ID) day now (db w)), w1).
Proof.
  intros Hc. destruct (due_clock_world _ _ _ Hc) as (Hdb & _).
  rewrite getUrgentCount_unfold. unfold mbind, Js_bind at 1. rewrite Hc.
  unfold Js_bind, getDb. by rewrite Hdb.
Qed.

(** ** Claims about the queue *)

(** C8.  [shuffleArray] returns normally and its result is a permutation of
    its argument; hence every queue function returns the rows its query
    selected, as a multiset: no row is dropped and none is duplicated. *)
Theorem shuffleArray_is_permutation :
  (∀ (T : Type) (array : list T) (w : World),
      ∃ out w', shuffleArray array w = (Normal out, w') ∧ out ≡ₚ array)
  ∧ (∀ (includeNonUrgent : bool) (deckId : option Z) (w : World),
      ∃ day now w1 out w2 deckOut w3,
        due_clock w = (Normal (day, now), w1)
        ∧ getReviewQueue includeNonUrgent w = (Normal out, w2)
        ∧ getReviewQueueByDeck deckId w = (Normal deckOut, w3)
        ∧ (out ≡ₚ select_due_in_deck (Some URGENT_DECK_ID) day now (db w)
           ∨ out ≡ₚ select_due_all day now (db w))
        ∧ deckOut ≡ₚ select_due_in_deck deckId day now (db w)
        ∧ NoDup (id <$> out) ∧ NoDup (id <$> deckOut)).
Proof.
  split.
  - intros T array w. destruct (shuffleArray_spec array w) as (out & Hout & Hperm).
    eauto.
  - intros b deckId w.
    destruct (due_clock_total w) as (day & now & n & Hc).
    destruct (getReviewQueue_spec b w day now _ Hc) as (q & w2 & Hq & _ & Hqp).
    destruct (getReviewQueueByDeck_spec deckId w day now _ Hc) as (dq & w3 & Hdq & _ & Hdqp).
    exists day, now, (clock_advanced n w), q, w2, dq, w3.
    repeat split; try done.
    + destruct (_ && _); eauto.
    + rewrite Hqp. destruct (_ && _); apply NoDup_select.
    + rewrite Hdqp. apply NoDup_select.
Qed.

Lemma eligible_due_where day now i c n k :
  eligible day now (select_columns (i, c, n, k)) ↔ due_where day now c = true.
Proof. rewrite due_where_true. unfold eligible; simpl. lia. Qed.

(** The [WHERE] clause is the eligibility rule on the stored item. *)
Lemma item_eligible_due_where day now c :
  item_eligible day now c ↔ due_where day now c = true.
Proof. rewrite due_where_true. unfold item_eligible. lia. Qed.

Lemma eligible_select_columns day now i c n k :
  eligible day now (select_columns (i, c, n, k)) ↔ item_eligible day now c.
Proof. by rewrite eligible_due_where, item_eligible_due_where. Qed.



(** The cross-deck query returns the eligible set, the query of a deck the
    part of the eligible set in that deck. *)
Lemma select_due_all_eligible_set day now d r :
  r ∈ select_due_all day now d ↔ in_eligible_set d day now r.
Proof.
  unfold select_due_all, in_eligible_set, row_of_item.
  rewrite list_elem_of_fmap. split.
  - intros ([[[i c] n] k] & -> & [HP Hin]%list_elem_of_filter).
    apply elem_of_cards_join in Hin as (Hc & Hn & Hk). simpl in HP.
    exists c. split.
    + split; [done |]. by exists n, k.
    + by apply item_eligible_due_where, Is_true_true.
  - intros (c & (Hc & n & k & Hn & Hk & Hr) & He).
    exists (id r, c, n, k). split; [done |].
    apply list_elem_of_filter. split.
    + simpl. by apply Is_true_true, item_eligible_due_where.
    + by apply elem_of_cards_join.
Qed.

Lemma select_due_in_deck_eligible_set deckId day now d r :
  r ∈ select_due_in_deck (Some deckId) day now d
  ↔ in_eligible_set d day now r ∧ did r = deckId.
Proof.
  rewrite select_due_in_deck_restrict, list_elem_of_filter, select_due_all_eligible_set.
  tauto.
Qed.

Lemma select_due_urgent_blocking_set day now d r :
  r ∈ select_due_in_deck (Some URGENT_DECK_ID) day now d ↔ in_blocking_set d day now r.
Proof. apply select_due_in_deck_eligible_set. Qed.

(** A stored item is in the eligible set, by its id, exactly when it has its
    note and deck rows and satisfies the rule; its row there is its own. *)
Lemma eligible_set_of_item d day now i c :
  cards d !! i = Some c →
  (∃ r, in_eligible_set d day now r ∧ id r = i)
  ↔ has_note_and_deck d c ∧ item_eligible day now c.
Proof.
  intros Hc. split.
  - intros (r & (c' & (Hc' & n & k & Hn & Hk & _) & He) & <-).
    assert (c' = c) as -> by congruence.
    split; [| done]. split; by eexists.
  - intros [[[n Hn] [k Hk]] He].
    exists (select_columns (i, c, n, k)). split; [| done].
    exists c. split; [| done]. split; [done |]. by exists n, k.
Qed.

Lemma eligible_set_row d day now r c :
  in_eligible_set d day now r → cards d !! id r = Some c → row_of_item d r c.
Proof.
  intros (c' & Hrow & _) Hc. destruct Hrow as [Hc' Hrest].
  assert (c' = c) as -> by congruence. by split.
Qed.

Lemma row_of_item_did d r c : row_of_item d r c → did r = c_did c.
Proof. by intros (_ & n & k & _ & _ & ->). Qed.

(** Membership by id in a list that holds exactly the eligible set, or its
    part in the deck of the item. *)
Lemma elem_of_ids_eligible d day now i c (out : list CardWithNote) :
  cards d !! i = Some c →
  (∀ r, r ∈ out ↔ in_eligible_set d day now r) →
  i ∈ id <$> out ↔ has_note_and_deck d c ∧ item_eligible day now c.
Proof.
  intros Hc Hout. rewrite <- (eligible_set_of_item d day now i c Hc).
  rewrite list_elem_of_fmap. split.
  - intros (r & -> & Hr). exists r. split; [by apply Hout | done].
  - intros (r & Hr & <-). exists r. split; [done | by apply Hout].
Qed.

Lemma elem_of_ids_eligible_in_deck d day now i c (out : list CardWithNote) :
  cards d !! i = Some c →
  (∀ r, r ∈ out ↔ in_eligible_set d day now r ∧ did r = c_did c) →
  i ∈ id <$> out ↔ has_note_and_deck d c ∧ item_eligible day now c.
Proof.
  intros Hc Hout. rewrite <- (eligible_set_of_item d day now i c Hc).
  rewrite list_elem_of_fmap. split.
  - intros (r & -> & Hr). exists r. split; [by apply Hout | done].
  - intros (r & Hr & <-). exists r. split; [done |]. apply Hout. split; [done |].
    eapply row_of_item_did, eligible_set_row; done.
Qed.

Lemma blocking_set_empty_or_not d day now :
  (∃ r, in_blocking_set d day now r) ∨ ¬ (∃ r, in_blocking_set d day now r).
Proof.
  destruct (select_due_in_deck (Some URGENT_DECK_ID) day now d) as [| r l] eqn:Hsel.
  - right. intros (r & Hr%select_due_urgent_blocking_set).
    rewrite Hsel in Hr. by apply elem_of_nil in Hr.
  - left. exists r. apply select_due_urgent_blocking_set. rewrite Hsel. by left.
Qed.

(** What [getReviewQueue] returns for either flag, by membership: the
    blocking set when it is not empty and the flag is [false], the eligible
    set otherwise; no id twice. *)
Lemma getReviewQueue_sets includeNonUrgent w day now w1 :
  due_clock w = (Normal (day, now), w1) →
  ∃ out w', getReviewQueue includeNonUrgent w = (Normal out, w')
            ∧ NoDup (id <$> out)
            ∧ (includeNonUrgent = false → (∃ r, in_blocking_set (db w) day now r) →
               ∀ r, r ∈ out ↔ in_blocking_set (db w) day now r)
            ∧ (includeNonUrgent = true ∨ ¬ (∃ r, in_blocking_set (db w) day now r) →
               ∀ r, r ∈ out ↔ in_eligible_set (db w) day now r).
Proof.
  intros Hc.
  destruct (getReviewQueue_spec includeNonUrgent w day now _ Hc) as (out & w' & Hq & _ & Hperm).
  exists out, w'. split; [done |].
  assert (Hne : select_due_in_deck (Some URGENT_DECK_ID) day now (db w) ≠ []
                ↔ ∃ r, in_blocking_set (db w) day now r).
  { split.
    - destruct (select_due_in_deck _ _ _ _) as [| r l] eqn:Hsel; [done |]. intros _.
      exists r. apply select_due_urgent_blocking_set. rewrite Hsel. by left.
    - intros (r & Hr%select_due_urgent_blocking_set) Hnil.
      rewrite Hnil in Hr. by apply elem_of_nil in Hr. }
  split; [| split].
  - rewrite Hperm. destruct (_ && _); apply NoDup_select.
  - intros -> Hblock r. rewrite bool_decide_true in Hperm by (by apply Hne).
    simpl in Hperm. rewrite Hperm. apply select_due_urgent_blocking_set.
  - intros Hcase r.
    assert (bool_decide (select_due_in_deck (Some URGENT_DECK_ID) day now (db w) ≠ [])
            && negb includeNonUrgent = false) as Hfalse.
    { destruct Hcase as [-> | Hno]; [apply andb_false_r |].
      rewrite bool_decide_false; [done |]. by rewrite Hne. }
    rewrite Hfalse in Hperm. rewrite Hperm. apply select_due_all_eligible_set.
Qed.

Lemma getReviewQueueByDeck_sets deckId w day now w1 :
  due_clock w = (Normal (day, now), w1) →
  ∃ out w', getReviewQueueByDeck (Some deckId) w = (Normal out, w')
            ∧ NoDup (id <$> out)
            ∧ ∀ r, r ∈ out ↔ in_eligible_set (db w) day now r ∧ did r = deckId.
Proof.
  intros Hc.
  destruct (getReviewQueueByDeck_spec (Some deckId) w day now _ Hc)
    as (out & w' & Hq & _ & Hperm).
  exists out, w'. split; [done |]. split.
  - rewrite Hperm. apply NoDup_select.
  - intros r. rewrite Hperm. apply select_due_in_deck_eligible_set.
Qed.

(** The collection of [dangling_world] is what two calls of
    [moveCardToDeck], with deck ids that have no row, leave of
    [single_deck_world]. *)
Lemma dangling_world_reached :
  ((_ ← moveCardToDeck 1 6; moveCardToDeck 3 URGENT_DECK_ID) single_deck_world).1 = Normal ()
  ∧ db ((_ ← moveCardToDeck 1 6; moveCardToDeck 3 URGENT_DECK_ID) single_deck_world).2
    = db dangling_world.
Proof. split; vm_compute; reflexivity. Qed.

(** C1, as the specification states it, fails: card 1 of [dangling_world]
    is a new item, which the rule makes eligible at every day number and
    second, but its deck has no row and the queries join the decks: the
    cross-deck queue holds card 2 only, and the queue of its own deck is
    empty. *)
Lemma eligible_item_in_no_queue :
  ∃ c, cards (db dangling_world) !! 1 = Some c
       ∧ c_queue c = 0 ∧ c_did c = 6
       ∧ (∀ dayNumber now, item_eligible dayNumber now c)
       ∧ (getReviewQueue true dangling_world).1 = Normal [row_of_card_2]
       ∧ (getReviewQueueByDeck (Some 6) dangling_world).1 = Normal [].
Proof.
  exists (set_deck 6 8641000 (example_card 5 0 0)).
  split; [by vm_compute |]. split; [done |]. split; [done |].
  split; [| split; by vm_compute].
  intros dayNumber now. unfold item_eligible. simpl. lia.
Qed.

(** C1, amended.  A stored item is in the result of the cross-deck query of
    [getReviewQueue] and in the result of [getReviewQueueByDeck] for its own
    deck exactly when it has its note and deck rows and is eligible in the
    specification's sense, for the day number and the timestamp that call
    computed; the row returned for it is its own.  With its note and deck, a
    review item due on the day number is returned; one due the day after is
    not; an item without its note or its deck is never returned.  This holds
    for every value of [queue], the five named ones included. *)
Theorem eligible_iff_selected (w : World) (i : Z) (c : CardRow) :
  cards (db w) !! i = Some c →
  ∃ day now w1 all w2 deck w3,
    due_clock w = (Normal (day, now), w1)
    ∧ getReviewQueue true w = (Normal all, w2)
    ∧ getReviewQueueByDeck (Some (c_did c)) w = (Normal deck, w3)
    ∧ (i ∈ id <$> all ↔ has_note_and_deck (db w) c ∧ item_eligible day now c)
    ∧ (i ∈ id <$> deck ↔ has_note_and_deck (db w) c ∧ item_eligible day now c)
    ∧ (∀ r, r ∈ all ∨ r ∈ deck → id r = i → row_of_item (db w) r c)
    ∧ (has_note_and_deck (db w) c → c_queue c = 2 → c_due c = day →
       i ∈ id <$> all ∧ i ∈ id <$> deck)
    ∧ (c_queue c = 2 → c_due c = day + 1 → (i ∉ id <$> all) ∧ (i ∉ id <$> deck))
    ∧ (¬ has_note_and_deck (db w) c → (i ∉ id <$> all) ∧ (i ∉ id <$> deck)).
Proof.
  intros Hc.
  destruct (due_clock_total w) as (day & now & m & Hclock).
  destruct (getReviewQueue_sets true w day now _ Hclock) as (all & w2 & Hall & _ & _ & Hpa).
  destruct (getReviewQueueByDeck_sets (c_did c) w day now _ Hclock)
    as (deck & w3 & Hdeck & _ & Hpd).
  specialize (Hpa (or_introl eq_refl)).
  pose proof (elem_of_ids_eligible (db w) day now i c all Hc Hpa) as Ha.
  pose proof (elem_of_ids_eligible_in_deck (db w) day now i c deck Hc Hpd) as Hd.
  exists day, now, (clock_advanced m w), all, w2, deck, w3.
  split; [done |]. split; [done |]. split; [done |].
  split; [done |]. split; [done |]. split.
  { intros r [Hr | Hr] <-.
    - apply Hpa in Hr. by eapply eligible_set_row.
    - apply Hpd in Hr as [Hr _]. by eapply eligible_set_row. }
  rewrite Ha, Hd. unfold item_eligible.
  split; [| split]; intros; try (split; intros [? ?]); try lia; try done.
  split; (split; [done | lia]).
Qed.

Lemma eligible_iff_selected_witness :
  ∃ day now w1 all w2 deck w3,
    due_clock example_world = (Normal (day, now), w1)
    ∧ getReviewQueue true example_world = (Normal all, w2)
    ∧ getReviewQueueByDeck (Some (c_did (example_card 5 2 100))) example_world
      = (Normal deck, w3)
    ∧ (1 ∈ id <$> all ↔
       has_note_and_deck (db example_world) (example_card 5 2 100)
       ∧ item_eligible day now (example_card 5 2 100))
    ∧ (1 ∈ id <$> deck ↔
       has_note_and_deck (db example_world) (example_card 5 2 100)
       ∧ item_eligible day now (example_card 5 2 100))
    ∧ (∀ r, r ∈ all ∨ r ∈ deck → id r = 1 →
            row_of_item (db example_world) r (example_card 5 2 100))
    ∧ (has_note_and_deck (db example_world) (example_card 5 2 100) →
       c_queue (example_card 5 2 100) = 2 → c_due (example_card 5 2 100) = day →
       1 ∈ id <$> all ∧ 1 ∈ id <$> deck)
    ∧ (c_queue (example_card 5 2 100) = 2 → c_due (example_card 5 2 100) = day + 1 →
       (1 ∉ id <$> all) ∧ (1 ∉ id <$> deck))
    ∧ (¬ has_note_and_deck (db example_world) (example_card 5 2 100) →
       (1 ∉ id <$> all) ∧ (1 ∉ id <$> deck)).
Proof.
  apply (eligible_iff_selected example_world 1 (example_card 5 2 100)).
  vm_compute. reflexivity.
Defined.

(** C2, as the specification states it, fails: card 3 of [dangling_world]
    is an eligible item of the urgent deck (a new one), so the eligible set
    of the blocking category is not empty, and [getUrgentCount] counts it;
    but the urgent deck has no row, the urgent query returns nothing, and
    [getReviewQueue(false)] returns card 2, an item of deck 5. *)
Lemma eligible_urgent_item_does_not_block :
  ∃ c, cards (db dangling_world) !! 3 = Some c
       ∧ c_queue c = 0 ∧ c_did c = URGENT_DECK_ID
       ∧ (∀ dayNumber now, item_eligible dayNumber now c)
       ∧ (getUrgentCount dangling_world).1 = Normal 1%nat
       ∧ (getReviewQueue false dangling_world).1 = Normal [row_of_card_2]
       ∧ did row_of_card_2 = 5 ∧ 5 ≠ URGENT_DECK_ID.
Proof.
  exists (set_deck URGENT_DECK_ID 8641000 (example_card 5 0 0)).
  split; [by vm_compute |]. split; [done |]. split; [done |].
  split; [| split; [by vm_compute |]; split; [by vm_compute |]; split; [done | done]].
  intros dayNumber now. unfold item_eligible. simpl. lia.
Qed.

(** C2, amended.  [getReviewQueue(false)] returns normally and no id occurs
    twice in its result.  With the blocking set taken as the eligible items
    of the urgent deck that have their note and deck rows: when it is not
    empty the result holds exactly its rows, all of the urgent deck; when it
    is empty the result holds exactly the rows of the eligible set, the
    eligible items of all decks that have their note and deck rows.  The
    rule is the one of the specification, evaluated at the day number and
    the timestamp the call computed. *)
Theorem getReviewQueue_blocking_gate (w : World) :
  ∃ day now w1 out w',
    due_clock w = (Normal (day, now), w1)
    ∧ getReviewQueue false w = (Normal out, w')
    ∧ NoDup (id <$> out)
    ∧ ((∃ r, in_blocking_set (db w) day now r) →
       (∀ r, r ∈ out ↔ in_blocking_set (db w) day now r)
       ∧ (∀ r, r ∈ out → did r = URGENT_DECK_ID))
    ∧ ((¬ ∃ r, in_blocking_set (db w) day now r) →
       ∀ r, r ∈ out ↔ in_eligible_set (db w) day now r)
    ∧ (∀ i c, cards (db w) !! i = Some c →
       i ∈ id <$> out ↔
       has_note_and_deck (db w) c ∧ item_eligible day now c
       ∧ ((∃ r, in_blocking_set (db w) day now r) → c_did c = URGENT_DECK_ID)).
Proof.
  destruct (due_clock_total w) as (day & now & n & Hc).
  destruct (getReviewQueue_sets false w day now _ Hc) as (out & w' & Hq & Hnd & Hblock & Hall).
  exists day, now, (clock_advanced n w), out, w'.
  split; [done |]. split; [done |]. split; [done |].
  split; [| split].
  - intros Hex. split; [by apply Hblock |].
    intros r Hr. by apply (Hblock eq_refl Hex) in Hr as [_ ?].
  - intros Hno. apply Hall. by right.
  - intros i c Hi.
    destruct (blocking_set_empty_or_not (db w) day now) as [Hex | Hno].
    + specialize (Hblock eq_refl Hex). rewrite list_elem_of_fmap. split.
      * intros (r & -> & [Hel Hdid]%Hblock).
        pose proof (eligible_set_row _ _ _ _ _ Hel Hi) as Hrow.
        destruct (proj1 (eligible_set_of_item (db w) day now (id r) c Hi)) as [Hhas He];
          [by exists r |].
        split; [done |]. split; [done |]. intros _.
        by rewrite <- (row_of_item_did _ _ _ Hrow).
      * intros (Hhas & He & Hdid).
        destruct (proj2 (eligible_set_of_item (db w) day now i c Hi)) as (r & Hel & <-);
          [done |].
        exists r. split; [done |]. apply Hblock. split; [done |].
        rewrite (row_of_item_did _ _ _ (eligible_set_row _ _ _ _ _ Hel Hi)). by apply Hdid.
    + specialize (Hall (or_intror Hno)).
      rewrite (elem_of_ids_eligible (db w) day now i c out Hi Hall). tauto.
Qed.

(** ** updateCardSchedule *)

Lemma schedule_clock_total w :
  ∃ now todayDayNum n,
    schedule_clock w = (Normal (now, todayDayNum), clock_advanced n w).
Proof.
  unfold schedule_clock, mbind, Js_bind at 1. rewrite now_seconds_eq.
  unfold Js_bind. rewrite getTodayDayNumber_eq.
  destruct (stored_crt (db (clock_advanced 1 w))); simpl;
    rewrite clock_advanced_add; eauto.
Qed.

Lemma with_cards_same w : with_cards (cards (db w)) w = w.
Proof. by destruct w as [[] ????]. Qed.

Lemma updateCardSchedule_eq cardId action w now todayDayNum w1 :
  schedule_clock w = (Normal (now, todayDayNum), w1) →
  updateCardSchedule cardId action w =
    (Normal (),
     match set_for action now todayDayNum with
     | Some set => with_cards (alter set cardId (cards (db w1))) w1
     | None => w1
     end).
Proof.
  unfold schedule_clock, updateCardSchedule, set_for, mbind, Js_bind.
  destruct (now_seconds w) as [[now' | e] w0]; [| done].
  destruct (getTodayDayNumber w0) as [[day' | e] w0']; [| done].
  intros [= -> -> ->].
  repeat (destruct (String.eqb action _); [reflexivity |]). reflexivity.
Qed.

Lemma set_for_invalid action now day :
  action ∉ ReviewActions → set_for action now day = None.
Proof.
  unfold ReviewActions, set_for. rewrite !not_elem_of_cons.
  intros (H1 & H2 & H3 & H4 & _).
  apply String.eqb_neq in H1, H2, H3, H4. by rewrite H1, H2, H3, H4.
Qed.

(** C3.  For a stored card and the [now] and [todayDayNum] the call reads,
    each of the four actions returns normally and leaves the card in the
    state of the transition table: [repeat] gives queue 1 (learning), due
    [now], interval 0; [soon] gives queue 2 (review), due [todayDayNum + 1],
    interval 1; [later] gives queue 2, due [todayDayNum + 7], interval 7;
    [complete] gives queue -1 and keeps type, due and interval.  Every action
    adds exactly 1 to [reps], stamps [mod] with [now], keeps the other
    columns, and touches no other card. *)
Theorem updateCardSchedule_transition_table (w : World) (cardId : Z) (c : CardRow) :
  cards (db w) !! cardId = Some c →
  ∃ now dayNumber w1,
    schedule_clock w = (Normal (now, dayNumber), w1)
    ∧ ∀ action, action ∈ ReviewActions →
      ∃ w' c',
        updateCardSchedule cardId action w = (Normal (), w')
        ∧ cards (db w') !! cardId = Some c'
        ∧ c_reps c' = c_reps c + 1
        ∧ c_mod c' = now
        ∧ (action = "repeat" →
           c_queue c' = 1 ∧ c_type c' = 1 ∧ c_due c' = now ∧ c_ivl c' = 0)
        ∧ (action = "soon" →
           c_queue c' = 2 ∧ c_type c' = 2 ∧ c_due c' = dayNumber + 1 ∧ c_ivl c' = 1)
        ∧ (action = "later" →
           c_queue c' = 2 ∧ c_type c' = 2 ∧ c_due c' = dayNumber + 7 ∧ c_ivl c' = 7)
        ∧ (action = "complete" →
           c_queue c' = -1 ∧ c_type c' = c_type c ∧ c_due c' = c_due c ∧ c_ivl c' = c_ivl c)
        ∧ (c_nid c' = c_nid c ∧ c_did c' = c_did c ∧ c_ord c' = c_ord c
           ∧ c_factor c' = c_factor c ∧ c_lapses c' = c_lapses c)
        ∧ (∀ other, other ≠ cardId → cards (db w') !! other = cards (db w) !! other)
        ∧ notes (db w') = notes (db w) ∧ decks (db w') = decks (db w)
        ∧ col (db w') = col (db w).
Proof.
  intros Hc.
  destruct (schedule_clock_total w) as (now & day & m & Hclock).
  exists now, day, (clock_advanced m w). split; [done |].
  intros action Hvalid.
  rewrite (updateCardSchedule_eq cardId action w now day _ Hclock).
  unfold ReviewActions in Hvalid. rewrite !elem_of_cons, elem_of_nil in Hvalid.
  destruct Hvalid as [-> | [-> | [-> | [-> | []]]]]; simpl;
    eexists _, _; (split; [reflexivity |]); simpl;
    (split; [by rewrite lookup_alter_eq, Hc |]); simpl;
    repeat split; try done;
    intros; by apply lookup_alter_ne.
Qed.

Lemma updateCardSchedule_transition_table_witness :
  ∃ now dayNumber w1,
    schedule_clock example_world = (Normal (now, dayNumber), w1)
    ∧ ∀ action, action ∈ ReviewActions →
      ∃ w' c',
        updateCardSchedule 1 action example_world = (Normal (), w')
        ∧ cards (db w') !! 1 = Some c'
        ∧ c_reps c' = c_reps (example_card 5 2 100) + 1
        ∧ c_mod c' = now
        ∧ (action = "repeat" →
           c_queue c' = 1 ∧ c_type c' = 1 ∧ c_due c' = now ∧ c_ivl c' = 0)
        ∧ (action = "soon" →
           c_queue c' = 2 ∧ c_type c' = 2 ∧ c_due c' = dayNumber + 1 ∧ c_ivl c' = 1)
        ∧ (action = "later" →
           c_queue c' = 2 ∧ c_type c' = 2 ∧ c_due c' = dayNumber + 7 ∧ c_ivl c' = 7)
        ∧ (action = "complete" →
           c_queue c' = -1 ∧ c_type c' = c_type (example_card 5 2 100)
           ∧ c_due c' = c_due (example_card 5 2 100)
           ∧ c_ivl c' = c_ivl (example_card 5 2 100))
        ∧ (c_nid c' = c_nid (example_card 5 2 100)
           ∧ c_did c' = c_did (example_card 5 2 100)
           ∧ c_ord c' = c_ord (example_card 5 2 100)
           ∧ c_factor c' = c_factor (example_card 5 2 100)
           ∧ c_lapses c' = c_lapses (example_card 5 2 100))
        ∧ (∀ other, other ≠ 1 →
           cards (db w') !! other = cards (db example_world) !! other)
        ∧ notes (db w') = notes (db example_world)
        ∧ decks (db w') = decks (db example_world)
        ∧ col (db w') = col (db example_world).
Proof.
  apply (updateCardSchedule_transition_table example_world 1 (example_card 5 2 100)).
  vm_compute. reflexivity.
Defined.

(** The specification's example: three repetitions, [later] on day 100. *)
Example later_on_day_100 :
  (cards (db (updateCardSchedule 1 "later" example_world).2) !! 1)
  = Some {| c_nid := 10; c_did := 5; c_ord := 0; c_mod := 8641000; c_type := 2;
            c_queue := 2; c_due := 107; c_ivl := 7; c_factor := 2500;
            c_reps := 4; c_lapses := 0 |}.
Proof. vm_compute. reflexivity. Qed.

(** ** The route handlers *)

Lemma getReviewQueue_total includeNonUrgent w :
  ∃ out w', getReviewQueue includeNonUrgent w = (Normal out, w') ∧ db w' = db w.
Proof.
  destruct (due_clock_total w) as (day & now & n & Hc).
  destruct (getReviewQueue_spec includeNonUrgent w day now _ Hc) as (out & w' & ? & ? & _).
  eauto.
Qed.

Lemma getUrgentCount_total w :
  ∃ count w', getUrgentCount w = (Normal count, w') ∧ db w' = db w.
Proof.
  destruct (due_clock_total w) as (day & now & n & Hc).
  rewrite (getUrgentCount_spec w day now _ Hc). eauto.
Qed.

Lemma updateCardSchedule_total cardId action w :
  ∃ w', updateCardSchedule cardId action w = (Normal (), w')
        ∧ notes (db w') = notes (db w) ∧ decks (db w') = decks (db w)
        ∧ col (db w') = col (db w).
Proof.
  destruct (schedule_clock_total w) as (now & day & m & Hclock).
  rewrite (updateCardSchedule_eq cardId action w now day _ Hclock).
  eexists. split; [reflexivity |]. by destruct (set_for action now day).
Qed.

(** A request that passes both checks of [POST] is answered with
    [success: true], whatever [updateCardSchedule] found to update. *)
Lemma POST_accepted cardId action w :
  cardId ≠ 0 → action ∈ ReviewActions →
  ∃ w1 remaining count w',
    updateCardSchedule cardId action w = (Normal (), w1)
    ∧ POST (Some (mkReviewBody (Some cardId) (Some action))) w =
        (Normal (SuccessJson remaining count (0 <? count)%nat), w')
    ∧ db w' = db w1.
Proof.
  intros Hid Hvalid.
  destruct (updateCardSchedule_total cardId action w) as (w1 & Hupd & _).
  destruct (getReviewQueue_total false w1) as (out & w2 & Hq & Hdb2).
  destruct (getUrgentCount_total w2) as (count & w3 & Hu & Hdb3).
  exists w1, (length out), count, w3. split; [done |]. split; [| congruence].
  unfold POST, try_catch, mbind, Js_bind; simpl.
  apply Z.eqb_neq in Hid. rewrite Hid.
  assert (action ≠ "") as ->%String.eqb_neq.
  { intros ->. unfold ReviewActions in Hvalid.
    rewrite !elem_of_cons, elem_of_nil in Hvalid.
    destruct Hvalid as [? | [? | [? | [? | []]]]]; discriminate. }
  simpl. rewrite bool_decide_true by done. simpl.
  by rewrite Hupd, Hq, Hu.
Qed.

(** A request whose action is none of the four literals is answered with
    status 400 and nothing runs: the world is the one before the request. *)
Lemma POST_rejects_invalid_action cardId action w :
  action ∉ ReviewActions →
  ∃ error, POST (Some (mkReviewBody cardId (Some action))) w
           = (Normal (ErrorJson error 400), w).
Proof.
  intros Hinvalid. unfold POST, try_catch, mbind, Js_bind; simpl.
  destruct cardId as [cardId |]; [| by eexists].
  destruct ((cardId =? 0) || String.eqb action ""); [by eexists |].
  rewrite bool_decide_false by done. by eexists.
Qed.

Lemma Normal_not_failure {A} (a : A) w : ¬ signals_failure (Normal a, w).
Proof. by intros [e ?]. Qed.

Lemma updateCardSchedule_unknown_or_invalid cardId action w :
  cards (db w) !! cardId = None ∨ action ∉ ReviewActions →
  ∃ w', updateCardSchedule cardId action w = (Normal (), w') ∧ db w' = db w.
Proof.
  intros Hcase.
  destruct (schedule_clock_total w) as (now & day & m & Hclock).
  rewrite (updateCardSchedule_eq cardId action w now day _ Hclock).
  eexists. split; [reflexivity |].
  destruct (set_for action now day) as [set |] eqn:Hset; [| done].
  destruct Hcase as [Hnone | Hinvalid].
  - rewrite alter_id by (simpl; intros x Hx; congruence).
    by rewrite with_cards_same.
  - by rewrite set_for_invalid in Hset.
Qed.

(** C5.  A value that is none of the four literals can reach
    [updateCardSchedule] only through the [POST] handler, its one caller,
    and there it is refused: for a body whose action is missing or is not
    one of the four literals the handler answers with an error of status
    400 and nothing runs.  The world after the request is the world before
    it: no card is changed, and not even the clock was read, as
    [updateCardSchedule] would have done first.  When the card id is present
    and the action is a non-empty string, the error is ["Invalid action"]. *)
Theorem invalid_action_refused_by_POST (w : World) (body : ReviewBody) :
  (∀ action, b_action body = Some action → action ∉ ReviewActions) →
  ∃ error,
    POST (Some body) w = (Normal (ErrorJson error 400), w)
    ∧ (∀ cardId action,
         b_cardId body = Some cardId → cardId ≠ 0 →
         b_action body = Some action → action ≠ "" →
         error = "Invalid action").
Proof.
  intros Hinvalid. unfold POST, try_catch, mbind, Js_bind; simpl.
  destruct body as [[cardId |] [action |]]; simpl in *;
    try (eexists; split; [reflexivity |]; intros ?? [=] ? [=]; fail).
  - destruct (Z.eqb_spec cardId 0) as [-> | Hid]; simpl.
    + eexists. split; [reflexivity |]. by intros ?? [= <-] ?.
    + destruct (String.eqb_spec action "") as [-> | Hact]; simpl.
      * eexists. split; [reflexivity |]. by intros ?? _ _ [= <-] ?.
      * rewrite bool_decide_false by (by apply Hinvalid). simpl.
        eexists. split; [reflexivity | done].
Qed.

Lemma invalid_action_refused_by_POST_witness :
  ∃ error,
    POST (Some (mkReviewBody (Some 1) (Some "skip"))) example_world
    = (Normal (ErrorJson error 400), example_world)
    ∧ (∀ cardId action,
         b_cardId (mkReviewBody (Some 1) (Some "skip")) = Some cardId → cardId ≠ 0 →
         b_action (mkReviewBody (Some 1) (Some "skip")) = Some action → action ≠ "" →
         error = "Invalid action").
Proof.
  apply (invalid_action_refused_by_POST example_world (mkReviewBody (Some 1) (Some "skip"))).
  intros action [= <-]. unfold ReviewActions. rewrite !not_elem_of_cons.
  repeat split; try done. apply not_elem_of_nil.
Defined.

(** C6, as the specification states it, fails: for an id that matches no
    card, [updateCardSchedule] returns normally and [POST] answers
    [success: true]. *)
Lemma unknown_card_reported_as_success :
  cards (db example_world) !! 99 = None
  ∧ ¬ signals_failure (updateCardSchedule 99 "soon" example_world)
  ∧ (POST (Some (mkReviewBody (Some 99) (Some "soon"))) example_world).1
    = Normal (SuccessJson 1 1 true).
Proof.
  split; [| split].
  - vm_compute. reflexivity.
  - apply Normal_not_failure.
  - vm_compute. reflexivity.
Qed.

(** C6, amended.  For an id that matches no card and any of the four
    actions, [updateCardSchedule] returns normally without a signal and the
    database is unchanged.  [POST] answers such an id with [success: true]
    when it is not 0, and again leaves the database unchanged; the id 0 it
    takes for a missing one and answers with the error 400 of a missing
    field, in the world it started from.  Neither answer tells that no card
    was found. *)
Theorem unknown_card_changes_nothing (w : World) (cardId : Z) (action : string) :
  cards (db w) !! cardId = None →
  action ∈ ReviewActions →
  (∃ w', updateCardSchedule cardId action w = (Normal (), w')
         ∧ ¬ signals_failure (updateCardSchedule cardId action w)
         ∧ db w' = db w)
  ∧ (cardId ≠ 0 →
     ∃ remaining count w',
       POST (Some (mkReviewBody (Some cardId) (Some action))) w =
         (Normal (SuccessJson remaining count (0 <? count)%nat), w')
       ∧ db w' = db w)
  ∧ (cardId = 0 →
     POST (Some (mkReviewBody (Some cardId) (Some action))) w =
       (Normal (ErrorJson "Missing cardId or action" 400), w)).
Proof.
  intros Hnone Hvalid.
  destruct (updateCardSchedule_unknown_or_invalid cardId action w (or_introl Hnone))
    as (w1 & Hupd & Hdb).
  split; [| split].
  - exists w1. split; [done |]. split; [| done]. rewrite Hupd. apply Normal_not_failure.
  - intros Hid.
    destruct (POST_accepted cardId action w Hid Hvalid)
      as (w1' & n & u & w' & Hupd' & HP & Hdb').
    exists n, u, w'. split; [done |]. congruence.
  - intros ->. reflexivity.
Qed.

Lemma unknown_card_changes_nothing_witness :
  (∃ w', updateCardSchedule 99 "soon" example_world = (Normal (), w')
         ∧ ¬ signals_failure (updateCardSchedule 99 "soon" example_world)
         ∧ db w' = db example_world)
  ∧ (99 ≠ 0 →
     ∃ remaining count w',
       POST (Some (mkReviewBody (Some 99) (Some "soon"))) example_world =
         (Normal (SuccessJson remaining count (0 <? count)%nat), w')
       ∧ db w' = db example_world)
  ∧ (99 = 0 →
     POST (Some (mkReviewBody (Some 99) (Some "soon"))) example_world =
       (Normal (ErrorJson "Missing cardId or action" 400), example_world)).
Proof.
  apply (unknown_card_changes_nothing example_world 99 "soon").
  - vm_compute. reflexivity.
  - unfold ReviewActions. rewrite !elem_of_cons. right. by left.
Defined.

(** The id 0 is answered as a missing field, whatever the action. *)
Example POST_card_id_zero :
  cards (db example_world) !! 0 = None
  ∧ POST (Some (mkReviewBody (Some 0) (Some "soon"))) example_world
    = (Normal (ErrorJson "Missing cardId or action" 400), example_world).
Proof. split; [by vm_compute | reflexivity]. Qed.

(** C9, as the specification states it, fails: card 1 of [dangling_world],
    a new item, is acted on with [repeat] at second 8641000 and is then a
    learning item due at that second, which the rule makes eligible at that
    second and later; but its deck has no row, and the queues computed next,
    at the same second, do not hold it: the cross-deck queue is card 2
    alone, the queue of its deck is empty. *)
Lemma repeated_item_in_no_queue :
  ∃ c', cards (db (updateCardSchedule 1 "repeat" dangling_world).2) !! 1 = Some c'
        ∧ c_queue c' = 1 ∧ c_due c' = 8641000
        ∧ (∀ dayNumber now, 8641000 ≤ now → item_eligible dayNumber now c')
        ∧ (due_clock (updateCardSchedule 1 "repeat" dangling_world).2).1
          = Normal (100, 8641000)
        ∧ ((_ ← updateCardSchedule 1 "repeat"; getReviewQueue true) dangling_world).1
          = Normal [row_of_card_2]
        ∧ ((_ ← updateCardSchedule 1 "repeat"; getReviewQueueByDeck (Some 6)) dangling_world).1
          = Normal [].
Proof.
  exists (set_repeat 8641000 (set_deck 6 8641000 (example_card 5 0 0))).
  split; [by vm_compute |]. split; [done |]. split; [done |].
  split; [| split; [by vm_compute |]; split; by vm_compute].
  intros dayNumber now Hnow. unfold item_eligible. simpl. lia.
Qed.

(** C9, amended.  After [repeat] at second [T] a stored item is in the
    learning queue with due value [T]: it satisfies the eligibility rule,
    and the [WHERE] clause of the queries, at every second [T' >= T] and
    every day number.  A queue computed on the resulting database at such a
    [T'], across decks or for the deck of the item, holds the item exactly
    when the item has its note and deck rows; the row it holds is the one of
    the item as [repeat] left it.  (The item need not have been unsuspended
    before.) *)
Theorem repeat_reenters_queue (w : World) (cardId : Z) (c : CardRow) :
  cards (db w) !! cardId = Some c →
  ∃ T day w1 w' c',
    schedule_clock w = (Normal (T, day), w1)
    ∧ updateCardSchedule cardId "repeat" w = (Normal (), w')
    ∧ cards (db w') !! cardId = Some c'
    ∧ c_queue c' = 1 ∧ c_due c' = T
    ∧ (∀ day' T', T ≤ T' → item_eligible day' T' c' ∧ due_where day' T' c' = true)
    ∧ (∀ later day' T' w2,
         db later = db w' →
         due_clock later = (Normal (day', T'), w2) →
         T ≤ T' →
         ∃ all w3 deck w4,
           getReviewQueue true later = (Normal all, w3)
           ∧ getReviewQueueByDeck (Some (c_did c)) later = (Normal deck, w4)
           ∧ (cardId ∈ id <$> all ↔ has_note_and_deck (db w) c)
           ∧ (cardId ∈ id <$> deck ↔ has_note_and_deck (db w) c)
           ∧ (∀ r, r ∈ all ∨ r ∈ deck → id r = cardId → row_of_item (db later) r c')).
Proof.
  intros Hc.
  destruct (schedule_clock_total w) as (T & day & m & Hclock).
  exists T, day, (clock_advanced m w).
  rewrite (updateCardSchedule_eq cardId "repeat" w T day _ Hclock). simpl.
  eexists _, (set_repeat T c).
  split; [done |]. split; [reflexivity |].
  split; [by simpl; rewrite lookup_alter_eq, Hc |].
  split; [done |]. split; [done |].
  assert (Helig : ∀ day' T', T ≤ T' → item_eligible day' T' (set_repeat T c)).
  { intros day' T' HT. unfold item_eligible; simpl. lia. }
  split.
  - intros day' T' HT. split; [by apply Helig |].
    by apply item_eligible_due_where, Helig.
  - intros later day' T' w2 Hdb Hlater HT.
    assert (Hcards : cards (db later) !! cardId = Some (set_repeat T c)).
    { rewrite Hdb. simpl. by rewrite lookup_alter_eq, Hc. }
    assert (Hhas : has_note_and_deck (db later) (set_repeat T c)
                   ↔ has_note_and_deck (db w) c).
    { by rewrite Hdb. }
    destruct (getReviewQueue_sets true later day' T' _ Hlater)
      as (all & w3 & Hall & _ & _ & Hpa).
    destruct (getReviewQueueByDeck_sets (c_did c) later day' T' _ Hlater)
      as (deck & w4 & Hdeck & _ & Hpd).
    specialize (Hpa (or_introl eq_refl)).
    exists all, w3, deck, w4. split; [done |]. split; [done |].
    split; [| split].
    + rewrite (elem_of_ids_eligible (db later) day' T' cardId _ all Hcards Hpa), Hhas.
      split; [tauto |]. intros ?. split; [done | by apply Helig].
    + rewrite (elem_of_ids_eligible_in_deck (db later) day' T' cardId _ deck Hcards Hpd), Hhas.
      split; [tauto |]. intros ?. split; [done | by apply Helig].
    + intros r [Hr | Hr] <-.
      * apply Hpa in Hr. by eapply eligible_set_row.
      * apply Hpd in Hr as [Hr _]. by eapply eligible_set_row.
Qed.

Lemma repeat_reenters_queue_witness :
  ∃ T day w1 w' c',
    schedule_clock example_world = (Normal (T, day), w1)
    ∧ updateCardSchedule 7 "repeat" example_world = (Normal (), w')
    ∧ cards (db w') !! 7 = Some c'
    ∧ c_queue c' = 1 ∧ c_due c' = T
    ∧ (∀ day' T', T ≤ T' → item_eligible day' T' c' ∧ due_where day' T' c' = true)
    ∧ (∀ later day' T' w2,
         db later = db w' →
         due_clock later = (Normal (day', T'), w2) →
         T ≤ T' →
         ∃ all w3 deck w4,
           getReviewQueue true later = (Normal all, w3)
           ∧ getReviewQueueByDeck (Some (c_did (example_card 5 2 101))) later
             = (Normal deck, w4)
           ∧ (7 ∈ id <$> all ↔ has_note_and_deck (db example_world) (example_card 5 2 101))
           ∧ (7 ∈ id <$> deck ↔ has_note_and_deck (db example_world) (example_card 5 2 101))
           ∧ (∀ r, r ∈ all ∨ r ∈ deck → id r = 7 → row_of_item (db later) r c')).
Proof.
  apply (repeat_reenters_queue example_world 7 (example_card 5 2 101)).
  vm_compute. reflexivity.
Defined.

(** Card 7 is not due on day 100; after [repeat] the next queue holds it. *)
Example repeat_then_queue :
  (id <$> (match getReviewQueue true example_world with
           | (Normal l, _) => l | _ => [] end)) ≡ₚ [1; 2; 3]
  ∧ (id <$> (match (_ ← updateCardSchedule 7 "repeat"; getReviewQueue true) example_world with
             | (Normal l, _) => l | _ => [] end)) ≡ₚ [1; 2; 3; 7].
Proof.
  split.
  - transitivity [2; 1; 3]; [by vm_compute | apply perm_swap].
  - transitivity [2; 1; 7; 3]; [by vm_compute |].
    etransitivity; [apply perm_swap |]. do 2 apply perm_skip. apply perm_swap.
Qed.

(** ** shuffleArray and the caller's array *)

Section StoreShuffle.
Context {T : Type}.
Implicit Types (h : gmap Store.ref (list T)) (xs ys : list T).

Lemma alter_lookup_insert (f : list T → list T) h r ys :
  h !! r = Some ys → alter f r h = <[r := f ys]> h.
Proof.
  intros Hr. apply map_eq. intros r'.
  destruct (decide (r = r')) as [<- | Hne].
  - by rewrite lookup_alter_eq, lookup_insert_eq, Hr.
  - by rewrite lookup_alter_ne, lookup_insert_ne.
Qed.

(** The loop on the object [result] computes what the loop on its contents
    computes, and writes to no other object. *)
Lemma shuffle_loop_ref_spec i result h ys w :
  h !! result = Some ys →
  ∃ out w', shuffle_loop i ys w = (Normal out, w')
            ∧ Store.shuffle_loop_ref i result h w = (Normal (<[result := out]> h), w').
Proof.
  revert h ys w. induction i as [| i IH]; intros h ys w Hr.
  - exists ys, w. split; [done |]. simpl. by rewrite insert_id.
  - destruct (random_index_lt (S i + 1) w ltac:(lia)) as (j & Hj & _).
    set (w1 := mkWorld _ _ _ _ _) in Hj.
    destruct (IH (<[result := swap (S i) j ys]> h) (swap (S i) j ys) w1)
      as (out & w' & Hval & Href); [by rewrite lookup_insert_eq |].
    exists out, w'. split.
    + cbn [shuffle_loop]. unfold mbind, Js_bind at 1. by rewrite Hj.
    + cbn [Store.shuffle_loop_ref]. unfold mbind, Js_bind at 1. rewrite Hj.
      unfold Store.swap_in_place. rewrite (alter_lookup_insert _ _ _ _ Hr).
      by rewrite Href, insert_insert_eq.
Qed.
End StoreShuffle.

(** C10.  Called on an array object, [shuffleArray] returns a new object and
    leaves the argument holding the same elements in the same order; no other
    object of the store changes either.  The new object holds what the
    value-level [shuffleArray] computes from the argument's elements. *)
Theorem shuffleArray_keeps_argument {T : Type}
    (h : gmap Store.ref (list T)) (array : Store.ref) (xs : list T) (w : World) :
  h !! array = Some xs →
  ∃ result h' w',
    Store.shuffleArray_ref array h w = (Normal (Some (result, h')), w')
    ∧ h' !! array = Some xs
    ∧ result ≠ array
    ∧ h !! result = None
    ∧ (∀ other, other ≠ result → h' !! other = h !! other)
    ∧ ∃ out, shuffleArray xs w = (Normal out, w') ∧ h' !! result = Some out ∧ out ≡ₚ xs.
Proof.
  intros Harray.
  unfold Store.shuffleArray_ref, Store.read, Store.alloc. rewrite Harray.
  set (result := fresh (dom h)).
  assert (Hfresh : h !! result = None).
  { apply not_elem_of_dom, is_fresh. }
  assert (Hne : result ≠ array) by congruence.
  destruct (shuffle_loop_ref_spec (length xs - 1) result (<[result := xs]> h) xs w)
    as (out & w' & Hval & Href); [by rewrite lookup_insert_eq |].
  rewrite insert_insert_eq in Href.
  exists result, (<[result := out]> h), w'.
  split; [by unfold mbind, Js_bind; rewrite Href |].
  split; [by rewrite lookup_insert_ne |].
  split; [done |]. split; [done |].
  split; [by intros other Ho; rewrite lookup_insert_ne |].
  exists out. split; [done |]. split; [by rewrite lookup_insert_eq |].
  destruct (shuffleArray_spec xs w) as (out' & Hout' & Hperm).
  unfold shuffleArray in Hout'. simpl in Hout'. congruence.
Qed.

Lemma shuffleArray_keeps_argument_witness :
  ∃ result h' w',
    Store.shuffleArray_ref 0%nat {[ 0%nat := [1; 2; 3; 4] ]} example_world
      = (Normal (Some (result, h')), w')
    ∧ h' !! 0%nat = Some [1; 2; 3; 4]
    ∧ result ≠ 0%nat
    ∧ ({[ 0%nat := [1; 2; 3; 4] ]} : gmap Store.ref (list Z)) !! result = None
    ∧ (∀ other, other ≠ result →
         h' !! other = ({[ 0%nat := [1; 2; 3; 4] ]} : gmap Store.ref (list Z)) !! other)
    ∧ ∃ out, shuffleArray [1; 2; 3; 4] example_world = (Normal out, w')
             ∧ h' !! result = Some out ∧ out ≡ₚ [1; 2; 3; 4].
Proof.
  apply (shuffleArray_keeps_argument {[ 0%nat := [1; 2; 3; 4] ]} 0%nat [1; 2; 3; 4]
           example_world).
  vm_compute. reflexivity.
Defined.

(** The caller's array [0] is intact; the copy [1] is permuted. *)
Example shuffleArray_ref_run :
  ∃ out,
    (Store.shuffleArray_ref 0%nat {[ 0%nat := [1; 2; 3; 4] ]} example_world).1
    = Normal (Some (1%nat, {[ 0%nat := [1; 2; 3; 4]; 1%nat := out ]}))
    ∧ out ≡ₚ [1; 2; 3; 4].
Proof.
  exists [3; 4; 1; 2]. split; [by vm_compute |].
  change [3; 4; 1; 2] with ([3; 4] ++ [1; 2]). by rewrite Permutation_app_comm.
Qed.

(** ** GET /api/review *)

Lemma is_true_param_spec p : is_true_param p = true ↔ p = Some "true".
Proof.
  destruct p as [s |]; simpl; [| done].
  rewrite String.eqb_eq. split; congruence.
Qed.

(** Without a (non-empty) [deckId] and without [listDecks=true] the handler
    answers with [getReviewQueue(!includeAll)]. *)
Lemma GET_default q w :
  q_deckId q = None ∨ q_deckId q = Some "" →
  is_true_param (q_listDecks q) = false →
  ∃ out w1 count w',
    getReviewQueue (negb (is_true_param (q_all q))) w = (Normal out, w1)
    ∧ getUrgentCount w1 = (Normal count, w')
    ∧ GET q w = (Normal (QueueJson out count (0 <? count)%nat URGENT_DECK_ID), w').
Proof.
  intros Hdeck Hlist.
  destruct (getReviewQueue_total (negb (is_true_param (q_all q))) w) as (out & w1 & Hq & _).
  destruct (getUrgentCount_total w1) as (count & w' & Hu & _).
  exists out, w1, count, w'. split; [done |]. split; [done |].
  unfold GET, try_catch. rewrite Hlist.
  destruct Hdeck as [-> | ->]; unfold mbind, Js_bind; by rewrite Hq, Hu.
Qed.

(** C4, as the specification states it, fails on the sets it names: in
    [dangling_world] card 3 is an eligible item of the urgent deck and card
    1 an eligible item of deck 6, neither deck having a row.  With
    [all=true] the blocking set, which is not empty, is not what is
    returned: the list is card 2, of deck 5, under [isBlocking: true].
    Without [all] the list is card 2 again, not the three eligible items. *)
Lemma GET_returns_item_of_other_deck :
  (∃ c, cards (db dangling_world) !! 3 = Some c ∧ c_did c = URGENT_DECK_ID
        ∧ ∀ dayNumber now, item_eligible dayNumber now c)
  ∧ (∃ c, cards (db dangling_world) !! 1 = Some c
          ∧ ∀ dayNumber now, item_eligible dayNumber now c)
  ∧ (GET (mkReviewQuery (Some "true") None None) dangling_world).1
    = Normal (QueueJson [row_of_card_2] 1 true URGENT_DECK_ID)
  ∧ (GET (mkReviewQuery None None None) dangling_world).1
    = Normal (QueueJson [row_of_card_2] 1 true URGENT_DECK_ID)
  ∧ did row_of_card_2 = 5 ∧ 5 ≠ URGENT_DECK_ID.
Proof.
  split; [| split; [| split; [by vm_compute |]; split; [by vm_compute |]; split; done]].
  - exists (set_deck URGENT_DECK_ID 8641000 (example_card 5 0 0)).
    split; [by vm_compute |]. split; [done |].
    intros dayNumber now. unfold item_eligible. simpl. lia.
  - exists (set_deck 6 8641000 (example_card 5 0 0)).
    split; [by vm_compute |].
    intros dayNumber now. unfold item_eligible. simpl. lia.
Qed.

(** C4, amended.  [GET /api/review] without a [deckId]: the response carries
    a card list unless [listDecks=true] was asked; that list is what
    [getReviewQueue] returns for the negation of the [all] flag, and no id
    occurs twice in it.  With the eligible set taken as the eligible items
    that have their note and deck rows, and the blocking set as its part in
    the urgent deck: when [all] is absent or not ['true'] the list holds
    exactly the eligible set, blocking set empty or not; with [all=true] the
    blocking rule applies: a non-empty blocking set is returned alone, and
    the eligible set only when the blocking set is empty. *)
Theorem GET_inverts_all_flag (q : ReviewQuery) (w : World) :
  q_deckId q = None ∨ q_deckId q = Some "" →
  ∃ day now w1 resp w',
    due_clock w = (Normal (day, now), w1)
    ∧ GET q w = (Normal resp, w')
    ∧ (is_true_param (q_listDecks q) = false → is_Some (response_cards resp))
    ∧ ∀ cards, response_cards resp = Some cards →
        (∃ w2, getReviewQueue (negb (is_true_param (q_all q))) w = (Normal cards, w2))
        ∧ NoDup (id <$> cards)
        ∧ (q_all q ≠ Some "true" →
           ∀ r, r ∈ cards ↔ in_eligible_set (db w) day now r)
        ∧ (q_all q = Some "true" →
           ((∃ r, in_blocking_set (db w) day now r) →
            (∀ r, r ∈ cards ↔ in_blocking_set (db w) day now r)
            ∧ (∀ r, r ∈ cards → did r = URGENT_DECK_ID))
           ∧ ((¬ ∃ r, in_blocking_set (db w) day now r) →
              ∀ r, r ∈ cards ↔ in_eligible_set (db w) day now r)).
Proof.
  intros Hdeck.
  destruct (due_clock_total w) as (day & now & m & Hclock).
  exists day, now, (clock_advanced m w).
  destruct (is_true_param (q_listDecks q)) eqn:Hlist.
  - (* listDecks branch: no card list *)
    assert (∃ w', GET q w = (Normal (DecksJson URGENT_DECK_ID), w')) as [w' HG].
    { unfold GET, try_catch, getDecksWithDueCounts. rewrite Hlist.
      unfold mbind, Js_bind. rewrite getTodayDayNumber_eq.
      destruct (stored_crt (db w)); eauto. }
    exists (DecksJson URGENT_DECK_ID), w'.
    split; [done |]. split; [done |]. split; [done |]. intros cards [=].
  - destruct (GET_default q w Hdeck Hlist) as (out & w1 & count & w' & Hq & Hu & HG).
    exists (QueueJson out count (0 <? count)%nat URGENT_DECK_ID), w'.
    split; [done |]. split; [done |]. split; [by eexists |].
    intros cards [= <-].
    destruct (getReviewQueue_sets (negb (is_true_param (q_all q))) w day now _ Hclock)
      as (out' & w2 & Hq' & Hnd & Hblock & Hall).
    assert (out' = out) as -> by congruence.
    split; [by eauto |]. split; [done |]. split.
    + intros Hno. apply Hall. left.
      destruct (is_true_param (q_all q)) eqn:Ht; [| done].
      by apply is_true_param_spec in Ht.
    + intros Htrue. apply is_true_param_spec in Htrue. rewrite Htrue in Hblock, Hall.
      simpl in Hblock, Hall. split.
      * intros Hex. split; [by apply Hblock |].
        intros r Hr. by apply (Hblock eq_refl Hex) in Hr as [_ ?].
      * intros Hno. apply Hall. by right.
Qed.

Lemma GET_inverts_all_flag_witness :
  ∃ day now w1 resp w',
    due_clock example_world = (Normal (day, now), w1)
    ∧ GET (mkReviewQuery (Some "true") None None) example_world = (Normal resp, w')
    ∧ (is_true_param None = false → is_Some (response_cards resp))
    ∧ ∀ cards, response_cards resp = Some cards →
        (∃ w2, getReviewQueue (negb (is_true_param (Some "true"))) example_world
               = (Normal cards, w2))
        ∧ NoDup (id <$> cards)
        ∧ (Some "true" ≠ Some "true" →
           ∀ r, r ∈ cards ↔ in_eligible_set (db example_world) day now r)
        ∧ (Some "true" = Some "true" →
           ((∃ r, in_blocking_set (db example_world) day now r) →
            (∀ r, r ∈ cards ↔ in_blocking_set (db example_world) day now r)
            ∧ (∀ r, r ∈ cards → did r = URGENT_DECK_ID))
           ∧ ((¬ ∃ r, in_blocking_set (db example_world) day now r) →
              ∀ r, r ∈ cards ↔ in_eligible_set (db example_world) day now r)).
Proof.
  apply (GET_inverts_all_flag (mkReviewQuery (Some "true") None None) example_world).
  left. reflexivity.
Defined.

(** On the example world the urgent deck has an eligible card (id 2): the
    plain request returns the cards of all decks, [all=true] only card 2. *)
Example GET_runs :
  (id <$> default [] ((λ r, match r with Normal resp => response_cards resp | _ => None end)
                        (GET (mkReviewQuery None None None) example_world).1)) ≡ₚ [1; 2; 3]
  ∧ (id <$> default [] ((λ r, match r with Normal resp => response_cards resp | _ => None end)
                        (GET (mkReviewQuery (Some "true") None None) example_world).1)) = [2].
Proof.
  split; [| by vm_compute].
  transitivity [2; 1; 3]; [by vm_compute | apply perm_swap].
Qed.

(** ** One call, two clock readings *)

(** C7, as the specification states it, fails: [getTodayDayNumber] reads the
    clock before midnight (day 0) and [getReviewQueue] reads it again after
    (second 87400, which is on day 1), so the day number is not the one of
    [now]; the learning card due at 87400 is returned, the review card due
    on day 1 is not. *)
Lemma day_number_from_earlier_reading :
  stored_crt (db midnight_world) = Some 1000
  ∧ (due_clock midnight_world).1 = Normal (0, 87400)
  ∧ 0 ≠ (87400 - 1000) / 86400
  ∧ (id <$> default [] ((λ r, match r with Normal l => Some l | _ => None end)
                          (getReviewQueue false midnight_world).1)) = [2].
Proof.
  split; [by vm_compute |]. split; [by vm_compute |].
  split; [| by vm_compute].
  vm_compute. discriminate.
Qed.

(** C7, amended.  In one [getReviewQueue] call the day number and the
    timestamp are each computed once, before the queries, and the urgent
    query and the cross-deck query use that same pair.  They come from two
    successive clock readings: with a stored creation time, [todayDayNum] is
    [floor((floor(t1 / 1000) - creationTime) / 86400)] for the reading [t1]
    taken inside [getTodayDayNumber], and [nowTimestamp] is
    [floor(t2 / 1000)] for the next reading [t2]; when both readings fall in
    the same second, [todayDayNum = floor((nowTimestamp - creationTime) /
    86400)]. *)
Theorem getReviewQueue_clock_readings (w : World) (includeNonUrgent : bool) :
  ∃ dayNumber now w1 out w',
    due_clock w = (Normal (dayNumber, now), w1)
    ∧ getReviewQueue includeNonUrgent w = (Normal out, w')
    ∧ (out ≡ₚ select_due_in_deck (Some URGENT_DECK_ID) dayNumber now (db w)
       ∨ (out ≡ₚ select_due_all dayNumber now (db w)
          ∧ (includeNonUrgent = true
             ∨ select_due_in_deck (Some URGENT_DECK_ID) dayNumber now (db w) = [])))
    ∧ ∀ creationTime, stored_crt (db w) = Some creationTime →
        let t1 := clock w (clock_reads w) in
        let t2 := clock w (S (clock_reads w)) in
        dayNumber = (t1 / 1000 - creationTime) / 86400
        ∧ now = t2 / 1000
        ∧ (t1 / 1000 = t2 / 1000 → dayNumber = (now - creationTime) / 86400).
Proof.
  destruct (due_clock_total w) as (day & now & m & Hclock).
  destruct (getReviewQueue_spec includeNonUrgent w day now _ Hclock)
    as (out & w' & Hq & _ & Hperm).
  exists day, now, (clock_advanced m w), out, w'.
  split; [done |]. split; [done |]. split.
  - case_bool_decide as Hu; simpl in Hperm.
    + destruct includeNonUrgent; simpl in Hperm; [right | left]; eauto.
    + right. split; [done |]. right.
      destruct (select_due_in_deck _ _ _ _); [done |]. by destruct Hu.
  - intros crt Hcrt. rewrite due_clock_eq, Hcrt in Hclock.
    injection Hclock as <- <- _. simpl.
    split; [done |]. split; [done |]. by intros ->.
Qed.

(** ** Rows the queries never return *)

Lemma select_due_all_inv day now d r :
  r ∈ select_due_all day now d →
  ∃ c, cards d !! id r = Some c ∧ due_where day now c = true
       ∧ is_Some (notes d !! c_nid c) ∧ is_Some (decks d !! c_did c).
Proof.
  unfold select_due_all. rewrite list_elem_of_fmap.
  intros ([[[i c] n] k] & -> & [HP Hin]%list_elem_of_filter).
  apply elem_of_cards_join in Hin as (Hc & Hn & Hk).
  exists c. simpl in *. rewrite Is_true_true in HP. eauto.
Qed.

Lemma select_due_in_deck_subseteq deckId day now d r :
  r ∈ select_due_in_deck deckId day now d → r ∈ select_due_all day now d.
Proof.
  destruct deckId as [deckId |].
  - rewrite select_due_in_deck_restrict, list_elem_of_filter. tauto.
  - rewrite select_due_in_deck_NaN. by intros ?%elem_of_nil.
Qed.

(** What any due query returns was selected by the cross-deck [WHERE]
    clause at the readings of that call. *)
Lemma queue_rows_selected later day now w1 :
  due_clock later = (Normal (day, now), w1) →
  (∀ includeNonUrgent out w2,
     getReviewQueue includeNonUrgent later = (Normal out, w2) →
     ∀ r, r ∈ out → r ∈ select_due_all day now (db later))
  ∧ (∀ deckId out w2,
       getReviewQueueByDeck deckId later = (Normal out, w2) →
       ∀ r, r ∈ out → r ∈ select_due_all day now (db later)).
Proof.
  intros Hclock. split.
  - intros b out w2 Hq r Hr.
    destruct (getReviewQueue_spec b later day now _ Hclock) as (out' & w2' & Hq' & _ & Hperm).
    assert (out' = out) as -> by congruence.
    rewrite Hperm in Hr. destruct (_ && _); [| done].
    by eapply select_due_in_deck_subseteq.
  - intros deckId out w2 Hq r Hr.
    destruct (getReviewQueueByDeck_spec deckId later day now _ Hclock)
      as (out' & w2' & Hq' & _ & Hperm).
    assert (out' = out) as -> by congruence.
    rewrite Hperm in Hr. by eapply select_due_in_deck_subseteq.
Qed.

(** A card whose deck row (or note row) is missing is in no queue: the
    queries select from the join. *)
Lemma card_without_deck_never_selected later i c :
  cards (db later) !! i = Some c →
  notes (db later) !! c_nid c = None ∨ decks (db later) !! c_did c = None →
  ∀ includeNonUrgent out w2,
    getReviewQueue includeNonUrgent later = (Normal out, w2) →
    ∀ r, r ∈ out → id r ≠ i.
Proof.
  intros Hc Hmissing b out w2 Hq r Hr Hid.
  destruct (due_clock_total later) as (day & now & m & Hclock).
  destruct (queue_rows_selected later day now _ Hclock) as [Hall _].
  apply (Hall b out w2 Hq) in Hr.
  apply select_due_all_inv in Hr as (c' & Hc' & _ & [n Hn] & [k Hk]).
  rewrite Hid in Hc'. simplify_eq. destruct Hmissing; congruence.
Qed.

(** After [complete] the card is suspended; no due query run on the
    resulting database returns it, whatever the clock says. *)
Theorem complete_is_sticky (w : World) (cardId : Z) (c : CardRow) :
  cards (db w) !! cardId = Some c →
  ∃ w' c',
    updateCardSchedule cardId "complete" w = (Normal (), w')
    ∧ cards (db w') !! cardId = Some c'
    ∧ c_queue c' = -1
    ∧ ∀ later, db later = db w' →
        (∀ includeNonUrgent out w2,
           getReviewQueue includeNonUrgent later = (Normal out, w2) →
           ∀ r, r ∈ out → id r ≠ cardId)
        ∧ (∀ deckId out w2,
             getReviewQueueByDeck deckId later = (Normal out, w2) →
             ∀ r, r ∈ out → id r ≠ cardId).
Proof.
  intros Hc.
  destruct (schedule_clock_total w) as (now & day & m & Hclock).
  rewrite (updateCardSchedule_eq cardId "complete" w now day _ Hclock). simpl.
  eexists _, (set_complete now c).
  split; [reflexivity |].
  split; [by simpl; rewrite lookup_alter_eq, Hc |]. split; [done |].
  intros later Hdb.
  assert (Hcards : cards (db later) !! cardId = Some (set_complete now c)).
  { rewrite Hdb. simpl. by rewrite lookup_alter_eq, Hc. }
  destruct (due_clock_total later) as (day' & now' & m' & Hlater).
  destruct (queue_rows_selected later day' now' _ Hlater) as [Hall Hdeck].
  assert (Hno : ∀ r, r ∈ select_due_all day' now' (db later) → id r ≠ cardId).
  { intros r Hr Hid.
    apply select_due_all_inv in Hr as (c' & Hc' & Hw & _).
    rewrite Hid, Hcards in Hc'. injection Hc' as <-.
    apply due_where_true in Hw. simpl in Hw. lia. }
  split.
  - intros b out w2 Hq r Hr. by eapply Hno, Hall.
  - intros deckId out w2 Hq r Hr. by eapply Hno, Hdeck.
Qed.

Lemma complete_is_sticky_witness :
  ∃ w' c',
    updateCardSchedule 1 "complete" example_world = (Normal (), w')
    ∧ cards (db w') !! 1 = Some c'
    ∧ c_queue c' = -1
    ∧ ∀ later, db later = db w' →
        (∀ includeNonUrgent out w2,
           getReviewQueue includeNonUrgent later = (Normal out, w2) →
           ∀ r, r ∈ out → id r ≠ 1)
        ∧ (∀ deckId out w2,
             getReviewQueueByDeck deckId later = (Normal out, w2) →
             ∀ r, r ∈ out → id r ≠ 1).
Proof.
  apply (complete_is_sticky example_world 1 (example_card 5 2 100)).
  vm_compute. reflexivity.
Defined.

(** * Further properties of db.ts *)

(** ** checksumFirstField *)

Lemma ToInt32_mod x : ToInt32 x mod 2 ^ 32 = x mod 2 ^ 32.
Proof.
  unfold ToInt32. destruct (x mod 2 ^ 32 <? 2 ^ 31).
  - apply Z.mod_mod. lia.
  - rewrite <- (Z.mod_mod x (2 ^ 32)) at 2 by lia.
    rewrite <- (Z_mod_plus_full (x mod 2 ^ 32 - 2 ^ 32) 1 (2 ^ 32)). f_equal. lia.
Qed.

Lemma ToInt32_range x : - 2 ^ 31 ≤ ToInt32 x < 2 ^ 31.
Proof.
  unfold ToInt32. pose proof (Z.mod_pos_bound x (2 ^ 32) ltac:(lia)).
  destruct (Z.ltb_spec (x mod 2 ^ 32) (2 ^ 31)); lia.
Qed.

(** [ToInt32] only sees the residue modulo 2^32. *)
Lemma ToInt32_congr x y : x mod 2 ^ 32 = y mod 2 ^ 32 → ToInt32 x = ToInt32 y.
Proof. unfold ToInt32. by intros ->. Qed.

Lemma checksum_step_eq hash char : checksum_step hash char = ToInt32 (31 * hash + char).
Proof.
  unfold checksum_step, bit_and32, shift_left32. rewrite Z.land_diag.
  apply ToInt32_congr. rewrite Z.shiftl_mul_pow2 by lia.
  rewrite Z.add_mod, Zminus_mod, ToInt32_mod by lia.
  rewrite Z.mul_mod, ToInt32_mod, <- Z.mul_mod by lia.
  rewrite <- Zminus_mod, <- Z.add_mod by lia. f_equal. lia.
Qed.

Lemma checksum_fold units hash :
  fold_left checksum_step units (ToInt32 hash)
  = ToInt32 (fold_left (λ h c, 31 * h + c) units hash).
Proof.
  revert hash. induction units as [| c units IH]; intros hash; [done |].
  simpl. rewrite <- IH. f_equal. rewrite checksum_step_eq.
  apply ToInt32_congr.
  rewrite Z.add_mod, Z.mul_mod, ToInt32_mod, <- Z.mul_mod, <- Z.add_mod by lia. done.
Qed.

Lemma checksum_units_eq units :
  checksum_units units = Z.abs (ToInt32 (fold_left (λ h c, 31 * h + c) units 0)).
Proof.
  unfold checksum_units.
  pose proof (checksum_fold units 0) as Hfold.
  change (ToInt32 0) with 0 in Hfold. by rewrite Hfold.
Qed.

Lemma checksum_units_range units : 0 ≤ checksum_units units ≤ 2 ^ 31.
Proof.
  rewrite checksum_units_eq.
  pose proof (ToInt32_range (fold_left (λ h c, 31 * h + c) units 0)). lia.
Qed.

(** The checksum is the 31-polynomial hash of the code units, wrapped to 32
    bits at the end instead of at every step, without its sign.  It lies
    between 0 and 2^31, and 2^31 itself (a value no signed 32-bit integer
    holds) is the checksum of some field. *)
Theorem checksum_is_polynomial_hash :
  (∀ units : list Z,
     checksum_units units = Z.abs (ToInt32 (fold_left (λ h c, 31 * h + c) units 0))
     ∧ 0 ≤ checksum_units units ≤ 2 ^ 31)
  ∧ ∃ field, checksumFirstField field = 2 ^ 31.
Proof.
  split.
  - intros units. split; [apply checksum_units_eq | apply checksum_units_range].
  - exists "polygenelubricants". by vm_compute.
Qed.

(** ** Strings as lists of characters *)

Lemma chars_app s t : chars (s +:+ t) = chars s ++ chars t.
Proof. induction s as [| c s IH]; [done |]. simpl. by rewrite IH. Qed.

Lemma chars_length s : length (chars s) = String.length s.
Proof. induction s as [| c s IH]; [done |]. simpl. by rewrite IH. Qed.

Lemma chars_get s k : String.get k s = chars s !! k.
Proof.
  revert k. induction s as [| c s IH]; intros [| k]; simpl; auto.
Qed.

Lemma chars_inj s t : chars s = chars t → s = t.
Proof.
  intros H. rewrite <- (String.string_of_list_ascii_of_string s),
    <- (String.string_of_list_ascii_of_string t). by rewrite H.
Qed.

Lemma chars_substring0 n s : chars (substring0 n s) = take n (chars s).
Proof.
  unfold substring0. revert n. induction s as [| c s IH]; intros [| n]; simpl; try done.
  by rewrite IH.
Qed.

(** ** generateGuid *)

Lemma charAt_in_range s k :
  (k < String.length s)%nat →
  ∃ c, charAt s k = String c EmptyString ∧ c ∈ chars s.
Proof.
  intros Hk. unfold charAt. rewrite chars_get.
  destruct (lookup_lt_is_Some_2 (chars s) k) as [c Hc]; [by rewrite chars_length |].
  rewrite Hc. exists c. split; [done |]. by eapply list_elem_of_lookup_2.
Qed.

Lemma generateGuid_loop_spec left result w :
  ∃ suffix,
    generateGuid_loop left result w =
      (Normal (result +:+ suffix),
       mkWorld (db w) (clock w) (clock_reads w) (entropy w) (left + random_draws w))
    ∧ String.length suffix = left
    ∧ ∀ c, c ∈ chars suffix → c ∈ chars guid_chars.
Proof.
  revert result w. induction left as [| left IH]; intros result w.
  - exists EmptyString. split; [| split; [done | by intros c ?%elem_of_nil]].
    destruct w. simpl. unfold mret, Js_ret. do 2 f_equal.
    apply chars_inj. by rewrite chars_app, app_nil_r.
  - destruct (random_index_lt (String.length guid_chars) w ltac:(vm_compute; lia))
      as (k & Hk & Hlt).
    destruct (charAt_in_range guid_chars k Hlt) as (c & Hc & Hin).
    destruct (IH (result +:+ charAt guid_chars k)
                (mkWorld (db w) (clock w) (clock_reads w) (entropy w) (S (random_draws w))))
      as (suffix & Hloop & Hlen & Hall).
    exists (String c suffix). split; [| split].
    + cbn [generateGuid_loop]. unfold mbind, Js_bind at 1. rewrite Hk, Hloop. simpl.
      f_equal; [f_equal | f_equal; lia].
      apply chars_inj. rewrite Hc, !chars_app. simpl. by rewrite <- app_assoc.
    + simpl. by rewrite Hlen.
    + intros c'. simpl. rewrite elem_of_cons. intros [-> | Hc']; [done | by apply Hall].
Qed.

(** [generateGuid] returns normally a string of exactly ten characters, each
    a letter or a digit of its alphabet, and draws ten random numbers. *)
Theorem generateGuid_ten_alphanumerics (w : World) :
  ∃ guid,
    generateGuid w =
      (Normal guid,
       mkWorld (db w) (clock w) (clock_reads w) (entropy w) (10 + random_draws w))
    ∧ String.length guid = 10%nat
    ∧ ∀ c, c ∈ chars guid → c ∈ chars guid_chars.
Proof.
  destruct (generateGuid_loop_spec 10 "" w) as (suffix & Hloop & Hlen & Hall).
  exists suffix. done.
Qed.

(** ** Global replace, tags, split *)

Lemma replace_scan_elem matcher rep skip s c :
  c ∈ chars (replace_scan matcher rep skip s) → c ∈ chars rep ∨ c ∈ chars s.
Proof.
  revert skip. induction s as [| a s IH]; intros skip; cbn [replace_scan].
  - by intros ?%elem_of_nil.
  - cbn [String.list_ascii_of_string]. destruct skip as [| skip].
    + destruct (matcher (String a s)) as [n |].
      * rewrite chars_app, elem_of_app. intros [? | H]; [by left |].
        destruct (IH _ H); [by left | right; by right].
      * cbn [String.list_ascii_of_string]. rewrite !elem_of_cons. intros [-> | H]; [right; by left |].
        destruct (IH _ H); [by left | right; by right].
    + intros H. destruct (IH _ H); [by left | right; by right].
Qed.

Lemma index_of_None c s : index_of c s = None ↔ c ∉ chars s.
Proof.
  induction s as [| a s IH]; simpl.
  - split; [intros _; apply not_elem_of_nil | done].
  - rewrite not_elem_of_cons. destruct (Ascii.eqb_spec a c) as [-> | Hne].
    + split; [done | by intros []].
    + rewrite fmap_None, IH. split; [by intros ?; split | by intros []].
Qed.

Lemma tag_free_cons c l :
  tag_free l → (c = "<"%char → ">"%char ∉ l) → tag_free (c :: l).
Proof.
  intros Hl Hc [| c' a] b Heq; simplify_eq/=.
  - by apply Hc.
  - by eapply Hl.
Qed.

Lemma tag_free_app l1 l2 : "<"%char ∉ l1 → tag_free l2 → tag_free (l1 ++ l2).
Proof.
  intros H1 H2. induction l1 as [| c l1 IH]; [done |].
  apply not_elem_of_cons in H1 as [Hc H1]. simpl.
  apply tag_free_cons; [by apply IH | done].
Qed.

Lemma tag_free_take n l : tag_free l → tag_free (take n l).
Proof.
  intros Hl a b Heq Hin.
  apply (Hl a (b ++ drop n l)).
  - rewrite <- (take_drop n l) at 1. rewrite Heq. by rewrite <- app_assoc.
  - apply elem_of_app. by left.
Qed.

(** What is left after replacing every tag holds no complete tag, when the
    replacement brings in neither ["<"] nor [">"]. *)
Lemma replace_tags_tag_free rep skip s :
  "<"%char ∉ chars rep → ">"%char ∉ chars rep →
  tag_free (chars (replace_scan match_tag rep skip s)).
Proof.
  intros Hlt Hgt. revert skip. induction s as [| c s IH]; intros skip; cbn [replace_scan].
  - intros [| ??] ??; simplify_eq/=.
  - destruct skip as [| skip]; [| apply IH].
    destruct (match_tag (String c s)) as [n |] eqn:Hm.
    + rewrite chars_app. by apply tag_free_app.
    + cbn [String.list_ascii_of_string]. apply tag_free_cons; [apply IH |].
      intros -> Hin. simpl in Hm. apply fmap_None, index_of_None in Hm.
      apply replace_scan_elem in Hin as [? | ?]; done.
Qed.

(** A string without ["<"] has no tag to replace. *)
Lemma replace_tags_none rep s :
  "<"%char ∉ chars s → replace_global match_tag rep s = s.
Proof.
  unfold replace_global. induction s as [| c s IH]; [done |]. simpl.
  rewrite not_elem_of_cons. intros [Hc Hs].
  destruct c as [[] [] [] [] [] [] [] []]; try (by rewrite IH); done.
Qed.

Lemma split_head sep s :
  ∃ field fields,
    split sep s = field :: fields
    ∧ (sep ∉ chars field)
    ∧ (∀ c, c ∈ chars field → c ∈ chars s)
    ∧ (String.length field ≤ String.length s)%nat
    ∧ (sep ∉ chars s → field = s ∧ fields = []).
Proof.
  induction s as [| c s (field & fields & Hs & Hsep & Hsub & Hlen & Hall)];
    cbn [split String.list_ascii_of_string].
  - exists EmptyString, []. split; [done |]. split; [apply not_elem_of_nil |]. done.
  - destruct (Ascii.eqb_spec c sep) as [-> | Hne].
    + exists EmptyString, (split sep s). split; [done |].
      split; [apply not_elem_of_nil |]. split; [by intros c ?%elem_of_nil |].
      split; [simpl; lia |]. intros []. by left.
    + rewrite Hs. exists (String c field), fields.
      cbn [String.list_ascii_of_string String.length].
      split; [done |]. split; [| split; [| split]].
      * rewrite not_elem_of_cons. by split.
      * intros c'. rewrite !elem_of_cons. intros [-> | ?]; [by left | right; by apply Hsub].
      * lia.
      * rewrite not_elem_of_cons. intros [_ Hs']. destruct (Hall Hs') as [-> ->]. done.
Qed.

(** The sort field of a new note: at most 60 characters, all taken from
    the first field (so no field separator), and without any complete tag;
    a field list of at most 60 characters with neither separator nor ["<"]
    is kept as it is. *)
Theorem sort_field_spec (flds : string) :
  (String.length (sort_field flds) ≤ 60)%nat
  ∧ (unit_separator ∉ chars (sort_field flds))
  ∧ tag_free (chars (sort_field flds))
  ∧ (∀ c, c ∈ chars (sort_field flds) → c ∈ chars flds)
  ∧ (unit_separator ∉ chars flds → "<"%char ∉ chars flds →
     (String.length flds ≤ 60)%nat → sort_field flds = flds).
Proof.
  unfold sort_field.
  destruct (split_head unit_separator flds) as (field & fields & -> & Hsep & Hsub & _ & Hall).
  cbn [head default from_option]. unfold Datatypes.id.
  assert (Helem : ∀ c, c ∈ chars (substring0 60 (replace_global match_tag "" field)) →
                       c ∈ chars field).
  { intros c. rewrite chars_substring0. intros Hc.
    apply (subseteq_take 60) in Hc.
    apply replace_scan_elem in Hc as [Hc | Hc]; [by apply elem_of_nil in Hc | done]. }
  split; [| split; [| split; [| split]]].
  - rewrite <- chars_length, chars_substring0, length_take. apply Nat.le_min_l.
  - intros Hin. by apply Hsep, Helem.
  - rewrite chars_substring0. apply tag_free_take, replace_tags_tag_free; apply not_elem_of_nil.
  - intros c Hc. by apply Hsub, Helem.
  - intros Hs Hlt Hlen. destruct (Hall Hs) as [-> _].
    rewrite replace_tags_none by done.
    apply chars_inj. rewrite chars_substring0, take_ge; [done |].
    rewrite chars_length. lia.
Qed.

(** ** createNote and createCard *)

Lemma createCard_eq noteId deckId w :
  let now := clock w (clock_reads w) / 1000 in
  createCard noteId deckId w =
    match cards (db w) !! (now * 1000) with
    | Some _ => (Throw "UNIQUE constraint failed: cards.id", clock_advanced 1 w)
    | None =>
        (Normal (now * 1000),
         with_cards (<[now * 1000 :=
                        {| c_nid := noteId; c_did := deckId; c_ord := 0; c_mod := now;
                           c_type := 0; c_queue := 0; c_due := 0; c_ivl := 0;
                           c_factor := 0; c_reps := 0; c_lapses := 0 |}]>
                       (cards (db w)))
                    (clock_advanced 1 w))
    end.
Proof.
  unfold createCard, mbind, Js_bind at 1. rewrite now_seconds_eq.
  unfold Js_bind, insert_card. simpl.
  by destruct (cards (db w) !! (clock w (clock_reads w) / 1000 * 1000)).
Qed.



Lemma createNote_values_eq mid flds tags w :
  ∃ guid,
    createNote_values mid flds tags w =
      (Normal {| v_id := clock w (clock_reads w) / 1000 * 1000; v_guid := guid; v_mid := mid;
                 v_mod := clock w (clock_reads w) / 1000; v_tags := tags; v_flds := flds;
                 v_sfld := sort_field flds;
                 v_csum := checksumFirstField (sort_field flds) |},
       mkWorld (db w) (clock w) (S (clock_reads w)) (entropy w) (10 + random_draws w))
    ∧ String.length guid = 10%nat
    ∧ ∀ c, c ∈ chars guid → c ∈ chars guid_chars.
Proof.
  destruct (generateGuid_loop_spec 10 "" (clock_advanced 1 w)) as (guid & Hg & Hlen & Hall).
  exists guid. split; [| done].
  unfold createNote_values, mbind, Js_bind at 1. rewrite now_seconds_eq.
  unfold Js_bind at 1, generateGuid. by rewrite Hg.
Qed.

Lemma createNote_eq mid flds tags w :
  let now := clock w (clock_reads w) / 1000 in
  let w1 := mkWorld (db w) (clock w) (S (clock_reads w)) (entropy w) (10 + random_draws w) in
  createNote mid flds tags w =
    match notes (db w) !! (now * 1000) with
    | Some _ => (Throw "UNIQUE constraint failed: notes.id", w1)
    | None =>
        (Normal (now * 1000),
         with_notes (<[now * 1000 := mkNoteRow flds tags]> (notes (db w))) w1)
    end.
Proof.
  destruct (createNote_values_eq mid flds tags w) as (guid & Hv & _).
  unfold createNote, mbind, Js_bind at 1. rewrite Hv.
  unfold Js_bind, insert_note. simpl.
  by destruct (notes (db w) !! (clock w (clock_reads w) / 1000 * 1000)).
Qed.

(** [createNote] stores the note under the id [now * 1000] and returns that
    id; reading it back with [getNote] gives the fields and tags passed in.
    The values it inserts: a guid of ten letters and digits, the sort field
    of [flds], and that sort field's checksum, which lies in [0, 2^31]. *)
Theorem createNote_then_getNote (w : World) (mid : Z) (flds tags : string) :
  notes (db w) !! (clock w (clock_reads w) / 1000 * 1000) = None →
  ∃ noteId w' v w0,
    createNote mid flds tags w = (Normal noteId, w')
    ∧ createNote_values mid flds tags w = (Normal v, w0)
    ∧ noteId = clock w (clock_reads w) / 1000 * 1000
    ∧ v_id v = noteId ∧ v_mod v = clock w (clock_reads w) / 1000
    ∧ v_flds v = flds ∧ v_tags v = tags ∧ v_mid v = mid
    ∧ String.length (v_guid v) = 10%nat
    ∧ (∀ c, c ∈ chars (v_guid v) → c ∈ chars guid_chars)
    ∧ v_sfld v = sort_field flds
    ∧ v_csum v = checksumFirstField (v_sfld v)
    ∧ 0 ≤ v_csum v ≤ 2 ^ 31
    ∧ (getNote (Some noteId) w').1 = Normal (Some (mkNoteRow flds tags))
    ∧ (∀ other, other ≠ noteId → notes (db w') !! other = notes (db w) !! other)
    ∧ cards (db w') = cards (db w) ∧ decks (db w') = decks (db w).
Proof.
  intros Hfree.
  destruct (createNote_values_eq mid flds tags w) as (guid & Hv & Hlen & Hall).
  pose proof (createNote_eq mid flds tags w) as Heq. simpl in Heq.
  rewrite Hfree in Heq. rewrite Heq, Hv. clear Heq Hv.
  eexists _, _, _, _. split; [reflexivity |]. split; [reflexivity |]. simpl.
  do 10 (split; [done |]).
  split; [apply checksum_units_range |].
  split; [by unfold getNote, mbind, Js_bind, getDb; simpl; rewrite lookup_insert_eq |].
  split; [by intros other Ho; rewrite lookup_insert_ne |]. done.
Qed.

Lemma createNote_then_getNote_witness :
  ∃ noteId w' v w0,
    createNote 1 "front<b>" "tag" example_world = (Normal noteId, w')
    ∧ createNote_values 1 "front<b>" "tag" example_world = (Normal v, w0)
    ∧ noteId = clock example_world (clock_reads example_world) / 1000 * 1000
    ∧ v_id v = noteId ∧ v_mod v = clock example_world (clock_reads example_world) / 1000
    ∧ v_flds v = "front<b>" ∧ v_tags v = "tag" ∧ v_mid v = 1
    ∧ String.length (v_guid v) = 10%nat
    ∧ (∀ c, c ∈ chars (v_guid v) → c ∈ chars guid_chars)
    ∧ v_sfld v = sort_field "front<b>"
    ∧ v_csum v = checksumFirstField (v_sfld v)
    ∧ 0 ≤ v_csum v ≤ 2 ^ 31
    ∧ (getNote (Some noteId) w').1 = Normal (Some (mkNoteRow "front<b>" "tag"))
    ∧ (∀ other, other ≠ noteId →
         notes (db w') !! other = notes (db example_world) !! other)
    ∧ cards (db w') = cards (db example_world) ∧ decks (db w') = decks (db example_world).
Proof.
  apply (createNote_then_getNote example_world 1 "front<b>" "tag").
  vm_compute. reflexivity.
Defined.

(** The ids of new notes and cards are the second of creation times 1000:
    when the clock is still in the same second at the next reading, a second
    [createCard] (or [createNote]) after a successful one throws on the
    primary key and stores nothing. *)
Theorem second_creation_in_same_second_throws (w : World) :
  clock w (S (clock_reads w)) / 1000 = clock w (clock_reads w) / 1000 →
  (∀ noteId deckId cardId w1,
     createCard noteId deckId w = (Normal cardId, w1) →
     ∀ noteId' deckId', ∃ e w2,
       createCard noteId' deckId' w1 = (Throw e, w2) ∧ db w2 = db w1)
  ∧ (∀ mid flds tags noteId w1,
       createNote mid flds tags w = (Normal noteId, w1) →
       ∀ mid' flds' tags', ∃ e w2,
         createNote mid' flds' tags' w1 = (Throw e, w2) ∧ db w2 = db w1).
Proof.
  intros Hsame. split.
  - intros noteId deckId cardId w1 Hc noteId' deckId'.
    pose proof (createCard_eq noteId deckId w) as Heq. simpl in Heq.
    rewrite Hc in Heq.
    destruct (cards (db w) !! (clock w (clock_reads w) / 1000 * 1000)); [done |].
    injection Heq as -> ->.
    pose proof (createCard_eq noteId' deckId'
      (with_cards (<[clock w (clock_reads w) / 1000 * 1000 :=
         {| c_nid := noteId; c_did := deckId; c_ord := 0;
            c_mod := clock w (clock_reads w) / 1000; c_type := 0; c_queue := 0;
            c_due := 0; c_ivl := 0; c_factor := 0; c_reps := 0; c_lapses := 0 |}]>
         (cards (db w))) (clock_advanced 1 w))) as Heq'.
    simpl in Heq'. rewrite Hsame, lookup_insert_eq in Heq'.
    eexists _, _. split; [exact Heq' | done].
  - intros mid flds tags noteId w1 Hc mid' flds' tags'.
    pose proof (createNote_eq mid flds tags w) as Heq. simpl in Heq.
    rewrite Hc in Heq.
    destruct (notes (db w) !! (clock w (clock_reads w) / 1000 * 1000)); [done |].
    injection Heq as -> ->.
    pose proof (createNote_eq mid' flds' tags'
      (with_notes (<[clock w (clock_reads w) / 1000 * 1000 := mkNoteRow flds tags]>
         (notes (db w)))
         (mkWorld (db w) (clock w) (S (clock_reads w)) (entropy w) (10 + random_draws w))))
      as Heq'.
    simpl in Heq'. rewrite Hsame, lookup_insert_eq in Heq'.
    eexists _, _. split; [exact Heq' | done].
Qed.

Lemma second_creation_in_same_second_throws_witness :
  (∀ noteId deckId cardId w1,
     createCard noteId deckId example_world = (Normal cardId, w1) →
     ∀ noteId' deckId', ∃ e w2,
       createCard noteId' deckId' w1 = (Throw e, w2) ∧ db w2 = db w1)
  ∧ (∀ mid flds tags noteId w1,
       createNote mid flds tags example_world = (Normal noteId, w1) →
       ∀ mid' flds' tags', ∃ e w2,
         createNote mid' flds' tags' w1 = (Throw e, w2) ∧ db w2 = db w1).
Proof.
  apply (second_creation_in_same_second_throws example_world).
  vm_compute. reflexivity.
Defined.

(** ** deleteCard *)

Lemma count_cards_of_note_0 noteId (cs : gmap Z CardRow) :
  count_cards_of_note noteId cs = 0%nat ↔
  ∀ j c, cs !! j = Some c → c_nid c ≠ noteId.
Proof.
  unfold count_cards_of_note. split.
  - intros Hnil%nil_length_inv j c Hj Hn.
    eapply (filter_nil_not_elem_of _ _ (j, c)); [exact Hnil | done |].
    by apply elem_of_map_to_list.
  - intros Hall.
    rewrite (elem_of_nil_inv (filter _ _)); [done |].
    intros [j c] [Hn Hin%elem_of_map_to_list]%list_elem_of_filter.
    by eapply Hall.
Qed.

Lemma count_cards_of_note_pos noteId (cs : gmap Z CardRow) :
  count_cards_of_note noteId cs ≠ 0%nat →
  ∃ j c, cs !! j = Some c ∧ c_nid c = noteId.
Proof.
  unfold count_cards_of_note.
  destruct (filter _ _) as [| [j c] l] eqn:Hf; [done |]. intros _.
  assert (Hin : (j, c) ∈ filter (λ r : Z * CardRow, c_nid r.2 = noteId) (map_to_list cs)).
  { rewrite Hf. by left. }
  apply list_elem_of_filter in Hin as [Hn Hin%elem_of_map_to_list]. by exists j, c.
Qed.

Lemma deleteCard_eq cardId w :
  deleteCard cardId w =
    match cardId ≫= (λ i, (λ c, (i, c_nid c)) <$> cards (db w) !! i) with
    | Some (i, card_nid) =>
        (Normal (),
         with_notes
           (if bool_decide (count_cards_of_note card_nid (delete i (cards (db w))) = 0%nat)
            then delete card_nid (notes (db w)) else notes (db w))
           (with_cards (delete i (cards (db w))) w))
    | None => (Normal (), w)
    end.
Proof.
  unfold deleteCard, mbind at 1, Js_bind at 1, getDb.
  destruct (cardId ≫= _) as [[i card_nid] |]; [| done].
  unfold mbind, Js_bind, delete_cards_where_id, getDb. simpl.
  by case_bool_decide.
Qed.

(** A number that is the id of no card ([NaN] included) deletes nothing. *)
Lemma deleteCard_unknown cardId w :
  (∀ i, cardId = Some i → cards (db w) !! i = None) →
  deleteCard cardId w = (Normal (), w).
Proof.
  intros Hnone. rewrite deleteCard_eq.
  destruct cardId as [i |]; [| done]. simpl. by rewrite (Hnone i).
Qed.

(** Rows of a due query, read back as stored rows. *)
Lemma elem_of_select_due_all_iff day now d r :
  r ∈ select_due_all day now d ↔
  ∃ i c n k, r = select_columns (i, c, n, k)
             ∧ cards d !! i = Some c ∧ notes d !! c_nid c = Some n
             ∧ decks d !! c_did c = Some k ∧ due_where day now c = true.
Proof.
  unfold select_due_all. rewrite list_elem_of_fmap. split.
  - intros ([[[i c] n] k] & -> & [HP Hin]%list_elem_of_filter).
    apply elem_of_cards_join in Hin as (Hc & Hn & Hk). simpl in HP.
    apply Is_true_true in HP. by exists i, c, n, k.
  - intros (i & c & n & k & -> & Hc & Hn & Hk & Hw).
    exists (i, c, n, k). split; [done |]. apply list_elem_of_filter.
    split; [by apply Is_true_true | by apply elem_of_cards_join].
Qed.

(** [deleteCard] on a stored card removes that card and nothing else from
    [cards]; it removes the card's note exactly when no other card uses it,
    and no other note.  So every remaining card keeps its note, a store in
    which every note has a card stays so, and the eligible set at any day
    number and second is the one before, without the deleted card. *)
Theorem deleteCard_keeps_notes_in_step (w : World) (cardId : Z) (c : CardRow) :
  cards (db w) !! cardId = Some c →
  ∃ w',
    deleteCard (Some cardId) w = (Normal (), w')
    ∧ cards (db w') = delete cardId (cards (db w))
    ∧ decks (db w') = decks (db w)
    ∧ (∀ m, m ≠ c_nid c → notes (db w') !! m = notes (db w) !! m)
    ∧ ((∃ j c', j ≠ cardId ∧ cards (db w) !! j = Some c' ∧ c_nid c' = c_nid c) →
       notes (db w') = notes (db w))
    ∧ ((∀ j c', j ≠ cardId → cards (db w) !! j = Some c' → c_nid c' ≠ c_nid c) →
       notes (db w') !! c_nid c = None)
    ∧ (∀ j c', cards (db w') !! j = Some c' →
         notes (db w') !! c_nid c' = notes (db w) !! c_nid c')
    ∧ ((∀ m, is_Some (notes (db w) !! m) →
          ∃ j c', cards (db w) !! j = Some c' ∧ c_nid c' = m) →
       ∀ m, is_Some (notes (db w') !! m) →
          ∃ j c', cards (db w') !! j = Some c' ∧ c_nid c' = m)
    ∧ (∀ day now r,
         in_eligible_set (db w') day now r ↔
         in_eligible_set (db w) day now r ∧ id r ≠ cardId).
Proof.
  intros Hc. rewrite deleteCard_eq. simpl. rewrite Hc. simpl.
  eexists. split; [reflexivity |]. simpl.
  set (cs := delete cardId (cards (db w))).
  set (ns := if bool_decide _ then _ else _).
  assert (Hcs : ∀ j c', cs !! j = Some c' ↔ j ≠ cardId ∧ cards (db w) !! j = Some c').
  { intros j c'. unfold cs. rewrite lookup_delete_Some. split; intros []; by split. }
  assert (Hother : ∀ m, m ≠ c_nid c → ns !! m = notes (db w) !! m).
  { intros m Hm. unfold ns. case_bool_decide; [by rewrite lookup_delete_ne | done]. }
  assert (Hkeep : ∀ j c', cs !! j = Some c' → ns !! c_nid c' = notes (db w) !! c_nid c').
  { intros j c' Hj. unfold ns. case_bool_decide as Hcount; [| done].
    rewrite count_cards_of_note_0 in Hcount.
    rewrite lookup_delete_ne; [done |]. intros Heq. by eapply Hcount. }
  split; [done |]. split; [done |]. split; [done |].
  split; [| split; [| split; [| split]]].
  - intros (j & c' & Hj & Hjc & Hn). unfold ns.
    rewrite bool_decide_false; [done |].
    rewrite count_cards_of_note_0. intros Hall. apply (Hall j c'); [| done].
    by apply Hcs.
  - intros Hall. unfold ns. rewrite bool_decide_true; [by rewrite lookup_delete_eq |].
    apply count_cards_of_note_0. intros j c' [Hj Hjc]%Hcs. by eapply Hall.
  - done.
  - intros Hhas m Hm.
    destruct (decide (m = c_nid c)) as [-> | Hne].
    + unfold ns in Hm. case_bool_decide as Hcount.
      { rewrite lookup_delete_eq in Hm. by destruct Hm. }
      destruct (Hhas _ Hm) as (j & c' & Hj & Hn).
      destruct (decide (j = cardId)) as [-> | Hj'].
      * (* the deleted card itself: some other card uses the note *)
        by apply count_cards_of_note_pos in Hcount.
      * exists j, c'. split; [by apply Hcs | done].
    + rewrite Hother in Hm by done.
      destruct (Hhas _ Hm) as (j & c' & Hj & Hn).
      exists j, c'. split; [| done]. apply Hcs. split; [| done].
      intros ->. congruence.
  - intros day now r. rewrite <- !select_due_all_eligible_set.
    rewrite !elem_of_select_due_all_iff. split.
    + intros (j & c' & n & k & -> & Hj & Hn & Hk & Hw). simpl in *.
      apply Hcs in Hj as [Hne Hj]. split; [| done].
      exists j, c', n, k. split; [done |]. split; [done |].
      split; [| done]. rewrite <- (Hkeep j c'); [done | by apply Hcs].
    + intros [(j & c' & n & k & -> & Hj & Hn & Hk & Hw) Hne]. simpl in *.
      exists j, c', n, k. split; [done |].
      assert (Hj' : cs !! j = Some c') by (by apply Hcs).
      split; [done |]. split; [| done]. by rewrite (Hkeep j c').
Qed.

Lemma deleteCard_keeps_notes_in_step_witness :
  ∃ w',
    deleteCard (Some 1) example_world = (Normal (), w')
    ∧ cards (db w') = delete 1 (cards (db example_world))
    ∧ decks (db w') = decks (db example_world)
    ∧ (∀ m, m ≠ c_nid (example_card 5 2 100) →
         notes (db w') !! m = notes (db example_world) !! m)
    ∧ ((∃ j c', j ≠ 1 ∧ cards (db example_world) !! j = Some c'
                ∧ c_nid c' = c_nid (example_card 5 2 100)) →
       notes (db w') = notes (db example_world))
    ∧ ((∀ j c', j ≠ 1 → cards (db example_world) !! j = Some c' →
                c_nid c' ≠ c_nid (example_card 5 2 100)) →
       notes (db w') !! c_nid (example_card 5 2 100) = None)
    ∧ (∀ j c', cards (db w') !! j = Some c' →
         notes (db w') !! c_nid c' = notes (db example_world) !! c_nid c')
    ∧ ((∀ m, is_Some (notes (db example_world) !! m) →
          ∃ j c', cards (db example_world) !! j = Some c' ∧ c_nid c' = m) →
       ∀ m, is_Some (notes (db w') !! m) →
          ∃ j c', cards (db w') !! j = Some c' ∧ c_nid c' = m)
    ∧ (∀ day now r,
         in_eligible_set (db w') day now r ↔
         in_eligible_set (db example_world) day now r ∧ id r ≠ 1).
Proof.
  apply (deleteCard_keeps_notes_in_step example_world 1 (example_card 5 2 100)).
  vm_compute. reflexivity.
Defined.

(** ** Listing cards *)

#[local] Instance id_le_total : Total id_le.
Proof. intros r1 r2. unfold id_le. lia. Qed.

#[local] Instance id_le_trans : Transitive id_le.
Proof. intros r1 r2 r3. unfold id_le. lia. Qed.

Lemma joined_rows_id_inj d r1 r2 :
  r1 ∈ select_columns <$> cards_join_notes_decks d →
  r2 ∈ select_columns <$> cards_join_notes_decks d →
  id r1 = id r2 → r1 = r2.
Proof.
  intros (j1 & -> & H1)%list_elem_of_fmap (j2 & -> & H2)%list_elem_of_fmap Hid.
  rewrite !select_columns_id in Hid. f_equal. by eapply cards_join_id_inj.
Qed.

Lemma StronglySorted_filter_id_le (P : CardWithNote → Prop) `{∀ r, Decision (P r)} l :
  StronglySorted id_le l → StronglySorted id_le (filter P l).
Proof.
  induction 1 as [| r l Hl IH Hr]; [constructor |].
  rewrite filter_cons. destruct (decide (P r)); [| done].
  constructor; [done |]. apply Forall_forall. intros r' [_ Hr']%list_elem_of_filter.
  rewrite Forall_forall in Hr. by apply Hr.
Qed.

(** Sorting by id the rows selected from the join by [P] gives the rows of
    the whole join, sorted by id, that satisfy [P]. *)
Lemma order_by_id_filter (P : CardWithNote → Prop) `{∀ r, Decision (P r)} d :
  order_by_id (filter P (select_columns <$> cards_join_notes_decks d))
  = filter P (order_by_id (select_columns <$> cards_join_notes_decks d)).
Proof.
  unfold order_by_id.
  apply (StronglySorted_unique_strong id_le).
  - intros r1 r2 H1 H2 Hle1 Hle2.
    rewrite merge_sort_Permutation in H1.
    apply list_elem_of_filter in H1 as [_ H1].
    apply list_elem_of_filter in H2 as [_ H2].
    rewrite merge_sort_Permutation in H2.
    eapply joined_rows_id_inj; [done | done |]. unfold id_le in *. lia.
  - apply StronglySorted_merge_sort; apply _.
  - apply StronglySorted_filter_id_le, StronglySorted_merge_sort; apply _.
  - by rewrite !merge_sort_Permutation.
Qed.

Lemma NoDup_joined_ids d : NoDup (id <$> (select_columns <$> cards_join_notes_decks d)).
Proof.
  rewrite <- list_fmap_compose.
  apply NoDup_fmap_2_strong; [| apply NoDup_cards_join].
  intros r1 r2 H1 H2 Heq. simpl in Heq. rewrite !select_columns_id in Heq.
  by eapply cards_join_id_inj.
Qed.

(** Rows sorted by id and pairwise distinct in id are strictly increasing. *)
Lemma StronglySorted_id_strict l :
  StronglySorted id_le l → NoDup (id <$> l) →
  StronglySorted (λ r1 r2, id r1 < id r2) l.
Proof.
  induction 1 as [| r l Hl IH Hr]; [constructor |].
  rewrite fmap_cons, NoDup_cons. intros [Hnotin Hnd].
  constructor; [by apply IH |].
  rewrite Forall_forall in Hr |- *. intros r' Hr'.
  specialize (Hr r' Hr'). unfold id_le in Hr.
  assert (id r ≠ id r'); [| lia].
  intros Heq. apply Hnotin. rewrite Heq. by apply list_elem_of_fmap_2.
Qed.

Lemma getAllCards_eq w :
  getAllCards w = (Normal (order_by_id (select_columns <$> cards_join_notes_decks (db w))), w).
Proof. done. Qed.

(** [getAllCards] returns every stored card that has its note and deck,
    once, in strictly increasing order of id; [getCardsByDeck] returns the
    rows of [getAllCards] whose deck is the one asked for, in the same order
    (none for [NaN]); neither changes the world. *)
Theorem card_listings_sorted_by_id (w : World) :
  ∃ rows,
    getAllCards w = (Normal rows, w)
    ∧ StronglySorted (λ r1 r2, id r1 < id r2) rows
    ∧ (∀ i c n k,
         cards (db w) !! i = Some c → notes (db w) !! c_nid c = Some n →
         decks (db w) !! c_did c = Some k →
         select_columns (i, c, n, k) ∈ rows)
    ∧ (∀ r, r ∈ rows →
         ∃ i c n k, r = select_columns (i, c, n, k)
                    ∧ cards (db w) !! i = Some c ∧ notes (db w) !! c_nid c = Some n
                    ∧ decks (db w) !! c_did c = Some k)
    ∧ (∀ deckId,
         getCardsByDeck (Some deckId) w = (Normal (filter (λ r, did r = deckId) rows), w))
    ∧ getCardsByDeck None w = (Normal [], w).
Proof.
  exists (order_by_id (select_columns <$> cards_join_notes_decks (db w))).
  split; [done |]. split; [| split; [| split; [| split]]].
  - apply StronglySorted_id_strict.
    + apply StronglySorted_merge_sort; apply _.
    + unfold order_by_id. rewrite merge_sort_Permutation. apply NoDup_joined_ids.
  - intros i c n k Hc Hn Hk. unfold order_by_id. rewrite merge_sort_Permutation.
    apply list_elem_of_fmap. exists (i, c, n, k). split; [done |].
    by apply elem_of_cards_join.
  - intros r. unfold order_by_id. rewrite merge_sort_Permutation.
    intros ([[[i c] n] k] & -> & Hj)%list_elem_of_fmap.
    apply elem_of_cards_join in Hj. by exists i, c, n, k.
  - intros deckId. unfold getCardsByDeck, mbind, Js_bind, getDb, mret, Js_ret.
    do 2 f_equal. rewrite <- order_by_id_filter. f_equal.
    rewrite filter_fmap_commute. f_equal.
    apply list_filter_iff. intros [[[i c] n] k]. simpl.
    by rewrite Is_true_true, Z.eqb_eq.
  - unfold getCardsByDeck, mbind, Js_bind, getDb, mret, Js_ret. do 2 f_equal.
    rewrite (elem_of_nil_inv (filter _ _)); [done |].
    by intros r [[] _]%list_elem_of_filter.
Qed.

(** ** Searching cards *)

Lemma like_nil text : like "" text = true ↔ chars text = [].
Proof. destruct text; simpl; split; congruence. Qed.









Lemma searchCards_eq query w :
  searchCards query w
  = (Normal (filter (λ r, Is_true (like ("%" +:+ query +:+ "%") (note_flds r)
                                   || like ("%" +:+ query +:+ "%") (note_tags r)
                                   || like ("%" +:+ query +:+ "%") (deck_name r)))
                    (order_by_id (select_columns <$> cards_join_notes_decks (db w)))), w).
Proof.
  unfold searchCards, mbind, Js_bind, getDb, mret, Js_ret. do 2 f_equal.
  rewrite <- order_by_id_filter. f_equal.
  rewrite filter_fmap_commute. f_equal.
  by apply list_filter_iff; intros [[[i c] n] k].
Qed.


(** ** Moving a card and editing a note *)

Lemma elem_of_listing d r :
  r ∈ order_by_id (select_columns <$> cards_join_notes_decks d)
  ↔ ∃ i c n k, r = select_columns (i, c, n, k)
               ∧ cards d !! i = Some c ∧ notes d !! c_nid c = Some n
               ∧ decks d !! c_did c = Some k.
Proof.
  unfold order_by_id. rewrite merge_sort_Permutation, list_elem_of_fmap. split.
  - intros ([[[i c] n] k] & -> & Hj). apply elem_of_cards_join in Hj.
    by exists i, c, n, k.
  - intros (i & c & n & k & -> & Hj). exists (i, c, n, k).
    by rewrite elem_of_cards_join.
Qed.

Lemma moveCardToDeck_eq cardId deckId w :
  moveCardToDeck cardId deckId w
  = (Normal (),
     with_cards (alter (set_deck deckId (clock w (clock_reads w) / 1000)) cardId (cards (db w)))
                (clock_advanced 1 w)).
Proof. done. Qed.

(** [moveCardToDeck] returns normally for every card id and deck id.  It
    rewrites the deck (and the modification time) of the card with that id,
    if there is one, and nothing else: scheduling columns, other cards, notes
    and decks are as before.  The deck id is not checked: the rows of other
    cards in [getAllCards] are unchanged, but after a move to a deck that has
    no row the card is in no listing, and after a move to a stored deck the
    card, if its note is stored, is listed by [getCardsByDeck] for that
    deck. *)
Theorem moveCardToDeck_spec (w : World) (cardId deckId : Z) :
  ∃ w' rows rows',
    moveCardToDeck cardId deckId w = (Normal (), w')
    ∧ getAllCards w = (Normal rows, w)
    ∧ getAllCards w' = (Normal rows', w')
    ∧ notes (db w') = notes (db w) ∧ decks (db w') = decks (db w)
    ∧ col (db w') = col (db w)
    ∧ cards (db w') !! cardId
      = set_deck deckId (clock w (clock_reads w) / 1000) <$> cards (db w) !! cardId
    ∧ (∀ i, i ≠ cardId → cards (db w') !! i = cards (db w) !! i)
    ∧ (∀ r, id r ≠ cardId → r ∈ rows' ↔ r ∈ rows)
    ∧ (decks (db w) !! deckId = None → ∀ r, r ∈ rows' → id r ≠ cardId)
    ∧ (∀ c n k,
         cards (db w) !! cardId = Some c → notes (db w) !! c_nid c = Some n →
         decks (db w) !! deckId = Some k →
         ∃ listed,
           getCardsByDeck (Some deckId) w' = (Normal listed, w')
           ∧ select_columns
               (cardId, set_deck deckId (clock w (clock_reads w) / 1000) c, n, k) ∈ listed).
Proof.
  eexists _, _, _. split; [apply moveCardToDeck_eq |].
  split; [apply getAllCards_eq |]. split; [apply getAllCards_eq |].
  set (now := clock w (clock_reads w) / 1000).
  do 3 (split; [done |]). cbn [with_cards db cards notes decks clock_advanced].
  split; [apply lookup_alter_eq |].
  split; [by intros i Hi; apply lookup_alter_ne |].
  split; [| split].
  - intros r Hr. rewrite !elem_of_listing.
    cbn [with_cards db cards notes decks clock_advanced].
    split; intros (i & c & n & k & -> & Hc & Hn & Hk); exists i, c, n, k;
      simpl in Hr; (split; [done |]);
      (rewrite lookup_alter_ne in * by done); done.
  - intros Hdeck r. rewrite elem_of_listing.
    cbn [with_cards db cards notes decks clock_advanced].
    intros (i & c & n & k & -> & Hc & Hn & Hk) Hi. simpl in Hi. subst i.
    rewrite lookup_alter_eq in Hc.
    destruct (cards (db w) !! cardId) as [c0 |]; simplify_eq/=.
  - intros c n k Hc Hn Hk. eexists. split; [done |].
    unfold order_by_id. rewrite merge_sort_Permutation.
    apply list_elem_of_fmap. eexists. split; [done |].
    apply list_elem_of_filter. split.
    + simpl. by rewrite Z.eqb_refl.
    + apply elem_of_cards_join. cbn [with_cards db cards notes decks clock_advanced].
      by rewrite lookup_alter_eq, Hc.
Qed.

Lemma updateNote_eq noteId flds tags w :
  updateNote noteId flds tags w
  = (Normal (),
     with_notes (alter (λ _, mkNoteRow flds tags) noteId (notes (db w)))
                (clock_advanced 1 w)).
Proof. done. Qed.

(** [updateNote] returns normally for every note id.  It replaces the fields
    and tags of the note with that id, if there is one, and inserts nothing
    otherwise; [getNote] then returns what was written.  Cards, decks and
    other notes are as before, so [getAllCards] lists the same card ids; the
    rows of the cards of that note show the new fields and tags, all other
    rows are unchanged. *)
Theorem updateNote_then_getNote (w : World) (noteId : Z) (flds tags : string) :
  ∃ w' rows rows',
    updateNote noteId flds tags w = (Normal (), w')
    ∧ getAllCards w = (Normal rows, w)
    ∧ getAllCards w' = (Normal rows', w')
    ∧ cards (db w') = cards (db w) ∧ decks (db w') = decks (db w)
    ∧ col (db w') = col (db w)
    ∧ getNote (Some noteId) w'
      = (Normal ((λ _, mkNoteRow flds tags) <$> notes (db w) !! noteId), w')
    ∧ (∀ i, i ≠ noteId → getNote (Some i) w' = (Normal (notes (db w) !! i), w'))
    ∧ (∀ i, i ∈ id <$> rows' ↔ i ∈ id <$> rows)
    ∧ (∀ r, r ∈ rows' → nid r = noteId → note_flds r = flds ∧ note_tags r = tags)
    ∧ (∀ r, nid r ≠ noteId → r ∈ rows' ↔ r ∈ rows).
Proof.
  eexists _, _, _. split; [apply updateNote_eq |].
  split; [apply getAllCards_eq |]. split; [apply getAllCards_eq |].
  do 3 (split; [done |]).
  unfold getNote, mbind, Js_bind, getDb, mret, Js_ret.
  cbn [with_notes db cards notes decks clock_advanced option_bind].
  split; [by rewrite lookup_alter_eq |].
  split; [by intros i Hi; rewrite lookup_alter_ne |].
  split; [| split].
  - intros i. rewrite !list_elem_of_fmap.
    split; intros (r & -> & Hr); apply elem_of_listing in Hr as (j & c & n & k & -> & Hc & Hn & Hk);
      cbn [with_notes db cards notes decks clock_advanced] in *.
    + destruct (decide (c_nid c = noteId)) as [Heq | Hne].
      * rewrite Heq, lookup_alter_eq in Hn.
        destruct (notes (db w) !! noteId) as [n0 |] eqn:Hn0; simplify_eq/=.
        exists (select_columns (j, c, n0, k)). split; [done |].
        apply elem_of_listing. by exists j, c, n0, k.
      * rewrite lookup_alter_ne in Hn by done.
        exists (select_columns (j, c, n, k)). split; [done |].
        apply elem_of_listing. by exists j, c, n, k.
    + destruct (decide (c_nid c = noteId)) as [Heq | Hne].
      * exists (select_columns (j, c, mkNoteRow flds tags, k)). split; [done |].
        apply elem_of_listing. exists j, c, (mkNoteRow flds tags), k.
        cbn [with_notes db cards notes decks clock_advanced].
        by rewrite Heq, lookup_alter_eq, <- Heq, Hn.
      * exists (select_columns (j, c, n, k)). split; [done |].
        apply elem_of_listing. exists j, c, n, k.
        cbn [with_notes db cards notes decks clock_advanced].
        by rewrite lookup_alter_ne.
  - intros r (j & c & n & k & -> & Hc & Hn & Hk)%elem_of_listing Hnid.
    cbn [with_notes db cards notes decks clock_advanced] in *. simpl in Hnid.
    rewrite Hnid, lookup_alter_eq in Hn.
    destruct (notes (db w) !! noteId); by simplify_eq/=.
  - intros r Hnid. rewrite !elem_of_listing.
    cbn [with_notes db cards notes decks clock_advanced].
    split; intros (j & c & n & k & -> & Hc & Hn & Hk); exists j, c, n, k;
      simpl in Hnid; (split; [done |]);
      (rewrite lookup_alter_ne in * by done); done.
Qed.

(** ** The urgent count and the urgent queue *)

Lemma length_filter_omap {A B} (f : A → option B) (P : B → Prop) (Q : A → Prop)
    `{∀ y, Decision (P y)} `{∀ x, Decision (Q x)} (l : list A) :
  (∀ x y, f x = Some y → P y ↔ Q x) →
  (length (filter P (omap f l)) ≤ length (filter Q l))%nat
  ∧ ((∀ x, x ∈ l → Q x → is_Some (f x)) →
     length (filter P (omap f l)) = length (filter Q l)).
Proof.
  intros Hf. induction l as [| x l [IHle IHeq]]; [done |].
  cbn [omap list_omap]. rewrite (filter_cons Q).
  destruct (f x) as [y |] eqn:Hy.
  - rewrite filter_cons.
    destruct (decide (P y)) as [HP | HP], (decide (Q x)) as [HQ | HQ];
      try (apply Hf in Hy; tauto); cbn [length].
    + split; [lia |]. intros Hall. f_equal. apply IHeq.
      intros x' Hx'. apply Hall. by right.
    + split; [done |]. intros Hall. apply IHeq.
      intros x' Hx'. apply Hall. by right.
  - destruct (decide (Q x)) as [HQ | HQ]; cbn [length].
    + split; [lia |]. intros Hall.
      destruct (Hall x) as [y' Hy']; [by left | done | congruence].
    + split; [done |]. intros Hall. apply IHeq.
      intros x' Hx'. apply Hall. by right.
Qed.

(** [getUrgentCount] counts cards, the urgent queue holds joined rows: at
    the same clock readings the urgent queue is never longer than the count,
    it is as long when the urgent deck is stored and every card of it has its
    note, and it is empty, whatever the count, when the urgent deck has no
    row. *)
Theorem urgent_queue_at_most_urgent_count (w : World) :
  ∃ count w1 out w2,
    getUrgentCount w = (Normal count, w1)
    ∧ getReviewQueueByDeck (Some URGENT_DECK_ID) w = (Normal out, w2)
    ∧ (length out ≤ count)%nat
    ∧ (is_Some (decks (db w) !! URGENT_DECK_ID) →
       (∀ i c, cards (db w) !! i = Some c → c_did c = URGENT_DECK_ID →
               is_Some (notes (db w) !! c_nid c)) →
       length out = count)
    ∧ (decks (db w) !! URGENT_DECK_ID = None → out = []).
Proof.
  destruct (due_clock_total w) as (day & now & n & Hclock).
  destruct (getReviewQueueByDeck_spec (Some URGENT_DECK_ID) w day now _ Hclock)
    as (out & w2 & Hq & _ & Hperm).
  exists (count_due_in_deck (Some URGENT_DECK_ID) day now (db w)), (clock_advanced n w), out, w2.
  split; [by apply getUrgentCount_spec |]. split; [done |].
  rewrite (Permutation_length Hperm).
  assert (out = [] ↔ select_due_in_deck (Some URGENT_DECK_ID) day now (db w) = []) as Hnil.
  { split; intros Heq; rewrite Heq in Hperm.
    - symmetry in Hperm. by apply Permutation_nil_r in Hperm.
    - by apply Permutation_nil_r in Hperm. }
  rewrite Hnil. clear Hnil Hperm Hq.
  unfold select_due_in_deck, count_due_in_deck. rewrite length_fmap.
  set (f := λ '((i, c) : Z * CardRow),
              n ← notes (db w) !! c_nid c; k ← decks (db w) !! c_did c; Some (i, c, n, k)).
  assert (∀ x y, f x = Some y →
            Is_true (did_is (Some URGENT_DECK_ID) y.1.1.2 && due_where day now y.1.1.2)
            ↔ Is_true (did_is (Some URGENT_DECK_ID) x.2 && due_where day now x.2)) as Hf.
  { intros [i c] y Hy. unfold f in Hy.
    destruct (notes (db w) !! c_nid c); simplify_eq/=.
    destruct (decks (db w) !! c_did c); by simplify_eq/=. }
  destruct (length_filter_omap f _ _ (map_to_list (cards (db w))) Hf) as [Hle Heq].
  split; [exact Hle |]. split.
  - intros [k Hk] Hnotes. apply Heq. intros [i c] Hin HQ.
    apply elem_of_map_to_list in Hin.
    apply andb_True in HQ as [Hdid _]. apply Is_true_true, Z.eqb_eq in Hdid.
    simpl in Hdid. destruct (Hnotes i c Hin Hdid) as [n' Hn'].
    unfold f. rewrite Hn', Hdid, Hk. by eexists.
  - intros Hk.
    rewrite (elem_of_nil_inv (filter _ _)); [done |].
    intros [[[i c] n'] k] [HP Hin]%list_elem_of_filter.
    apply elem_of_cards_join in Hin as (_ & _ & Hdeck).
    apply andb_True in HP as [Hdid _]. apply Is_true_true, Z.eqb_eq in Hdid.
    simpl in Hdid. congruence.
Qed.

(** * Properties of the /api/cards and /api/notes routes *)

Lemma getCardsByDeck_eq deckId w :
  getCardsByDeck deckId w
  = (Normal (filter (λ r, Some (did r) = deckId)
                    (order_by_id (select_columns <$> cards_join_notes_decks (db w)))), w).
Proof.
  unfold getCardsByDeck, mbind, Js_bind, getDb, mret, Js_ret. do 2 f_equal.
  rewrite <- order_by_id_filter. f_equal.
  rewrite filter_fmap_commute. f_equal.
  apply list_filter_iff. intros [[[i c] n] k]. simpl.
  destruct deckId as [v |]; simpl.
  - rewrite Is_true_true, Z.eqb_eq. split; congruence.
  - split; [done | congruence].
Qed.

(** [GET /api/cards] never answers with an error and changes nothing: it
    returns the rows of [getAllCards], in their order, that [q] selects when
    [q] is not empty (whatever [deckId] is), else those of the deck that
    [deckId] parses to when [deckId] is not empty (none if it does not
    parse), else all of them.  The deck branch is stated for ASCII strings
    and ids below 2^53. *)
Theorem cards_GET_lists_in_id_order (w : World) (deckId query : option string) :
  ∃ all cards,
    getAllCards w = (Normal all, w)
    ∧ CardsRoute.GET deckId query w = (Normal (CardsRoute.CardsJson cards), w)
    ∧ cards `sublist_of` all
    ∧ (∀ c s, query = Some (String c s) → searchCards (String c s) w = (Normal cards, w))
    ∧ (query = None ∨ query = Some "" →
       match deckId with
       | Some (String c s) =>
           ascii_string (String c s) → safe_integer (parseInt_no_radix (String c s)) →
           cards = filter (λ r, Some (did r) = parseInt_no_radix (String c s)) all
           ∧ (parseInt_no_radix (String c s) = None → cards = [])
       | _ => cards = all
       end).
Proof.
  exists (order_by_id (select_columns <$> cards_join_notes_decks (db w))).
  unfold CardsRoute.GET, try_catch, mbind, Js_bind.
  destruct query as [[| c s] |].
  - destruct deckId as [[| c' s'] |].
    + rewrite getAllCards_eq. eexists. split; [done |]. split; [reflexivity |].
      split; [done |]. split; [by intros ?? [=] | done].
    + rewrite getCardsByDeck_eq. eexists. split; [done |]. split; [reflexivity |].
      split; [apply sublist_filter |]. split; [by intros ?? [=] |].
      intros _ _ _. split; [done |]. intros ->.
      apply elem_of_nil_inv. by intros r [? _]%list_elem_of_filter.
    + rewrite getAllCards_eq. eexists. split; [done |]. split; [reflexivity |].
      split; [done |]. split; [by intros ?? [=] | done].
  - rewrite searchCards_eq. eexists. split; [done |]. split; [reflexivity |].
    split; [apply sublist_filter |]. split.
    + intros c' s' [= -> ->]. apply searchCards_eq.
    + by intros [? | ?].
  - destruct deckId as [[| c' s'] |].
    + rewrite getAllCards_eq. eexists. split; [done |]. split; [reflexivity |].
      split; [done |]. split; [by intros ?? [=] | done].
    + rewrite getCardsByDeck_eq. eexists. split; [done |]. split; [reflexivity |].
      split; [apply sublist_filter |]. split; [by intros ?? [=] |].
      intros _ _ _. split; [done |]. intros ->.
      apply elem_of_nil_inv. by intros r [? _]%list_elem_of_filter.
    + rewrite getAllCards_eq. eexists. split; [done |]. split; [reflexivity |].
      split; [done |]. split; [by intros ?? [=] | done].
Qed.

Lemma with_notes_same w : with_notes (notes (db w)) w = w.
Proof. by destruct w as [[] ????]. Qed.

Lemma moveCardToDeck_unknown cardId deckId w :
  cards (db w) !! cardId = None →
  moveCardToDeck cardId deckId w = (Normal (), clock_advanced 1 w).
Proof.
  intros Hnone. rewrite moveCardToDeck_eq.
  rewrite alter_id by (simpl; intros x Hx; congruence).
  change (cards (db w)) with (cards (db (clock_advanced 1 w))).
  by rewrite with_cards_same.
Qed.

Lemma updateNote_unknown noteId flds tags w :
  notes (db w) !! noteId = None →
  updateNote noteId flds tags w = (Normal (), clock_advanced 1 w).
Proof.
  intros Hnone. rewrite updateNote_eq.
  rewrite alter_id by (simpl; intros x Hx; congruence).
  change (notes (db w)) with (notes (db (clock_advanced 1 w))).
  by rewrite with_notes_same.
Qed.

(** Of the requests that name a card or a note by id, only [GET /api/notes]
    tells an unknown id: it answers 404.  For an id string that parses to a
    number that is the id of no card and no note, [DELETE /api/cards],
    [PATCH /api/cards] and [PUT /api/notes] answer with success and leave
    the database as it is; so does [DELETE] for an ASCII string that does
    not parse to a number. *)
Theorem unknown_id_answered_with_success (w : World) (id : string) (i : Z) :
  id ≠ EmptyString → parseInt_no_radix id = Some i → i ≠ 0 → - 2 ^ 53 < i < 2 ^ 53 →
  cards (db w) !! i = None → notes (db w) !! i = None →
  CardsRoute.DELETE (Some id) w = (Normal CardsRoute.SuccessJson, w)
  ∧ (∀ deckId, deckId ≠ 0 →
       CardsRoute.PATCH (Some (CardsRoute.mkMoveBody (Some i) (Some deckId))) w
       = (Normal CardsRoute.SuccessJson, clock_advanced 1 w))
  ∧ (∀ flds tags,
       NotesRoute.PUT (Some (NotesRoute.mkNoteBody (Some i) (Some flds) tags)) w
       = (Normal NotesRoute.SuccessJson, clock_advanced 1 w))
  ∧ NotesRoute.GET (Some id) w = (Normal (NotesRoute.ErrorJson "Note not found" 404), w)
  ∧ (∀ id' c, ascii_string (String c id') → parseInt_no_radix (String c id') = None →
       CardsRoute.DELETE (Some (String c id')) w = (Normal CardsRoute.SuccessJson, w)
       ∧ NotesRoute.GET (Some (String c id')) w
         = (Normal (NotesRoute.ErrorJson "Note not found" 404), w)).
Proof.
  intros Hid Hparse Hi _ Hcard Hnote.
  destruct id as [| c id]; [done |].
  split; [| split; [| split; [| split]]].
  - unfold CardsRoute.DELETE, try_catch, mbind, Js_bind.
    rewrite deleteCard_unknown; [done |]. intros j Hj. congruence.
  - intros deckId Hdeck. unfold CardsRoute.PATCH, try_catch, mbind, Js_bind.
    cbn -[moveCardToDeck].
    destruct (Z.eqb_spec i 0); [done |]. destruct (Z.eqb_spec deckId 0); [done |].
    cbn -[moveCardToDeck]. by rewrite moveCardToDeck_unknown.
  - intros flds tags. unfold NotesRoute.PUT, try_catch, mbind, Js_bind.
    cbn -[updateNote].
    destruct (Z.eqb_spec i 0); [done |].
    by rewrite updateNote_unknown.
  - unfold NotesRoute.GET, try_catch, mbind, Js_bind, getNote, getDb, mret, Js_ret.
    rewrite Hparse. simpl. by rewrite Hnote.
  - intros id' c' _ Hnan. split.
    + unfold CardsRoute.DELETE, try_catch, mbind, Js_bind.
      rewrite deleteCard_unknown; [done |]. intros j Hj. congruence.
    + unfold NotesRoute.GET, try_catch, mbind, Js_bind, getNote, getDb, mret, Js_ret.
      by rewrite Hnan.
Qed.

Lemma unknown_id_answered_with_success_witness :
  CardsRoute.DELETE (Some "99") example_world = (Normal CardsRoute.SuccessJson, example_world)
  ∧ (∀ deckId, deckId ≠ 0 →
       CardsRoute.PATCH (Some (CardsRoute.mkMoveBody (Some 99) (Some deckId))) example_world
       = (Normal CardsRoute.SuccessJson, clock_advanced 1 example_world))
  ∧ (∀ flds tags,
       NotesRoute.PUT (Some (NotesRoute.mkNoteBody (Some 99) (Some flds) tags)) example_world
       = (Normal NotesRoute.SuccessJson, clock_advanced 1 example_world))
  ∧ NotesRoute.GET (Some "99") example_world
    = (Normal (NotesRoute.ErrorJson "Note not found" 404), example_world)
  ∧ (∀ id' c, ascii_string (String c id') → parseInt_no_radix (String c id') = None →
       CardsRoute.DELETE (Some (String c id')) example_world
       = (Normal CardsRoute.SuccessJson, example_world)
       ∧ NotesRoute.GET (Some (String c id')) example_world
         = (Normal (NotesRoute.ErrorJson "Note not found" 404), example_world)).
Proof.
  apply (unknown_id_answered_with_success example_world "99" 99);
    vm_compute; (reflexivity || discriminate || (split; reflexivity)).
Defined.

Lemma cards_POST_eq mid noteTypes body w :
  CardsRoute.POST (mid :: noteTypes) (Some body) w
  = match createNote mid (CardsRoute.b_front body +:+ String unit_separator (CardsRoute.b_back body))
                     (default "" (CardsRoute.b_tags body)) w with
    | (Normal noteId, w1) =>
        match createCard noteId (CardsRoute.b_deckId body) w1 with
        | (Normal cardId, w2) => (Normal (CardsRoute.CreatedJson cardId noteId), w2)
        | (Throw _, w2) => (Normal (CardsRoute.ErrorJson "Failed to create card" 500), w2)
        end
    | (Throw _, w1) => (Normal (CardsRoute.ErrorJson "Failed to create card" 500), w1)
    end.
Proof.
  unfold CardsRoute.POST, try_catch, mbind, Js_bind. simpl.
  destruct (createNote _ _ _ w) as [[noteId | e] w1]; [| done].
  by destruct (createCard _ _ w1) as [[cardId | e] w2].
Qed.

(** A note that no card refers to adds no row to the join. *)
Lemma cards_join_insert_unused_note cs ns ds cl noteId n :
  (∀ i c, cs !! i = Some c → c_nid c ≠ noteId) →
  cards_join_notes_decks (mkDb cs (<[noteId := n]> ns) ds cl)
  = cards_join_notes_decks (mkDb cs ns ds cl).
Proof.
  intros Hunused. unfold cards_join_notes_decks. cbn [cards notes decks].
  apply list_omap_ext, Forall2_same_length_lookup. split; [done |].
  intros k [i c] [i' c'] H1 H2. simplify_eq.
  apply list_elem_of_lookup_2, elem_of_map_to_list in H1.
  by rewrite lookup_insert_ne by (symmetry; by eapply Hunused).
Qed.

(** [POST /api/cards] creates the note and then the card, each under the id
    given by its own clock reading, and not in a transaction: when the note
    id is free but a card already has the card id, the answer is the error
    500 and the new note stays in the store.  No card is added, so if no
    card referred to that id before, no listing shows the note and no
    [deleteCard] removes it. *)
Theorem cards_POST_is_not_atomic (w : World) (mid : Z) (noteTypes : list Z)
    (body : CardsRoute.CardBody) (c : CardRow) :
  notes (db w) !! (clock w (clock_reads w) / 1000 * 1000) = None →
  cards (db w) !! (clock w (S (clock_reads w)) / 1000 * 1000) = Some c →
  (∀ i c', cards (db w) !! i = Some c' → c_nid c' ≠ clock w (clock_reads w) / 1000 * 1000) →
  ∃ w' rows,
    CardsRoute.POST (mid :: noteTypes) (Some body) w
    = (Normal (CardsRoute.ErrorJson "Failed to create card" 500), w')
    ∧ notes (db w') !! (clock w (clock_reads w) / 1000 * 1000)
      = Some (mkNoteRow (CardsRoute.b_front body +:+ String unit_separator (CardsRoute.b_back body))
                        (default "" (CardsRoute.b_tags body)))
    ∧ (∀ other, other ≠ clock w (clock_reads w) / 1000 * 1000 →
         notes (db w') !! other = notes (db w) !! other)
    ∧ cards (db w') = cards (db w) ∧ decks (db w') = decks (db w)
    ∧ getAllCards w = (Normal rows, w)
    ∧ getAllCards w' = (Normal rows, w')
    ∧ (∀ cardId w'', deleteCard cardId w' = (Normal (), w'') →
         is_Some (notes (db w'') !! (clock w (clock_reads w) / 1000 * 1000))).
Proof.
  intros Hfree Htaken Hnocard.
  set (noteId := clock w (clock_reads w) / 1000 * 1000) in *.
  rewrite cards_POST_eq.
  pose proof (createNote_eq mid
    (CardsRoute.b_front body +:+ String unit_separator (CardsRoute.b_back body))
    (default "" (CardsRoute.b_tags body)) w) as Hnote.
  simpl in Hnote. fold noteId in Hnote. rewrite Hfree in Hnote. rewrite Hnote. clear Hnote.
  match goal with |- context [createCard noteId _ ?w1] =>
    pose proof (createCard_eq noteId (CardsRoute.b_deckId body) w1) as Hcard end.
  simpl in Hcard. rewrite Htaken in Hcard. rewrite Hcard. clear Hcard.
  eexists _, _. split; [reflexivity |].
  cbn [with_notes with_cards clock_advanced db cards notes decks].
  split; [apply lookup_insert_eq |].
  split; [by intros other Ho; apply lookup_insert_ne |].
  do 2 (split; [done |]). split; [apply getAllCards_eq |].
  split; [| intros cardId w'' Hdel].
  - rewrite getAllCards_eq. do 3 f_equal.
    cbn [with_notes with_cards clock_advanced db cards notes decks].
    rewrite cards_join_insert_unused_note by done. by destruct w as [[] ????].
  - rewrite deleteCard_eq in Hdel.
    cbn [with_notes with_cards clock_advanced db cards notes decks] in Hdel.
    destruct cardId as [i |]; cbn [mbind option_bind] in Hdel.
    + destruct (cards (db w) !! i) as [c' |] eqn:Hc'; cbn [fmap option_fmap option_map] in Hdel.
      * injection Hdel as <-. cbn [with_notes with_cards clock_advanced db cards notes decks].
        case_bool_decide.
        -- rewrite lookup_delete_ne by (by eapply Hnocard).
           rewrite lookup_insert_eq. by eexists.
        -- rewrite lookup_insert_eq. by eexists.
      * injection Hdel as <-. cbn [with_notes with_cards clock_advanced db cards notes decks].
        rewrite lookup_insert_eq. by eexists.
    + injection Hdel as <-. cbn [with_notes with_cards clock_advanced db cards notes decks].
      rewrite lookup_insert_eq. by eexists.
Qed.

(** Two creation requests, the first one served across a change of second:
    the second request finds its card id taken by the card of the first. *)
Lemma cards_POST_is_not_atomic_witness :
  (CardsRoute.POST [1] (Some (CardsRoute.mkCardBody 5 "f" "b" None)) midnight_world).1
  = Normal (CardsRoute.CreatedJson 87400000 87399000)
  ∧ ∃ w' rows,
      CardsRoute.POST [1] (Some (CardsRoute.mkCardBody 5 "front" "back" None))
                      after_first_creation
      = (Normal (CardsRoute.ErrorJson "Failed to create card" 500), w')
      ∧ notes (db w') !! (clock after_first_creation (clock_reads after_first_creation)
                          / 1000 * 1000)
        = Some (mkNoteRow ("front" +:+ String unit_separator "back") "")
      ∧ (∀ other,
           other ≠ clock after_first_creation (clock_reads after_first_creation) / 1000 * 1000 →
           notes (db w') !! other = notes (db after_first_creation) !! other)
      ∧ cards (db w') = cards (db after_first_creation)
      ∧ decks (db w') = decks (db after_first_creation)
      ∧ getAllCards after_first_creation = (Normal rows, after_first_creation)
      ∧ getAllCards w' = (Normal rows, w')
      ∧ (∀ cardId w'', deleteCard cardId w' = (Normal (), w'') →
           is_Some (notes (db w'') !! (clock after_first_creation
                                         (clock_reads after_first_creation) / 1000 * 1000))).
Proof.
  split; [by vm_compute |].
  apply (cards_POST_is_not_atomic after_first_creation 1 []
           (CardsRoute.mkCardBody 5 "front" "back" None)
           {| c_nid := 87399000; c_did := 5; c_ord := 0; c_mod := 87400; c_type := 0;
              c_queue := 0; c_due := 0; c_ivl := 0; c_factor := 0; c_reps := 0;
              c_lapses := 0 |}).
  - by vm_compute.
  - by vm_compute.
  - apply (bool_decide_unpack
             (map_Forall (λ _ c', c_nid c' ≠ clock after_first_creation
                                               (clock_reads after_first_creation) / 1000 * 1000)
                         (cards (db after_first_creation)))).
    by vm_compute.
Defined.

(** * Properties of the card browser *)

Lemma split_nonempty sep s : split sep s ≠ [].
Proof. destruct (split_head sep s) as (field & fields & -> & _). done. Qed.

Lemma split_fields_no_sep sep s field : field ∈ split sep s → sep ∉ chars field.
Proof.
  revert field. induction s as [| c s IH]; intros field; cbn [split].
  - intros ->%list_elem_of_singleton. apply not_elem_of_nil.
  - destruct (Ascii.eqb_spec c sep) as [-> | Hne].
    + intros [-> | H]%elem_of_cons; [apply not_elem_of_nil | by apply IH].
    + destruct (split sep s) as [| field' fields] eqn:Hs; [by destruct (split_nonempty sep s) |].
      intros [-> | H]%elem_of_cons.
      * cbn [String.list_ascii_of_string]. rewrite not_elem_of_cons. split; [done |].
        apply IH. by left.
      * apply IH. by right.
Qed.

Lemma split_app sep a b :
  sep ∉ chars a → split sep (a +:+ String sep b) = a :: split sep b.
Proof.
  induction a as [| c a IH]; cbn [String.list_ascii_of_string]; intros Hsep.
  - simpl. by rewrite Ascii.eqb_refl.
  - apply not_elem_of_cons in Hsep as [Hc Hsep].
    change (String c a +:+ String sep b) with (String c (a +:+ String sep b)).
    cbn [split]. rewrite IH by done.
    by destruct (Ascii.eqb_spec c sep).
Qed.

Lemma split_single sep a : sep ∉ chars a → split sep a = [a].
Proof.
  intros Hsep. destruct (split_head sep a) as (field & fields & -> & _ & _ & _ & Hall).
  by destruct (Hall Hsep) as [-> ->].
Qed.

(** Joining the fields of a string with the separator gives the string. *)
Lemma join_split sep s : join sep (split sep s) = s.
Proof.
  induction s as [| c s IH]; [done |]. cbn [split].
  destruct (Ascii.eqb_spec c sep) as [-> | Hne].
  - pose proof (split_nonempty sep s).
    cbn [join]. destruct (split sep s) as [| f fs]; [done |]. by rewrite IH.
  - destruct (split sep s) as [| f fs] eqn:Hs; [by destruct (split_nonempty sep s) |].
    rewrite <- IH. by destruct fs.
Qed.

Lemma stripHtml_tag_free_id s : tag_free (chars s) → replace_global match_tag "" s = s.
Proof.
  unfold replace_global. induction s as [| c s IH]; [done |].
  cbn [String.list_ascii_of_string]. intros Hfree.
  assert (tag_free (chars s)) as Hs.
  { intros a b Heq. apply (Hfree (c :: a) b). by rewrite Heq. }
  assert (match_tag (String c s) = None) as Hm.
  { destruct (decide (c = "<"%char)) as [-> | Hne].
    - simpl. apply fmap_None, index_of_None. by apply (Hfree [] (chars s)).
    - destruct c as [[] [] [] [] [] [] [] []]; try reflexivity; done. }
  cbn [replace_scan]. rewrite Hm. by rewrite IH.
Qed.

(** The edit form shows the first two fields of a note, and saving writes
    exactly those two: the saved field list parses back to the two values of
    the form, and it is the stored field list if and only if the note had
    exactly two fields (a single field gains a separator, fields after the
    second are dropped).  The first field, and with it the sort field, is
    kept.  [stripHtml] leaves no complete tag and strips nothing from its
    own result. *)
Theorem edit_form_saves_two_fields (flds : string) :
  ∃ front back rest,
    parseFields flds = front :: rest
    ∧ handleCardSelect_fields flds = (front, back)
    ∧ parseFields (handleSaveEdit_flds front back) = [front; back]
    ∧ (handleSaveEdit_flds front back = flds ↔ length (parseFields flds) = 2%nat)
    ∧ sort_field (handleSaveEdit_flds front back) = sort_field flds
    ∧ tag_free (chars (stripHtml front))
    ∧ stripHtml (stripHtml front) = stripHtml front.
Proof.
  unfold handleCardSelect_fields, handleSaveEdit_flds, parseFields.
  destruct (split unit_separator flds) as [| front rest] eqn:Hs;
    [by destruct (split_nonempty unit_separator flds) |].
  assert (unit_separator ∉ chars front) as Hfront.
  { apply (split_fields_no_sep unit_separator flds). rewrite Hs. by left. }
  assert (unit_separator ∉ chars (default EmptyString (rest !! 0%nat))) as Hback.
  { destruct rest as [| back rest']; [apply not_elem_of_nil |].
    apply (split_fields_no_sep unit_separator flds). rewrite Hs. right. by left. }
  exists front, (default EmptyString (rest !! 0%nat)), rest.
  split; [done |]. split; [done |].
  assert (split unit_separator (front +:+ String unit_separator (default "" (rest !! 0%nat)))
          = [front; default "" (rest !! 0%nat)]) as Hsaved.
  { rewrite split_app by done. by rewrite split_single. }
  split; [done |]. split; [| split; [| split]].
  - split.
    + intros Heq. rewrite <- Heq, Hsaved in Hs. by injection Hs as <-.
    + intros Hlen. destruct rest as [| back [| ??]]; try done.
      rewrite <- (join_split unit_separator flds), Hs. done.
  - unfold sort_field. by rewrite Hsaved, Hs.
  - apply replace_tags_tag_free; apply not_elem_of_nil.
  - apply stripHtml_tag_free_id, replace_tags_tag_free; apply not_elem_of_nil.
Qed.


(** * Properties of cleanTextForEmbedding *)

Example cleanTextForEmbedding_runs :
  cleanTextForEmbedding "  <b>{{c1::Paris}}</b>&nbsp;is  the &lt;capital&gt; "
  = "Paris is the <capital>".
Proof. vm_compute. reflexivity. Qed.

Lemma string_drop_length n s : String.length (string_drop n s) = (String.length s - n)%nat.
Proof.
  revert s. induction n as [| n IH]; intros [| a s]; simpl; try done; try lia.
Qed.

Lemma starts_with_length lit s :
  starts_with lit s = true → (String.length lit ≤ String.length s)%nat.
Proof.
  revert s. induction lit as [| a lit IH]; intros [| b s]; simpl; try done; try lia.
  intros [_ H]%andb_true_iff. apply IH in H. lia.
Qed.

Lemma run_length_le p s : (run_length p s ≤ String.length s)%nat.
Proof. induction s as [| a s IH]; simpl; [done |]. destruct (p a); lia. Qed.

(** Skipping [skip] characters is scanning what is behind them. *)
Lemma replace_scan_drop matcher rep skip s :
  replace_scan matcher rep skip s = replace_scan matcher rep 0 (string_drop skip s).
Proof.
  revert skip. induction s as [| a s IH]; intros [| skip]; try done.
  cbn [replace_scan string_drop]. apply IH.
Qed.

(** A replacement that is never longer than what it replaces does not
    lengthen the string. *)
Lemma replace_scan_length matcher rep s :
  (∀ t n, matcher t = Some n → (String.length rep ≤ n ≤ String.length t)%nat) →
  (String.length (replace_scan matcher rep 0 s) ≤ String.length s)%nat.
Proof.
  intros Hm. remember (String.length s) as len eqn:Hlen.
  assert (String.length s ≤ len)%nat as Hle by lia.
  rewrite Hlen. clear Hlen.
  revert s Hle. induction len as [| len IH]; intros [| a s] Hle; simpl in *; try lia.
  destruct (matcher (String a s)) as [n |] eqn:Hn.
  - rewrite replace_scan_drop.
    assert (String.length (replace_scan matcher rep 0 (string_drop (n - 1) s))
            ≤ String.length (string_drop (n - 1) s))%nat as Hrec.
    { apply IH. rewrite string_drop_length. lia. }
    rewrite string_drop_length in Hrec.
    apply Hm in Hn. simpl in Hn.
    rewrite <- !chars_length, chars_app, length_app, !chars_length. lia.
  - simpl. specialize (IH s ltac:(lia)). lia.
Qed.

Lemma replace_global_length matcher rep s :
  (∀ t n, matcher t = Some n → (String.length rep ≤ n ≤ String.length t)%nat) →
  (String.length (replace_global matcher rep s) ≤ String.length s)%nat.
Proof. apply replace_scan_length. Qed.

Lemma index_of_lt c s k : index_of c s = Some k → (k < String.length s)%nat.
Proof.
  revert k. induction s as [| a s IH]; intros k; simpl; [done |].
  destruct (Ascii.eqb a c).
  - intros [= <-]. lia.
  - destruct (index_of c s) as [k' |]; simpl; [| done].
    intros [= <-]. specialize (IH k' eq_refl). lia.
Qed.

Lemma match_tag_length t n :
  match_tag t = Some n → (2 ≤ n ≤ String.length t)%nat.
Proof.
  destruct t as [| a t]; [done |].
  destruct (decide (a = "<"%char)) as [-> | Hne].
  - simpl. destruct (index_of ">" t) as [k |] eqn:Hk; simpl; [| done].
    intros [= <-]. apply index_of_lt in Hk. lia.
  - destruct a as [[] [] [] [] [] [] [] []]; simpl; done.
Qed.

Lemma match_literal_length lit t n :
  match_literal lit t = Some n → n = String.length lit ∧ (n ≤ String.length t)%nat.
Proof.
  unfold match_literal. destruct (starts_with lit t) eqn:Hs; [| done].
  intros [= <-]. split; [done |]. by apply starts_with_length.
Qed.

Lemma match_cloze_length t n :
  match_cloze t = Some n → (n ≤ String.length t)%nat.
Proof.
  unfold match_cloze. destruct (starts_with "{{c" t); [| done].
  destruct (_ && _) eqn:Hk; [| done]. intros [= <-].
  apply andb_true_iff in Hk as [_ Hk]. apply starts_with_length in Hk.
  rewrite string_drop_length in Hk. simpl in Hk. lia.
Qed.

Lemma match_spaces_length t n :
  match_spaces t = Some n → (1 ≤ n ≤ String.length t)%nat.
Proof.
  unfold match_spaces. destruct (Nat.ltb_spec 0 (run_length is_space t)); [| done].
  intros [= <-]. pose proof (run_length_le is_space t). lia.
Qed.

(** ** Collapsing white space *)

Lemma run_length_skip_spaces s : string_drop (run_length is_space s) s = skip_spaces s.
Proof.
  induction s as [| a s IH]; [done |]. simpl. by destruct (is_space a).
Qed.

Lemma skip_spaces_length s : (String.length (skip_spaces s) ≤ String.length s)%nat.
Proof. induction s as [| a s IH]; simpl; [done |]. destruct (is_space a); simpl; lia. Qed.

Lemma skip_spaces_head s a t : skip_spaces s = String a t → is_space a = false.
Proof.
  induction s as [| b s IH]; simpl; [done |].
  destruct (is_space b) eqn:Hb; [done |]. by intros [= <- _].
Qed.

Lemma skip_spaces_suffix s : ∃ l, chars s = l ++ chars (skip_spaces s).
Proof.
  induction s as [| a s [l Hl]]; [by exists [] |]. simpl.
  destruct (is_space a); [| by exists []].
  exists (a :: l). by rewrite Hl.
Qed.

Lemma skip_spaces_id a s : is_space a = false → skip_spaces (String a s) = String a s.
Proof. intros H. simpl. by rewrite H. Qed.

Lemma collapse_nonspace a s :
  is_space a = false →
  replace_global match_spaces " " (String a s)
  = String a (replace_global match_spaces " " s).
Proof.
  intros Ha. unfold replace_global. cbn [replace_scan].
  unfold match_spaces. cbn [run_length]. by rewrite Ha.
Qed.

Lemma collapse_space a s :
  is_space a = true →
  replace_global match_spaces " " (String a s)
  = String " " (replace_global match_spaces " " (skip_spaces s)).
Proof.
  intros Ha. unfold replace_global. cbn [replace_scan].
  unfold match_spaces. cbn [run_length]. rewrite Ha.
  change (0 <? S (run_length is_space s))%nat with true. cbn iota.
  rewrite replace_scan_drop.
  replace (S (run_length is_space s) - 1)%nat with (run_length is_space s) by lia.
  by rewrite run_length_skip_spaces.
Qed.

Lemma single_spaced_nil : single_spaced [].
Proof.
  split.
  - by intros a ?%elem_of_nil.
  - intros [| ??] ??? ?; simplify_eq/=.
Qed.

Lemma single_spaced_cons x l :
  single_spaced l →
  (is_space x = true → x = " "%char ∧ ∀ y l', l = y :: l' → is_space y = false) →
  single_spaced (x :: l).
Proof.
  intros [Hsp Hadj] Hx. split.
  - intros a [-> | Ha]%elem_of_cons Hws; [by apply Hx | by apply Hsp].
  - intros [| x' l1] x0 y l2 Heq Hws; simplify_eq/=.
    + by eapply (proj2 (Hx Hws)).
    + by eapply Hadj.
Qed.

Lemma single_spaced_suffix l1 l2 : single_spaced (l1 ++ l2) → single_spaced l2.
Proof.
  intros [Hsp Hadj]. split.
  - intros a Ha. apply Hsp. apply elem_of_app. by right.
  - intros l3 x y l4 -> Hws. apply (Hadj (l1 ++ l3) x y l4); [| done].
    by rewrite <- app_assoc.
Qed.

Lemma single_spaced_prefix l1 l2 : single_spaced (l1 ++ l2) → single_spaced l1.
Proof.
  intros [Hsp Hadj]. split.
  - intros a Ha. apply Hsp. apply elem_of_app. by left.
  - intros l3 x y l4 -> Hws. apply (Hadj l3 x y (l4 ++ l2)); [| done].
    by rewrite <- !app_assoc.
Qed.

Lemma collapse_single_spaced s :
  single_spaced (chars (replace_global match_spaces " " s)).
Proof.
  remember (String.length s) as len eqn:Hlen.
  assert (String.length s ≤ len)%nat as Hle by lia. clear Hlen.
  revert s Hle. induction len as [| len IH]; intros [| a s] Hle; simpl in Hle;
    try apply single_spaced_nil; try lia.
  destruct (is_space a) eqn:Ha.
  - rewrite collapse_space by done. cbn [String.list_ascii_of_string].
    apply single_spaced_cons.
    + apply IH. pose proof (skip_spaces_length s). lia.
    + intros _. split; [done |]. intros y l' Hy.
      destruct (skip_spaces s) as [| b t] eqn:Hs; [done |].
      pose proof (skip_spaces_head _ _ _ Hs) as Hb.
      rewrite collapse_nonspace in Hy by done.
      cbn [String.list_ascii_of_string] in Hy. by simplify_eq.
  - rewrite collapse_nonspace by done. cbn [String.list_ascii_of_string].
    apply single_spaced_cons; [apply IH; lia |]. congruence.
Qed.

(** ** trim *)

Lemma trim_end_prefix s : ∃ l, chars s = chars (trim_end s) ++ l.
Proof.
  induction s as [| a s [l Hl]]; [by exists [] |]. cbn [trim_end].
  destruct (trim_end s) as [| b t] eqn:Ht.
  - destruct (is_space a).
    + by exists (chars (String a s)).
    + exists l. cbn [String.list_ascii_of_string] in *. by rewrite Hl.
  - exists l. cbn [String.list_ascii_of_string] in *. by rewrite Hl.
Qed.

Lemma trim_end_last s a : last (chars (trim_end s)) = Some a → is_space a = false.
Proof.
  induction s as [| b s IH]; [done |]. cbn [trim_end].
  destruct (trim_end s) as [| c t] eqn:Ht.
  - destruct (is_space b) eqn:Hb; [done |]. by intros [= <-].
  - cbn [String.list_ascii_of_string] in *. by rewrite last_cons_cons.
Qed.

Lemma trim_end_id s :
  (∀ a, last (chars s) = Some a → is_space a = false) → trim_end s = s.
Proof.
  induction s as [| b s IH]; [done |]. intros Hlast. cbn [trim_end].
  destruct s as [| c t].
  - simpl. by rewrite Hlast.
  - rewrite IH; [done |]. intros a Ha. apply Hlast.
    cbn [String.list_ascii_of_string] in *. by rewrite last_cons_cons.
Qed.

Lemma trim_spec s :
  (String.length (trim s) ≤ String.length s)%nat
  ∧ (single_spaced (chars s) → single_spaced (chars (trim s)))
  ∧ (∀ a, head (chars (trim s)) = Some a → is_space a = false)
  ∧ (∀ a, last (chars (trim s)) = Some a → is_space a = false).
Proof.
  unfold trim.
  destruct (skip_spaces_suffix s) as [l1 H1].
  destruct (trim_end_prefix (skip_spaces s)) as [l2 H2].
  split; [| split; [| split]].
  - rewrite <- !chars_length, H1, H2, !length_app. lia.
  - rewrite H1, H2. intros Hs. by eapply single_spaced_prefix, single_spaced_suffix.
  - intros a Ha.
    destruct (skip_spaces s) as [| b t] eqn:Hs; [done |].
    pose proof (skip_spaces_head _ _ _ Hs) as Hb.
    destruct (chars (trim_end (String b t))) as [| a' l] eqn:Ht; [done |].
    simpl in *. by simplify_eq.
  - apply trim_end_last.
Qed.

(** ** Text without markup *)

Lemma replace_global_none matcher rep s :
  (∀ a t, a ∈ chars s → matcher (String a t) = None) →
  replace_global matcher rep s = s.
Proof.
  unfold replace_global. induction s as [| a s IH]; [done |]. intros Hnone.
  cbn [replace_scan]. rewrite Hnone by (by left).
  rewrite IH; [done |]. intros b t Hb. apply Hnone. by right.
Qed.

Lemma match_tag_head a t : a ≠ "<"%char → match_tag (String a t) = None.
Proof. intros Hne. destruct a as [[] [] [] [] [] [] [] []]; simpl; done. Qed.

Lemma match_literal_head b lit a t :
  a ≠ b → match_literal (String b lit) (String a t) = None.
Proof.
  intros Hne. unfold match_literal. simpl.
  by destruct (Ascii.eqb_spec b a) as [-> | _].
Qed.

Lemma match_cloze_head a t : a ≠ "{"%char → match_cloze (String a t) = None.
Proof.
  intros Hne. unfold match_cloze.
  change (starts_with "{{c" (String a t))
    with (Ascii.eqb "{" a && starts_with "{c" t).
  by destruct (Ascii.eqb_spec "{"%char a) as [<- | _].
Qed.

Lemma collapse_id s :
  single_spaced (chars s) → replace_global match_spaces " " s = s.
Proof.
  induction s as [| a s IH]; [done |]. cbn [String.list_ascii_of_string].
  intros Hs. pose proof (single_spaced_suffix [a] _ Hs) as Hs'.
  destruct (is_space a) eqn:Ha.
  - rewrite collapse_space by done.
    destruct Hs as [Hsp Hadj]. rewrite (Hsp a) by (done || by left).
    destruct s as [| b t]; [done |].
    rewrite skip_spaces_id by (by apply (Hadj [] a b (chars t))).
    by rewrite IH.
  - rewrite collapse_nonspace by done. by rewrite IH.
Qed.

Lemma trim_id s :
  (∀ a, head (chars s) = Some a → is_space a = false) →
  (∀ a, last (chars s) = Some a → is_space a = false) →
  trim s = s.
Proof.
  intros Hhead Hlast. unfold trim.
  destruct s as [| a s]; [done |].
  rewrite skip_spaces_id by (by apply Hhead). by apply trim_end_id.
Qed.

Lemma cleanTextForEmbedding_length html :
  (String.length (cleanTextForEmbedding html) ≤ String.length html)%nat.
Proof.
  unfold cleanTextForEmbedding.
  etransitivity; [apply trim_spec |].
  etransitivity; [apply replace_global_length |].
  { intros t n Hn%match_spaces_length. simpl. lia. }
  etransitivity; [apply replace_global_length |].
  { intros t n [-> Hn]%match_literal_length. simpl in *. lia. }
  etransitivity; [apply replace_global_length |].
  { intros t n [-> Hn]%match_literal_length. simpl in *. lia. }
  etransitivity; [apply replace_global_length |].
  { intros t n [-> Hn]%match_literal_length. simpl in *. lia. }
  etransitivity; [apply replace_global_length |].
  { intros t n [-> Hn]%match_literal_length. simpl in *. lia. }
  etransitivity; [apply replace_global_length |].
  { intros t n [-> Hn]%match_literal_length. simpl in *. lia. }
  etransitivity; [apply replace_global_length |].
  { intros t n Hn%match_cloze_length. simpl. lia. }
  apply replace_global_length.
  intros t n Hn%match_tag_length. simpl. lia.
Qed.

(** [cleanTextForEmbedding], on a string of ASCII characters: the result is
    never longer than the argument; the white space in it is single space
    characters, none at its start and none at its end.  A text that is
    already so, and holds none of the characters [<], [{], [}] and [&], is
    returned as it is. *)
Theorem cleanTextForEmbedding_normalises (html : string) :
  ascii_string html →
  (String.length (cleanTextForEmbedding html) ≤ String.length html)%nat
  ∧ single_spaced (chars (cleanTextForEmbedding html))
  ∧ (∀ a, head (chars (cleanTextForEmbedding html)) = Some a → is_space a = false)
  ∧ (∀ a, last (chars (cleanTextForEmbedding html)) = Some a → is_space a = false)
  ∧ ((∀ a, a ∈ chars html → a ∉ ["<"; "{"; "}"; "&"]%char) →
     single_spaced (chars html) →
     (∀ a, head (chars html) = Some a → is_space a = false) →
     (∀ a, last (chars html) = Some a → is_space a = false) →
     cleanTextForEmbedding html = html).
Proof.
  intros _. split; [apply cleanTextForEmbedding_length |].
  unfold cleanTextForEmbedding.
  split; [| split; [| split]].
  - apply trim_spec, collapse_single_spaced.
  - apply trim_spec.
  - apply trim_spec.
  - intros Hplain Hs Hhead Hlast.
    assert (∀ a b, a ∈ chars html → b ∈ ["<"; "{"; "}"; "&"]%char → a ≠ b) as Hne.
    { intros a b Ha Hb ->. by apply (Hplain b). }
    rewrite (replace_global_none match_tag).
    2: { intros a t Ha. apply match_tag_head, (Hne a); [done | set_solver]. }
    rewrite (replace_global_none match_cloze).
    2: { intros a t Ha. apply match_cloze_head, (Hne a); [done | set_solver]. }
    rewrite (replace_global_none (match_literal "}}")).
    2: { intros a t Ha. apply match_literal_head, (Hne a); [done | set_solver]. }
    rewrite (replace_global_none (match_literal "&nbsp;")).
    2: { intros a t Ha. apply match_literal_head, (Hne a); [done | set_solver]. }
    rewrite (replace_global_none (match_literal "&amp;")).
    2: { intros a t Ha. apply match_literal_head, (Hne a); [done | set_solver]. }
    rewrite (replace_global_none (match_literal "&lt;")).
    2: { intros a t Ha. apply match_literal_head, (Hne a); [done | set_solver]. }
    rewrite (replace_global_none (match_literal "&gt;")).
    2: { intros a t Ha. apply match_literal_head, (Hne a); [done | set_solver]. }
    rewrite collapse_id by done. by apply trim_id.
Qed.

Lemma cleanTextForEmbedding_normalises_witness :
  (String.length (cleanTextForEmbedding "a  <b>b</b> &amp; c ")
   ≤ String.length "a  <b>b</b> &amp; c ")%nat
  ∧ single_spaced (chars (cleanTextForEmbedding "a  <b>b</b> &amp; c "))
  ∧ (∀ a, head (chars (cleanTextForEmbedding "a  <b>b</b> &amp; c ")) = Some a →
          is_space a = false)
  ∧ (∀ a, last (chars (cleanTextForEmbedding "a  <b>b</b> &amp; c ")) = Some a →
          is_space a = false)
  ∧ ((∀ a, a ∈ chars "a  <b>b</b> &amp; c " → a ∉ ["<"; "{"; "}"; "&"]%char) →
     single_spaced (chars "a  <b>b</b> &amp; c ") →
     (∀ a, head (chars "a  <b>b</b> &amp; c ") = Some a → is_space a = false) →
     (∀ a, last (chars "a  <b>b</b> &amp; c ") = Some a → is_space a = false) →
     cleanTextForEmbedding "a  <b>b</b> &amp; c " = "a  <b>b</b> &amp; c ").
Proof.
  apply (cleanTextForEmbedding_normalises "a  <b>b</b> &amp; c ").
  apply (bool_decide_unpack (ascii_string "a  <b>b</b> &amp; c ")).
  by vm_compute.
Defined.
